(** * CEP lookup race: two backends, one buffered channel, one deadline

    A verification development for the two Go programs of the repository:
    the timing variant (main.go: wait group, mutex-guarded timing map,
    detached comparison goroutine) and the plain variant (the same race
    without any timing bookkeeping).

    The goroutines are embedded as programs in continuation-passing
    style over the operations the Go code performs on its shared objects
    (the result channel, the context, the wait group, the mutex, the
    timing map, standard output) and on the outside world (clock, HTTP
    client, JSON decoder).  A small interleaving semantics runs a pool of
    such programs one operation at a time. *)

From Stdlib Require Import Ascii.
From Corelib Require PrimInt63 PrimFloat.
From stdpp Require Import gmap strings list fin_maps pretty.

Local Open Scope Z_scope.

(** ** Data model *)

(** [time.Duration] and instants of the monotonic clock are [int64]
    nanosecond counts; they are kept in [Z]. *)
Abbreviation time_Duration := Z (only parsing).
Abbreviation time_Time := Z (only parsing).

Definition Nanosecond : Z := 1.
Definition Microsecond : Z := 1000 * Nanosecond.
Definition Millisecond : Z := 1000 * Microsecond.
Definition Second : Z := 1000 * Millisecond.

(** [http.StatusOK] *)
Definition StatusOK : Z := 200.
(** [http.MethodGet] *)
Definition MethodGet : string := "GET".

(** A Go [error] value is represented by its message. *)
Abbreviation error := string (only parsing).

(** The line feed, for the [\n] of the Go string literals. *)
Definition nl : string := String (Ascii.ascii_of_nat 10) EmptyString.

Module BrasilAPICEP.
Record t : Type := mk {
  Cep : string;
  State : string;
  City : string;
  Neighborhood : string;
  Street : string;
  Service : string
}.
End BrasilAPICEP.

Module ViaCEP.
Record t : Type := mk {
  Cep : string;
  Logradouro : string;
  Complemento : string;
  Bairro : string;
  Localidade : string;
  Uf : string;
  Ibge : string;
  Gia : string;
  Ddd : string;
  Siafi : string
}.
End ViaCEP.

(** The dynamic content of the [Data interface{}] field: the programs only
    ever store one of the two decoded structs in it; the nil interface is
    [None] at the field. *)
Inductive Payload : Type :=
| PBrasilAPICEP (data : BrasilAPICEP.t)
| PViaCEP (data : ViaCEP.t).

(** [Response]; the plain variant has no [Duration] field, its responses
    are embedded with [Duration := 0]. *)
Record Response : Type := mkResponse {
  Data : option Payload;
  APIName : string;
  Error : option error;
  Duration : time_Duration
}.

Record Request : Type := mkRequest {
  Method : string;
  URL : string
}.

(** [*http.Response], with the body stream as a handle. *)
Record HttpResponse : Type := mkHttpResponse {
  StatusCode : Z;
  Body : nat
}.

(** [float64] arguments of the print statements: the programs only build
    [d.Seconds()] and the difference of two such values. *)
Inductive F64 : Type :=
| Seconds (d : time_Duration)
| F64Sub (a b : F64).

Inductive Value : Type :=
| VString (s : string)
| VError (e : error)
| VFloat64 (f : F64).

Inductive Output : Type :=
| OutPrintln (s : string)
| OutPrintf (format : string) (args : list Value).

(** The functions started as goroutines, with their by-value arguments. The
    channel, context, wait group, mutex and map arguments always are the
    single objects [main] created, and are left implicit. *)
Inductive Goroutine : Type :=
| GMain (args : list string)
| GFetchBrasilAPI (cep : string)
| GFetchViaCEP (cep : string)
| GTimingReport.

Global Instance BrasilAPICEP_eq_dec : EqDecision BrasilAPICEP.t.
Proof. solve_decision. Defined.
Global Instance ViaCEP_eq_dec : EqDecision ViaCEP.t.
Proof. solve_decision. Defined.
Global Instance Payload_eq_dec : EqDecision Payload.
Proof. solve_decision. Defined.
Global Instance Response_eq_dec : EqDecision Response.
Proof. solve_decision. Defined.
Global Instance Request_eq_dec : EqDecision Request.
Proof. solve_decision. Defined.
Global Instance HttpResponse_eq_dec : EqDecision HttpResponse.
Proof. solve_decision. Defined.
Global Instance F64_eq_dec : EqDecision F64.
Proof. solve_decision. Defined.
Global Instance Value_eq_dec : EqDecision Value.
Proof. solve_decision. Defined.
Global Instance Output_eq_dec : EqDecision Output.
Proof. solve_decision. Defined.
Global Instance Goroutine_eq_dec : EqDecision Goroutine.
Proof. solve_decision. Defined.

(** ** Programs *)

(** One constructor per operation, with the rest of the goroutine as its
    continuation. [Return] is the return of the goroutine's function. *)
Inductive Prog : Type :=
| Return
| Println (s : string) (k : Prog)
| Printf (format : string) (args : list Value) (k : Prog)
| WithTimeout (d : time_Duration) (k : Prog)
| Cancel (k : Prog)
| MakeChan (capacity : nat) (k : Prog)
| WgAdd (n : Z) (k : Prog)
| WgDone (k : Prog)
| WgWait (k : Prog)
| Go (g : Goroutine) (k : Prog)
| SelectResultOrDone (k : option Response -> Prog)
| After (d : time_Duration) (k : time_Time -> Prog)
| SelectResultOrTimer (t : time_Time) (k : Prog)
| WaitTimer (t : time_Time) (k : Prog)
| Now (k : time_Time -> Prog)
| Since (t : time_Time) (k : time_Duration -> Prog)
| NewRequestWithContext (method url : string) (k : error + Request -> Prog)
| ClientDo (req : Request) (k : error + HttpResponse -> Prog)
| ReadAll (body : nat) (k : error + string -> Prog)
| BodyClose (body : nat) (k : Prog)
| UnmarshalBrasilAPICEP (body : string) (k : error + BrasilAPICEP.t -> Prog)
| UnmarshalViaCEP (body : string) (k : error + ViaCEP.t -> Prog)
| Lock (k : Prog)
| Unlock (k : Prog)
| MapStore (key : string) (d : time_Duration) (k : Prog)
| MapLen (k : nat -> Prog)
| MapRange (k : list (string * time_Duration) -> Prog)
| ChanSend (r : Response) (k : Prog).

(** [seq p q] runs [q] at every return of [p]. *)
Fixpoint seq (p q : Prog) : Prog :=
  match p with
  | Return => q
  | Println s k => Println s (seq k q)
  | Printf f a k => Printf f a (seq k q)
  | WithTimeout d k => WithTimeout d (seq k q)
  | Cancel k => Cancel (seq k q)
  | MakeChan n k => MakeChan n (seq k q)
  | WgAdd n k => WgAdd n (seq k q)
  | WgDone k => WgDone (seq k q)
  | WgWait k => WgWait (seq k q)
  | Go g k => Go g (seq k q)
  | SelectResultOrDone k => SelectResultOrDone (fun r => seq (k r) q)
  | After d k => After d (fun t => seq (k t) q)
  | SelectResultOrTimer t k => SelectResultOrTimer t (seq k q)
  | WaitTimer t k => WaitTimer t (seq k q)
  | Now k => Now (fun t => seq (k t) q)
  | Since t k => Since t (fun d => seq (k d) q)
  | NewRequestWithContext m u k => NewRequestWithContext m u (fun r => seq (k r) q)
  | ClientDo req k => ClientDo req (fun r => seq (k r) q)
  | ReadAll b k => ReadAll b (fun r => seq (k r) q)
  | BodyClose b k => BodyClose b (seq k q)
  | UnmarshalBrasilAPICEP b k => UnmarshalBrasilAPICEP b (fun r => seq (k r) q)
  | UnmarshalViaCEP b k => UnmarshalViaCEP b (fun r => seq (k r) q)
  | Lock k => Lock (seq k q)
  | Unlock k => Unlock (seq k q)
  | MapStore key d k => MapStore key d (seq k q)
  | MapLen k => MapLen (fun n => seq (k n) q)
  | MapRange k => MapRange (fun l => seq (k l) q)
  | ChanSend r k => ChanSend r (seq k q)
  end.

(** [defer f(); body]: the deferred call runs when the body returns. *)
Definition defer (deferred body : Prog) : Prog := seq body deferred.

(** [time.Sleep(d)] is a receive from [time.After(d)]. *)
Definition Sleep (d : time_Duration) (k : Prog) : Prog :=
  After d (fun t => WaitTimer t k).

Declare Scope prog_scope.
Delimit Scope prog_scope with prog.
Bind Scope prog_scope with Prog.
Notation "x <- c ;; k" := (c (fun x => k))
  (at level 100, c at next level, right associativity, only parsing) : prog_scope.
Notation "c ;; k" := (c k)
  (at level 100, right associativity, only parsing) : prog_scope.
Local Open Scope prog_scope.

(** [fmt.Errorf("status code: %d", code)] *)
Definition status_error (code : Z) : error := "status code: " +:+ pretty code.

(** The five-argument format shared by both branches of the type switch. *)
Definition address_format : string :=
  "CEP: %s" +:+ nl +:+ "Estado: %s" +:+ nl +:+ "Cidade: %s" +:+ nl +:+
  "Bairro: %s" +:+ nl +:+ "Rua: %s" +:+ nl.

(** [switch data := result.Data.(type)]: one [Printf] per known struct,
    nothing for any other dynamic type. *)
Definition print_address (data : option Payload) (k : Prog) : Prog :=
  match data with
  | Some (PBrasilAPICEP data) =>
      Printf address_format
        [VString (BrasilAPICEP.Cep data); VString (BrasilAPICEP.State data);
         VString (BrasilAPICEP.City data); VString (BrasilAPICEP.Neighborhood data);
         VString (BrasilAPICEP.Street data)] ;; k
  | Some (PViaCEP data) =>
      Printf address_format
        [VString (ViaCEP.Cep data); VString (ViaCEP.Uf data);
         VString (ViaCEP.Localidade data); VString (ViaCEP.Bairro data);
         VString (ViaCEP.Logradouro data)] ;; k
  | None => k
  end.

Definition usage_message : string :=
  "Por favor, forneça um CEP como argumento. Exemplo: go run main.go 01153000".
Definition searching_format : string :=
  "Buscando informações para o CEP: %s" +:+ nl.
Definition api_error_format : string := "Erro na API %s: %v" +:+ nl.
Definition timeout_message : string := "Erro: Timeout após 1 segundo".

Definition brasilapi_url (cep : string) : string :=
  "https://brasilapi.com.br/api/cep/v1/" +:+ cep.
Definition viacep_url (cep : string) : string :=
  "http://viacep.com.br/ws/" +:+ cep +:+ "/json/".

(** *** The timing variant (main.go) *)
Module Timed.

Definition fetchBrasilAPI (cep : string) : Prog :=
  defer (WgDone ;; Return) (
  startTime <- Now ;;
  let apiName := "BrasilAPI" in
  let url := brasilapi_url cep in
  r <- NewRequestWithContext MethodGet url ;;
  match r with
  | inl err =>
      d <- Since startTime ;;
      ChanSend (mkResponse None apiName (Some err) d) ;; Return
  | inr req =>
  r <- ClientDo req ;;
  match r with
  | inl err =>
      d <- Since startTime ;;
      ChanSend (mkResponse None apiName (Some err) d) ;; Return
  | inr resp =>
  defer (BodyClose (Body resp) ;; Return) (
  if bool_decide (StatusCode resp ≠ StatusOK) then
      d <- Since startTime ;;
      ChanSend (mkResponse None apiName (Some (status_error (StatusCode resp))) d) ;;
      Return
  else
  r <- ReadAll (Body resp) ;;
  match r with
  | inl err =>
      d <- Since startTime ;;
      ChanSend (mkResponse None apiName (Some err) d) ;; Return
  | inr body =>
  r <- UnmarshalBrasilAPICEP body ;;
  match r with
  | inl err =>
      d <- Since startTime ;;
      ChanSend (mkResponse None apiName (Some err) d) ;; Return
  | inr data =>
  duration <- Since startTime ;;
  Lock ;;
  MapStore apiName duration ;;
  Unlock ;;
  ChanSend (mkResponse (Some (PBrasilAPICEP data)) apiName None duration) ;;
  Return
  end end) end end).

Definition fetchViaCEP (cep : string) : Prog :=
  defer (WgDone ;; Return) (
  startTime <- Now ;;
  let apiName := "ViaCEP" in
  let url := viacep_url cep in
  r <- NewRequestWithContext MethodGet url ;;
  match r with
  | inl err =>
      d <- Since startTime ;;
      ChanSend (mkResponse None apiName (Some err) d) ;; Return
  | inr req =>
  r <- ClientDo req ;;
  match r with
  | inl err =>
      d <- Since startTime ;;
      ChanSend (mkResponse None apiName (Some err) d) ;; Return
  | inr resp =>
  defer (BodyClose (Body resp) ;; Return) (
  if bool_decide (StatusCode resp ≠ StatusOK) then
      d <- Since startTime ;;
      ChanSend (mkResponse None apiName (Some (status_error (StatusCode resp))) d) ;;
      Return
  else
  r <- ReadAll (Body resp) ;;
  match r with
  | inl err =>
      d <- Since startTime ;;
      ChanSend (mkResponse None apiName (Some err) d) ;; Return
  | inr body =>
  r <- UnmarshalViaCEP body ;;
  match r with
  | inl err =>
      d <- Since startTime ;;
      ChanSend (mkResponse None apiName (Some err) d) ;; Return
  | inr data =>
  duration <- Since startTime ;;
  Lock ;;
  MapStore apiName duration ;;
  Unlock ;;
  ChanSend (mkResponse (Some (PViaCEP data)) apiName None duration) ;;
  Return
  end end) end end).

(** The local variables of the comparison loop. *)
Record Extremes : Type := mkExtremes {
  fastest : string;
  slowest : string;
  fastestTime : time_Duration;
  slowestTime : time_Duration
}.

(** One iteration of [for api, duration := range timingResults]. *)
Definition compare_entry (acc : Extremes) (entry : string * time_Duration) : Extremes :=
  let '(api, duration) := entry in
  let acc :=
    if bool_decide (fastest acc = "") || bool_decide (duration < fastestTime acc)
    then mkExtremes api (slowest acc) duration (slowestTime acc)
    else acc in
  if bool_decide (slowest acc = "") || bool_decide (duration > slowestTime acc)
  then mkExtremes (fastest acc) api (fastestTime acc) duration
  else acc.

Definition compare_all (entries : list (string * time_Duration)) : Extremes :=
  fold_left compare_entry entries (mkExtremes "" "" 0 0).

Definition report_header : string :=
  nl +:+ "=== Comparativo de Tempo de Resposta ===".
Definition fastest_format : string := "API mais rápida: %s (%.3fs)" +:+ nl.
Definition slowest_format : string := "API mais lenta: %s (%.3fs)" +:+ nl.
Definition difference_format : string := "Diferença: %.3fs" +:+ nl.
Definition entry_format : string := "%s: %.3fs" +:+ nl.
Definition unavailable_message : string :=
  "Não foi possível obter resposta de ambas as APIs para comparação.".

(** The second [range] loop: one line per entry. *)
Fixpoint print_entries (entries : list (string * time_Duration)) (k : Prog) : Prog :=
  match entries with
  | [] => k
  | (api, duration) :: rest =>
      Printf entry_format [VString api; VFloat64 (Seconds duration)] ;;
      print_entries rest k
  end.

(** The [if len(timingResults) > 1 ... else ...] of the comparison
    goroutine, run with the mutex held. *)
Definition compare_timings : Prog :=
  n <- MapLen ;;
  if bool_decide (1 < n)%nat then
    entries <- MapRange ;;
    let x := compare_all entries in
    Printf fastest_format [VString (fastest x); VFloat64 (Seconds (fastestTime x))] ;;
    Printf slowest_format [VString (slowest x); VFloat64 (Seconds (slowestTime x))] ;;
    Printf difference_format
      [VFloat64 (F64Sub (Seconds (slowestTime x)) (Seconds (fastestTime x)))] ;;
    entries <- MapRange ;;
    print_entries entries Return
  else
    Println unavailable_message ;; Return.

(** The anonymous [go func() { ... }()] of [main]. *)
Definition timing_report : Prog :=
  WgWait ;;
  Println report_header ;;
  Lock ;;
  defer (Unlock ;; Return) compare_timings.

Definition fastest_response_format : string :=
  "Resposta mais rápida da API: %s (%.3fs)" +:+ nl +:+ nl.

(** What [main] does once its first [select] has chosen a case:
    [Some result] for the channel case, [None] for [ctx.Done()]. *)
Definition after_select (outcome : option Response) : Prog :=
  match outcome with
  | Some result =>
      match Error result with
      | Some err =>
          Printf api_error_format [VString (APIName result); VError err] ;;
          Return
      | None =>
          Printf fastest_response_format
            [VString (APIName result); VFloat64 (Seconds (Duration result))] ;;
          print_address (Data result) (
          Go GTimingReport ;;
          t <- After (100 * Millisecond) ;;
          SelectResultOrTimer t ;;
          Sleep (200 * Millisecond) ;;
          Return)
      end
  | None =>
      Println timeout_message ;;
      Return
  end.

Definition main (args : list string) : Prog :=
  match args with
  | _ :: cep :: _ =>
      Printf searching_format [VString cep] ;;
      WithTimeout (1 * Second) ;;
      defer (Cancel ;; Return) (
      MakeChan 2 ;;
      WgAdd 2 ;;
      Go (GFetchBrasilAPI cep) ;;
      Go (GFetchViaCEP cep) ;;
      outcome <- SelectResultOrDone ;;
      after_select outcome)
  | _ =>
      Println usage_message ;;
      Return
  end.

Definition code (g : Goroutine) : Prog :=
  match g with
  | GMain args => main args
  | GFetchBrasilAPI cep => fetchBrasilAPI cep
  | GFetchViaCEP cep => fetchViaCEP cep
  | GTimingReport => timing_report
  end.

End Timed.

(** *** The plain variant *)
Module Plain.

Definition fetchBrasilAPI (cep : string) : Prog :=
  let url := brasilapi_url cep in
  r <- NewRequestWithContext MethodGet url ;;
  match r with
  | inl err => ChanSend (mkResponse None "BrasilAPI" (Some err) 0) ;; Return
  | inr req =>
  r <- ClientDo req ;;
  match r with
  | inl err => ChanSend (mkResponse None "BrasilAPI" (Some err) 0) ;; Return
  | inr resp =>
  defer (BodyClose (Body resp) ;; Return) (
  if bool_decide (StatusCode resp ≠ StatusOK) then
      ChanSend (mkResponse None "BrasilAPI"
                  (Some (status_error (StatusCode resp))) 0) ;;
      Return
  else
  r <- ReadAll (Body resp) ;;
  match r with
  | inl err => ChanSend (mkResponse None "BrasilAPI" (Some err) 0) ;; Return
  | inr body =>
  r <- UnmarshalBrasilAPICEP body ;;
  match r with
  | inl err => ChanSend (mkResponse None "BrasilAPI" (Some err) 0) ;; Return
  | inr data =>
  ChanSend (mkResponse (Some (PBrasilAPICEP data)) "BrasilAPI" None 0) ;;
  Return
  end end) end end.

Definition fetchViaCEP (cep : string) : Prog :=
  let url := viacep_url cep in
  r <- NewRequestWithContext MethodGet url ;;
  match r with
  | inl err => ChanSend (mkResponse None "ViaCEP" (Some err) 0) ;; Return
  | inr req =>
  r <- ClientDo req ;;
  match r with
  | inl err => ChanSend (mkResponse None "ViaCEP" (Some err) 0) ;; Return
  | inr resp =>
  defer (BodyClose (Body resp) ;; Return) (
  if bool_decide (StatusCode resp ≠ StatusOK) then
      ChanSend (mkResponse None "ViaCEP"
                  (Some (status_error (StatusCode resp))) 0) ;;
      Return
  else
  r <- ReadAll (Body resp) ;;
  match r with
  | inl err => ChanSend (mkResponse None "ViaCEP" (Some err) 0) ;; Return
  | inr body =>
  r <- UnmarshalViaCEP body ;;
  match r with
  | inl err => ChanSend (mkResponse None "ViaCEP" (Some err) 0) ;; Return
  | inr data =>
  ChanSend (mkResponse (Some (PViaCEP data)) "ViaCEP" None 0) ;;
  Return
  end end) end end.

Definition fastest_response_format : string :=
  "Resposta mais rápida da API: %s" +:+ nl +:+ nl.

Definition after_select (outcome : option Response) : Prog :=
  match outcome with
  | Some result =>
      match Error result with
      | Some err =>
          Printf api_error_format [VString (APIName result); VError err] ;;
          Return
      | None =>
          Printf fastest_response_format [VString (APIName result)] ;;
          print_address (Data result) Return
      end
  | None =>
      Println timeout_message ;;
      Return
  end.

Definition main (args : list string) : Prog :=
  match args with
  | _ :: cep :: _ =>
      Printf searching_format [VString cep] ;;
      WithTimeout (1 * Second) ;;
      defer (Cancel ;; Return) (
      MakeChan 2 ;;
      Go (GFetchBrasilAPI cep) ;;
      Go (GFetchViaCEP cep) ;;
      outcome <- SelectResultOrDone ;;
      after_select outcome)
  | _ =>
      Println usage_message ;;
      Return
  end.

(** The plain variant starts no comparison goroutine. *)
Definition code (g : Goroutine) : Prog :=
  match g with
  | GMain args => main args
  | GFetchBrasilAPI cep => fetchBrasilAPI cep
  | GFetchViaCEP cep => fetchViaCEP cep
  | GTimingReport => Return
  end.

End Plain.

(** ** Interleaving semantics *)

(** What a goroutine did in one step: the operation with its arguments and
    its result. *)
Inductive Event : Type :=
| EPrintln (s : string)
| EPrintf (format : string) (args : list Value)
| EWithTimeout (d : time_Duration) (deadline : time_Time)
| ECancel
| EMakeChan (capacity : nat)
| EWgAdd (n : Z)
| EWgDone
| EWgWait
| EGo (g : Goroutine)
| ESelectResultOrDone (outcome : option Response)
| EAfter (d : time_Duration) (t : time_Time)
| ESelectResultOrTimer (t : time_Time) (outcome : option Response)
| EWaitTimer (t : time_Time)
| ENow (t : time_Time)
| ESince (t : time_Time) (d : time_Duration)
| ENewRequestWithContext (method url : string) (r : error + Request)
| EClientDo (req : Request) (r : error + HttpResponse)
| EReadAll (body : nat) (r : error + string)
| EBodyClose (body : nat)
| EUnmarshalBrasilAPICEP (body : string) (r : error + BrasilAPICEP.t)
| EUnmarshalViaCEP (body : string) (r : error + ViaCEP.t)
| ELock
| EUnlock
| EMapStore (key : string) (d : time_Duration)
| EMapLen (n : nat)
| EMapRange (entries : list (string * time_Duration))
| ESend (r : Response).

Global Instance Event_eq_dec : EqDecision Event.
Proof. solve_decision. Defined.

(** What the outside world or the Go runtime decides in a step: the result
    of an external call, the ready case a [select] takes, the order in
    which a [range] visits the map. *)
Inductive Answer : Type :=
| ANone
| APick (receive : bool)
| ANewRequest (r : error + Request)
| AClientDo (r : error + HttpResponse)
| AReadAll (r : error + string)
| ABrasilAPICEP (r : error + BrasilAPICEP.t)
| AViaCEP (r : error + ViaCEP.t)
| AOrder (entries : list (string * time_Duration)).

Inductive Label : Type :=
| Tick (dt : time_Duration)
| Run (tid : nat) (a : Answer).

(** The process: the goroutines (main is number 0, the others in the order
    of their [go] statements), the clock, and the objects [main] creates and
    shares. [trace] is the history of the run, oldest step first. *)
Record Config : Type := mkConfig {
  threads : list (Goroutine * Prog);
  clock : time_Time;
  ctx_deadline : option time_Time;
  ctx_cancelled : bool;
  chan_cap : nat;
  resultChan : list Response;
  wg : Z;
  timingMutex : option nat;
  timingResults : gmap string Z;
  stdout : list Output;
  panicked : bool;
  trace : list (nat * Event)
}.

Definition set_threads (ts : list (Goroutine * Prog)) (c : Config) : Config :=
  mkConfig ts (clock c) (ctx_deadline c) (ctx_cancelled c) (chan_cap c)
    (resultChan c) (wg c) (timingMutex c) (timingResults c) (stdout c)
    (panicked c) (trace c).
Definition set_clock (t : time_Time) (c : Config) : Config :=
  mkConfig (threads c) t (ctx_deadline c) (ctx_cancelled c) (chan_cap c)
    (resultChan c) (wg c) (timingMutex c) (timingResults c) (stdout c)
    (panicked c) (trace c).
Definition set_ctx (deadline : option time_Time) (cancelled : bool) (c : Config) : Config :=
  mkConfig (threads c) (clock c) deadline cancelled (chan_cap c)
    (resultChan c) (wg c) (timingMutex c) (timingResults c) (stdout c)
    (panicked c) (trace c).
Definition set_chan (capacity : nat) (buf : list Response) (c : Config) : Config :=
  mkConfig (threads c) (clock c) (ctx_deadline c) (ctx_cancelled c) capacity
    buf (wg c) (timingMutex c) (timingResults c) (stdout c)
    (panicked c) (trace c).
Definition set_wg (n : Z) (c : Config) : Config :=
  mkConfig (threads c) (clock c) (ctx_deadline c) (ctx_cancelled c) (chan_cap c)
    (resultChan c) n (timingMutex c) (timingResults c) (stdout c)
    (panicked c) (trace c).
Definition set_mutex (holder : option nat) (c : Config) : Config :=
  mkConfig (threads c) (clock c) (ctx_deadline c) (ctx_cancelled c) (chan_cap c)
    (resultChan c) (wg c) holder (timingResults c) (stdout c)
    (panicked c) (trace c).
Definition set_results (m : gmap string Z) (c : Config) : Config :=
  mkConfig (threads c) (clock c) (ctx_deadline c) (ctx_cancelled c) (chan_cap c)
    (resultChan c) (wg c) (timingMutex c) m (stdout c)
    (panicked c) (trace c).
Definition print (o : Output) (c : Config) : Config :=
  mkConfig (threads c) (clock c) (ctx_deadline c) (ctx_cancelled c) (chan_cap c)
    (resultChan c) (wg c) (timingMutex c) (timingResults c) (stdout c ++ [o])
    (panicked c) (trace c).
(** A run-time panic or fatal error ends the process. *)
Definition panic (c : Config) : Config :=
  mkConfig (threads c) (clock c) (ctx_deadline c) (ctx_cancelled c) (chan_cap c)
    (resultChan c) (wg c) (timingMutex c) (timingResults c) (stdout c)
    true (trace c).
Definition log (tid : nat) (e : Event) (c : Config) : Config :=
  mkConfig (threads c) (clock c) (ctx_deadline c) (ctx_cancelled c) (chan_cap c)
    (resultChan c) (wg c) (timingMutex c) (timingResults c) (stdout c)
    (panicked c) (trace c ++ [(tid, e)]).

(** [ctx.Done()] is ready once the deadline has passed or [cancel] ran. *)
Definition ctx_done (c : Config) : bool :=
  ctx_cancelled c ||
  match ctx_deadline c with
  | Some t => bool_decide (t ≤ clock c)
  | None => false
  end.

(** One operation of goroutine [tid], whose program is [p]. [None] when the
    operation cannot proceed now (a full channel, a held mutex, a [select]
    case that is not ready, a positive wait-group counter, a timer that has
    not fired) or the answer is not one for this operation. The channel is
    the buffered one [main] makes: a send needs a free slot, a receive takes
    the oldest value. *)
Definition perform (code : Goroutine -> Prog) (tid : nat) (a : Answer)
    (p : Prog) (c : Config) : option (Event * Prog * Config) :=
  match p with
  | Return => None
  | Println s k => Some (EPrintln s, k, print (OutPrintln s) c)
  | Printf f args k => Some (EPrintf f args, k, print (OutPrintf f args) c)
  | WithTimeout d k =>
      Some (EWithTimeout d (clock c + d), k,
            set_ctx (Some (clock c + d)) (ctx_cancelled c) c)
  | Cancel k => Some (ECancel, k, set_ctx (ctx_deadline c) true c)
  | MakeChan n k => Some (EMakeChan n, k, set_chan n [] c)
  | WgAdd n k =>
      Some (EWgAdd n, k,
            if bool_decide (wg c + n < 0) then panic c else set_wg (wg c + n) c)
  | WgDone k =>
      Some (EWgDone, k,
            if bool_decide (wg c - 1 < 0) then panic c else set_wg (wg c - 1) c)
  | WgWait k => if bool_decide (wg c = 0) then Some (EWgWait, k, c) else None
  | Go g k => Some (EGo g, k, set_threads (threads c ++ [(g, code g)]) c)
  | SelectResultOrDone k =>
      match a with
      | APick true =>
          match resultChan c with
          | r :: rest =>
              Some (ESelectResultOrDone (Some r), k (Some r), set_chan (chan_cap c) rest c)
          | [] => None
          end
      | APick false =>
          if ctx_done c then Some (ESelectResultOrDone None, k None, c) else None
      | _ => None
      end
  | After d k => Some (EAfter d (clock c + d), k (clock c + d), c)
  | SelectResultOrTimer t k =>
      match a with
      | APick true =>
          match resultChan c with
          | r :: rest =>
              Some (ESelectResultOrTimer t (Some r), k, set_chan (chan_cap c) rest c)
          | [] => None
          end
      | APick false =>
          if bool_decide (t ≤ clock c)
          then Some (ESelectResultOrTimer t None, k, c) else None
      | _ => None
      end
  | WaitTimer t k =>
      if bool_decide (t ≤ clock c) then Some (EWaitTimer t, k, c) else None
  | Now k => Some (ENow (clock c), k (clock c), c)
  | Since t k => Some (ESince t (clock c - t), k (clock c - t), c)
  | NewRequestWithContext m u k =>
      match a with
      | ANewRequest r => Some (ENewRequestWithContext m u r, k r, c)
      | _ => None
      end
  | ClientDo req k =>
      match a with
      | AClientDo r => Some (EClientDo req r, k r, c)
      | _ => None
      end
  | ReadAll b k =>
      match a with
      | AReadAll r => Some (EReadAll b r, k r, c)
      | _ => None
      end
  | BodyClose b k => Some (EBodyClose b, k, c)
  | UnmarshalBrasilAPICEP b k =>
      match a with
      | ABrasilAPICEP r => Some (EUnmarshalBrasilAPICEP b r, k r, c)
      | _ => None
      end
  | UnmarshalViaCEP b k =>
      match a with
      | AViaCEP r => Some (EUnmarshalViaCEP b r, k r, c)
      | _ => None
      end
  | Lock k =>
      match timingMutex c with
      | None => Some (ELock, k, set_mutex (Some tid) c)
      | Some _ => None
      end
  | Unlock k =>
      match timingMutex c with
      | Some _ => Some (EUnlock, k, set_mutex None c)
      | None => Some (EUnlock, k, panic c)
      end
  | MapStore key d k =>
      Some (EMapStore key d, k, set_results (<[key := d]> (timingResults c)) c)
  | MapLen k =>
      Some (EMapLen (size (timingResults c)), k (size (timingResults c)), c)
  | MapRange k =>
      match a with
      | AOrder entries =>
          if bool_decide (entries ≡ₚ map_to_list (timingResults c))
          then Some (EMapRange entries, k entries, c) else None
      | _ => None
      end
  | ChanSend r k =>
      if bool_decide (length (resultChan c) < chan_cap c)%nat
      then Some (ESend r, k, set_chan (chan_cap c) (resultChan c ++ [r]) c)
      else None
  end.

(** The process is over once [main] has returned. *)
Definition exited (c : Config) : bool :=
  match threads c !! 0%nat with
  | Some (_, Return) => true
  | _ => false
  end.

Definition step (code : Goroutine -> Prog) (l : Label) (c : Config) : option Config :=
  if exited c || panicked c then None else
  match l with
  | Tick dt =>
      if bool_decide (0 < dt) then Some (set_clock (clock c + dt) c) else None
  | Run tid a =>
      match threads c !! tid with
      | Some (g, p) =>
          match perform code tid a p c with
          | Some (e, p', c') =>
              Some (log tid e (set_threads (<[tid := (g, p')]> (threads c')) c'))
          | None => None
          end
      | None => None
      end
  end.

Fixpoint run (code : Goroutine -> Prog) (ls : list Label) (c : Config) : option Config :=
  match ls with
  | [] => Some c
  | l :: ls =>
      match step code l c with
      | Some c' => run code ls c'
      | None => None
      end
  end.

(** The process at its start: [main] alone, every shared object at its zero
    value (no context, a nil channel, wait group at 0, mutex unlocked, empty
    map). *)
Definition init (code : Goroutine -> Prog) (args : list string) : Config :=
  mkConfig [(GMain args, code (GMain args))] 0 None false 0 [] 0 None ∅ [] false [].

(** The events of goroutine [tid] in a trace, in order. *)
Definition local (tid : nat) (tr : list (nat * Event)) : list Event :=
  omap (fun x => if decide (fst x = tid) then Some (snd x) else None) tr.

(** *** Replaying one goroutine *)

(** The continuation of [p] after event [e], when [e] is an event of
    [p]'s first operation. *)
Definition next (p : Prog) (e : Event) : option Prog :=
  match p, e with
  | Println s k, EPrintln s' => if decide (s = s') then Some k else None
  | Printf f a k, EPrintf f' a' =>
      if decide (f = f' ∧ a = a') then Some k else None
  | WithTimeout d k, EWithTimeout d' _ => if decide (d = d') then Some k else None
  | Cancel k, ECancel => Some k
  | MakeChan n k, EMakeChan n' => if decide (n = n') then Some k else None
  | WgAdd n k, EWgAdd n' => if decide (n = n') then Some k else None
  | WgDone k, EWgDone => Some k
  | WgWait k, EWgWait => Some k
  | Go g k, EGo g' => if decide (g = g') then Some k else None
  | SelectResultOrDone k, ESelectResultOrDone o => Some (k o)
  | After d k, EAfter d' t => if decide (d = d') then Some (k t) else None
  | SelectResultOrTimer t k, ESelectResultOrTimer t' _ =>
      if decide (t = t') then Some k else None
  | WaitTimer t k, EWaitTimer t' => if decide (t = t') then Some k else None
  | Now k, ENow t => Some (k t)
  | Since t k, ESince t' d => if decide (t = t') then Some (k d) else None
  | NewRequestWithContext m u k, ENewRequestWithContext m' u' r =>
      if decide (m = m' ∧ u = u') then Some (k r) else None
  | ClientDo req k, EClientDo req' r =>
      if decide (req = req') then Some (k r) else None
  | ReadAll b k, EReadAll b' r => if decide (b = b') then Some (k r) else None
  | BodyClose b k, EBodyClose b' => if decide (b = b') then Some k else None
  | UnmarshalBrasilAPICEP b k, EUnmarshalBrasilAPICEP b' r =>
      if decide (b = b') then Some (k r) else None
  | UnmarshalViaCEP b k, EUnmarshalViaCEP b' r =>
      if decide (b = b') then Some (k r) else None
  | Lock k, ELock => Some k
  | Unlock k, EUnlock => Some k
  | MapStore key d k, EMapStore key' d' =>
      if decide (key = key' ∧ d = d') then Some k else None
  | MapLen k, EMapLen n => Some (k n)
  | MapRange k, EMapRange l => Some (k l)
  | ChanSend r k, ESend r' => if decide (r = r') then Some k else None
  | _, _ => None
  end.

Fixpoint replay (p : Prog) (evs : list Event) : option Prog :=
  match evs with
  | [] => Some p
  | e :: evs =>
      match next p e with
      | Some p' => replay p' evs
      | None => None
      end
  end.

(** *** Both variants under one name *)

Inductive Variant : Type := TimedVariant | PlainVariant.

Definition code (v : Variant) : Goroutine -> Prog :=
  match v with
  | TimedVariant => Timed.code
  | PlainVariant => Plain.code
  end.

Definition reachable (v : Variant) (args : list string) (c : Config) : Prop :=
  ∃ ls, run (code v) ls (init (code v) args) = Some c.

(** ** Observations on traces *)

Definition sends (evs : list Event) : list Response :=
  omap (fun e => match e with ESend r => Some r | _ => None end) evs.

Definition all_sends (tr : list (nat * Event)) : list Response :=
  sends (map snd tr).

Definition stores (evs : list Event) : list (string * time_Duration) :=
  omap (fun e => match e with EMapStore k d => Some (k, d) | _ => None end) evs.

Definition outputs (evs : list Event) : list Output :=
  omap (fun e => match e with
                 | EPrintln s => Some (OutPrintln s)
                 | EPrintf f a => Some (OutPrintf f a)
                 | _ => None
                 end) evs.

Definition gos (evs : list Event) : list Goroutine :=
  omap (fun e => match e with EGo g => Some g | _ => None end) evs.

(** The values the goroutine took from the channel. *)
Definition receives (evs : list Event) : list Response :=
  omap (fun e => match e with
                 | ESelectResultOrDone (Some r) => Some r
                 | ESelectResultOrTimer _ (Some r) => Some r
                 | _ => None
                 end) evs.

(** Whether the goroutine holds the mutex after these events of its own. *)
Definition holds (evs : list Event) : bool :=
  fold_left (fun h e => match e with ELock => true | EUnlock => false | _ => h end)
            evs false.

(** The events before the goroutine's first send. *)
Fixpoint before_send (evs : list Event) : list Event :=
  match evs with
  | [] => []
  | ESend _ :: _ => []
  | e :: evs => e :: before_send evs
  end.

Definition is_network (p : Prog) : bool :=
  match p with
  | NewRequestWithContext _ _ _ | ClientDo _ _ | ReadAll _ _ => true
  | _ => false
  end.

Definition is_map_access (p : Prog) : bool :=
  match p with
  | MapStore _ _ _ | MapLen _ | MapRange _ => true
  | _ => false
  end.

Definition is_send (p : Prog) : bool :=
  match p with
  | ChanSend _ _ => true
  | _ => false
  end.

Definition is_return (p : Prog) : bool :=
  match p with
  | Return => true
  | _ => false
  end.

(** ** Generic invariants of a run *)

Record generic_inv (cd : Goroutine → Prog) (args : list string) (c : Config) : Prop := {
  (** every goroutine is where the replay of its own events puts it *)
  gi_replay : ∀ tid g p,
    threads c !! tid = Some (g, p) → replay (cd g) (local tid (trace c)) = Some p;
  (** the pool is [main] followed by the goroutines started, in order *)
  gi_pool : (fst <$> threads c) = GMain args :: gos (snd <$> trace c);
  (** only goroutines of the pool have events *)
  gi_bound : ∀ tid, (length (threads c) ≤ tid)%nat → local tid (trace c) = [];
  (** standard output is what was printed, in order *)
  gi_stdout : stdout c = outputs (snd <$> trace c)
}.

Definition makechans (evs : list Event) : list nat :=
  omap (fun e => match e with EMakeChan n => Some n | _ => None end) evs.

(** The outcomes of the goroutine's [select] between the channel and
    [ctx.Done()]. *)
Definition selected (evs : list Event) : list (option Response) :=
  omap (fun e => match e with ESelectResultOrDone o => Some o | _ => None end) evs.

Definition wg_adds (evs : list Event) : list Z :=
  omap (fun e => match e with EWgAdd n => Some n | _ => None end) evs.

Definition wg_dones (evs : list Event) : list unit :=
  omap (fun e => match e with EWgDone => Some () | _ => None end) evs.

(** The contexts the goroutine created: timeout and resulting deadline. *)
Definition deadlines (evs : list Event) : list (time_Duration * time_Time) :=
  omap (fun e => match e with EWithTimeout d t => Some (d, t) | _ => None end) evs.

Definition cancels (evs : list Event) : list unit :=
  omap (fun e => match e with ECancel => Some () | _ => None end) evs.

(** The requests the goroutine handed to [client.Do]. *)
Definition requests (evs : list Event) : list Request :=
  omap (fun e => match e with EClientDo req _ => Some req | _ => None end) evs.

Definition is_lock (p : Prog) : bool :=
  match p with
  | Lock _ => true
  | _ => false
  end.

Definition is_unlock (p : Prog) : bool :=
  match p with
  | Unlock _ => true
  | _ => false
  end.

Definition is_wg_done (p : Prog) : bool :=
  match p with
  | WgDone _ => true
  | _ => false
  end.

Definition is_print (p : Prog) : bool :=
  match p with
  | Println _ _ | Printf _ _ _ => true
  | _ => false
  end.

Definition is_make_chan (p : Prog) : bool :=
  match p with
  | MakeChan _ _ => true
  | _ => false
  end.

Definition is_select (p : Prog) : bool :=
  match p with
  | SelectResultOrDone _ => true
  | _ => false
  end.

(** The [apiName] of a Lookup Task. *)
Definition backend_name (g : Goroutine) : string :=
  match g with
  | GFetchBrasilAPI _ => "BrasilAPI"
  | GFetchViaCEP _ => "ViaCEP"
  | _ => ""
  end.

Definition is_fetch (g : Goroutine) : bool :=
  match g with
  | GFetchBrasilAPI _ | GFetchViaCEP _ => true
  | _ => false
  end.

Definition is_main (g : Goroutine) : bool :=
  match g with
  | GMain _ => true
  | _ => false
  end.

(** The postal code of an invocation, when there is one: [os.Args[1]]. *)
Definition cep_of (args : list string) : option string :=
  match args with
  | _ :: cep :: _ => Some cep
  | _ => None
  end.

(** ** Properties of whole programs *)

(** [all_events P p]: whatever the answers, every operation [p] performs
    is an event satisfying [P]. *)
Fixpoint all_events (P : Event → Prop) (p : Prog) : Prop :=
  match p with
  | Return => True
  | Println s k => P (EPrintln s) ∧ all_events P k
  | Printf f a k => P (EPrintf f a) ∧ all_events P k
  | WithTimeout d k => (∀ t, P (EWithTimeout d t)) ∧ all_events P k
  | Cancel k => P ECancel ∧ all_events P k
  | MakeChan n k => P (EMakeChan n) ∧ all_events P k
  | WgAdd n k => P (EWgAdd n) ∧ all_events P k
  | WgDone k => P EWgDone ∧ all_events P k
  | WgWait k => P EWgWait ∧ all_events P k
  | Go g k => P (EGo g) ∧ all_events P k
  | SelectResultOrDone k => ∀ o, P (ESelectResultOrDone o) ∧ all_events P (k o)
  | After d k => ∀ t, P (EAfter d t) ∧ all_events P (k t)
  | SelectResultOrTimer t k => (∀ o, P (ESelectResultOrTimer t o)) ∧ all_events P k
  | WaitTimer t k => P (EWaitTimer t) ∧ all_events P k
  | Now k => ∀ t, P (ENow t) ∧ all_events P (k t)
  | Since t k => ∀ d, P (ESince t d) ∧ all_events P (k d)
  | NewRequestWithContext m u k =>
      ∀ r, P (ENewRequestWithContext m u r) ∧ all_events P (k r)
  | ClientDo req k => ∀ r, P (EClientDo req r) ∧ all_events P (k r)
  | ReadAll b k => ∀ r, P (EReadAll b r) ∧ all_events P (k r)
  | BodyClose b k => P (EBodyClose b) ∧ all_events P k
  | UnmarshalBrasilAPICEP b k =>
      ∀ r, P (EUnmarshalBrasilAPICEP b r) ∧ all_events P (k r)
  | UnmarshalViaCEP b k => ∀ r, P (EUnmarshalViaCEP b r) ∧ all_events P (k r)
  | Lock k => P ELock ∧ all_events P k
  | Unlock k => P EUnlock ∧ all_events P k
  | MapStore key d k => P (EMapStore key d) ∧ all_events P k
  | MapLen k => ∀ n, P (EMapLen n) ∧ all_events P (k n)
  | MapRange k => ∀ l, P (EMapRange l) ∧ all_events P (k l)
  | ChanSend r k => P (ESend r) ∧ all_events P k
  end.

(** [locked h p]: started with the mutex held ([h = true]) or not, [p]
    locks only when it does not hold the mutex, unlocks and touches the
    timing map only when it does, never starts network I/O while holding
    it, and returns without it. *)
Fixpoint locked (h : bool) (p : Prog) : Prop :=
  match p with
  | Return => h = false
  | Lock k => h = false ∧ locked true k
  | Unlock k => h = true ∧ locked false k
  | MapStore _ _ k => h = true ∧ locked h k
  | MapLen k => h = true ∧ ∀ n, locked h (k n)
  | MapRange k => h = true ∧ ∀ l, locked h (k l)
  | NewRequestWithContext _ _ k => h = false ∧ ∀ r, locked h (k r)
  | ClientDo _ k => h = false ∧ ∀ r, locked h (k r)
  | ReadAll _ k => h = false ∧ ∀ r, locked h (k r)
  | Println _ k | Printf _ _ k | WithTimeout _ k | Cancel k | MakeChan _ k
  | WgAdd _ k | WgDone k | WgWait k | Go _ k | SelectResultOrTimer _ k
  | WaitTimer _ k | BodyClose _ k | ChanSend _ k => locked h k
  | SelectResultOrDone k => ∀ o, locked h (k o)
  | After _ k | Now k | Since _ k => ∀ t, locked h (k t)
  | UnmarshalBrasilAPICEP _ k => ∀ r, locked h (k r)
  | UnmarshalViaCEP _ k => ∀ r, locked h (k r)
  end.

(** The events of a goroutine other than [main]: it starts nothing, makes no
    channel, receives nothing and leaves the context and the wait-group
    count alone. *)
Definition worker_event (e : Event) : Prop :=
  match e with
  | EGo _ | EMakeChan _ | ESelectResultOrDone _ | ESelectResultOrTimer _ _
  | EWgAdd _ | EWithTimeout _ _ | ECancel => False
  | _ => True
  end.

(** The events of the comparison goroutine: a worker that moreover neither
    sends nor stores nor signals the wait group. *)
Definition report_event (e : Event) : Prop :=
  worker_event e ∧
  match e with
  | ESend _ | EMapStore _ _ | EWgDone => False
  | _ => True
  end.

(** The events of a Lookup Task: a worker that prints nothing. *)
Definition fetch_event (e : Event) : Prop :=
  worker_event e ∧
  match e with
  | EPrintln _ | EPrintf _ _ => False
  | _ => True
  end.

(** Whether the goroutine is at an operation that may have to wait. *)
Definition is_blocking (p : Prog) : bool :=
  match p with
  | WgWait _ | SelectResultOrDone _ | SelectResultOrTimer _ _ | WaitTimer _ _
  | NewRequestWithContext _ _ _ | ClientDo _ _ | ReadAll _ _ | Lock _
  | ChanSend _ _ => true
  | _ => false
  end.

(** The events after the goroutine's [select] between the channel and
    [ctx.Done()]. *)
Fixpoint since_select (evs : list Event) : list Event :=
  match evs with
  | [] => []
  | ESelectResultOrDone _ :: evs => evs
  | _ :: evs => since_select evs
  end.

(** ** What the Coordinator is to report *)

(** The address line for a decoded payload: postal code, state, city,
    neighborhood, street, in this order. *)
Definition address_line (data : Payload) : Output :=
  match data with
  | PBrasilAPICEP d =>
      OutPrintf address_format
        [VString (BrasilAPICEP.Cep d); VString (BrasilAPICEP.State d);
         VString (BrasilAPICEP.City d); VString (BrasilAPICEP.Neighborhood d);
         VString (BrasilAPICEP.Street d)]
  | PViaCEP d =>
      OutPrintf address_format
        [VString (ViaCEP.Cep d); VString (ViaCEP.Uf d);
         VString (ViaCEP.Localidade d); VString (ViaCEP.Bairro d);
         VString (ViaCEP.Logradouro d)]
  end.

(** The line naming the winning backend. *)
Definition winner_line (v : Variant) (r : Response) : Output :=
  match v with
  | TimedVariant =>
      OutPrintf Timed.fastest_response_format
        [VString (APIName r); VFloat64 (Seconds (Duration r))]
  | PlainVariant =>
      OutPrintf Plain.fastest_response_format [VString (APIName r)]
  end.

(** The lines reporting the outcome of the race: a received response
    ([Some r]) or the deadline ([None]). *)
Definition outcome_report (v : Variant) (outcome : option Response) : list Output :=
  match outcome with
  | Some r =>
      match Error r with
      | Some err => [OutPrintf api_error_format [VString (APIName r); VError err]]
      | None =>
          winner_line v r ::
          match Data r with
          | Some data => [address_line data]
          | None => []
          end
      end
  | None => [OutPrintln timeout_message]
  end.

(** The outcome is a failure: the deadline, or a response with an error. *)
Definition failed (outcome : option Response) : bool :=
  match outcome with
  | Some r => match Error r with Some _ => true | None => false end
  | None => true
  end.

(** The event of printing a line. *)
Definition print_event (o : Output) : Event :=
  match o with
  | OutPrintln s => EPrintln s
  | OutPrintf f a => EPrintf f a
  end.

(** ** Invariants of the race *)

(** How the shared objects relate to what the goroutines did so far. Main
    is goroutine 0, the Lookup Tasks are 1 (BrasilAPI) and 2 (ViaCEP), the
    comparison goroutine is 3. *)
Record race_inv (c : Config) : Prop := {
  (** only [main] starts goroutines *)
  ri_gos : gos (snd <$> trace c) = gos (local 0 (trace c));
  (** the channel has the capacity [main] made it with *)
  ri_cap : chan_cap c = default 0%nat (last (makechans (local 0 (trace c))));
  (** the channel is first in, first out, and [main] its only receiver *)
  ri_chan : all_sends (trace c) = receives (local 0 (trace c)) ++ resultChan c;
  (** only the Lookup Tasks send *)
  ri_sends :
    all_sends (trace c) ≡ₚ sends (local 1 (trace c)) ++ sends (local 2 (trace c));
  (** the mutex is held by the goroutine that locked it last *)
  ri_mutex : ∀ tid,
    holds (local tid (trace c)) = bool_decide (timingMutex c = Some tid);
  (** the timing map holds what the Lookup Tasks stored *)
  ri_results :
    timingResults c =
    list_to_map (stores (local 1 (trace c)) ++ stores (local 2 (trace c)));
  (** the wait-group counter *)
  ri_wg :
    wg c = foldr Z.add 0 (wg_adds (local 0 (trace c)))
           - Z.of_nat (length (wg_dones (local 1 (trace c))))
           - Z.of_nat (length (wg_dones (local 2 (trace c))));
  (** no run-time panic *)
  ri_panicked : panicked c = false;
  (** the context is the one [main] made, cancelled once [main] cancelled *)
  ri_deadline : ctx_deadline c = snd <$> last (deadlines (local 0 (trace c)));
  ri_cancelled : ctx_cancelled c = bool_decide (cancels (local 0 (trace c)) ≠ [])
}.

(** The Lookup Tasks among the goroutines of a pool. *)
Definition lookup_tasks (gs : list Goroutine) : list Goroutine :=
  omap (fun g => if is_fetch g then Some g else None) gs.

(** ** Running one Lookup Task to its end *)

(** The outside world as one Lookup Task meets it: the result of each of
    its external calls. *)
Record World : Type := mkWorld {
  new_request : error + Request;
  client_do : error + HttpResponse;
  read_all : error + string;
  unmarshal_brasilapi : error + BrasilAPICEP.t;
  unmarshal_viacep : error + ViaCEP.t
}.

Definition answer_for (w : World) (p : Prog) : Answer :=
  match p with
  | NewRequestWithContext _ _ _ => ANewRequest (new_request w)
  | ClientDo _ _ => AClientDo (client_do w)
  | ReadAll _ _ => AReadAll (read_all w)
  | UnmarshalBrasilAPICEP _ _ => ABrasilAPICEP (unmarshal_brasilapi w)
  | UnmarshalViaCEP _ _ => AViaCEP (unmarshal_viacep w)
  | _ => ANone
  end.

(** Let goroutine [tid] alone take steps, in world [w], until it returns;
    [None] when it cannot go on or has not returned after [fuel] steps. *)
Fixpoint drive (cd : Goroutine → Prog) (w : World) (tid : nat) (fuel : nat)
    (c : Config) : option Config :=
  match threads c !! tid with
  | Some (_, Return) => Some c
  | Some (_, p) =>
      match fuel with
      | O => None
      | S fuel =>
          match step cd (Run tid (answer_for w p)) c with
          | Some c' => drive cd w tid fuel c'
          | None => None
          end
      end
  | None => None
  end.

(** [bounded n p]: whatever the answers, [p] returns after at most [n]
    operations. *)
Fixpoint bounded (n : nat) (p : Prog) {struct p} : Prop :=
  match p with
  | Return => True
  | Println _ k | Printf _ _ k | WithTimeout _ k | Cancel k | MakeChan _ k
  | WgAdd _ k | WgDone k | WgWait k | Go _ k | SelectResultOrTimer _ k
  | WaitTimer _ k | BodyClose _ k | Lock k | Unlock k | MapStore _ _ k
  | ChanSend _ k =>
      match n with O => False | S n => bounded n k end
  | SelectResultOrDone k =>
      match n with O => False | S n => ∀ o, bounded n (k o) end
  | After _ k | Now k | Since _ k =>
      match n with O => False | S n => ∀ t, bounded n (k t) end
  | NewRequestWithContext _ _ k =>
      match n with O => False | S n => ∀ r, bounded n (k r) end
  | ClientDo _ k => match n with O => False | S n => ∀ r, bounded n (k r) end
  | ReadAll _ k => match n with O => False | S n => ∀ r, bounded n (k r) end
  | UnmarshalBrasilAPICEP _ k =>
      match n with O => False | S n => ∀ r, bounded n (k r) end
  | UnmarshalViaCEP _ k =>
      match n with O => False | S n => ∀ r, bounded n (k r) end
  | MapLen k => match n with O => False | S n => ∀ m, bounded n (k m) end
  | MapRange k => match n with O => False | S n => ∀ l, bounded n (k l) end
  end.

(** The operations a Lookup Task is ever at. *)
Definition is_fetch_op (p : Prog) : bool :=
  match p with
  | Return | Now _ | Since _ _ | NewRequestWithContext _ _ _ | ClientDo _ _
  | ReadAll _ _ | BodyClose _ _ | UnmarshalBrasilAPICEP _ _
  | UnmarshalViaCEP _ _ | Lock _ | Unlock _ | MapStore _ _ _ | ChanSend _ _
  | WgDone _ => true
  | _ => false
  end.

(** ** Rendering a format *)

(** [fmt.Sprintf] on the calls this program makes with strings only: a
    format whose only verbs are [%s], with one string argument per verb.
    Each verb is replaced by the next argument. Other calls are outside
    this model and give [None]: for another verb, a missing argument or an
    extra one, [fmt] writes a notice such as [%!s(MISSING)] into its
    result, which is not modelled here. *)
Fixpoint sprintf_strings (format : string) (args : list string) : option string :=
  match format with
  | EmptyString =>
      match args with
      | [] => Some EmptyString
      | _ => None
      end
  | String "%"%char (String "s"%char rest) =>
      match args with
      | s :: args => option_map (String.app s) (sprintf_strings rest args)
      | [] => None
      end
  | String "%"%char _ => None
  | String ch rest => option_map (String ch) (sprintf_strings rest args)
  end.

(** The string arguments of a print statement. *)
Definition string_args (args : list Value) : list string :=
  omap (fun a => match a with VString s => Some s | _ => None end) args.

(** The comparison goroutine [tid] is at [p], with [out] on standard output
    and [m] in the timing map, in a process that is alive. *)
Definition at_report (tid : nat) (p : Prog) (out : list Output)
    (m : gmap string Z) (c : Config) : Prop :=
  tid ≠ 0%nat ∧ exited c = false ∧ panicked c = false ∧
  threads c !! tid = Some (GTimingReport, p) ∧
  stdout c = out ∧ timingResults c = m.

(** ** Sample runs

    Concrete schedules of the program, used to exercise the theorems on
    actual executions. *)

Definition sample_args : list string := ["cep"; "01153000"].

Definition sample_brasilapi : BrasilAPICEP.t :=
  BrasilAPICEP.mk "01153-000" "SP" "Sao Paulo" "Barra Funda"
    "Rua Vitorino Carmilo" "open-cep".

Definition sample_viacep : ViaCEP.t :=
  ViaCEP.mk "01153-000" "Rua Vitorino Carmilo" "" "Barra Funda" "Sao Paulo"
    "SP" "3550308" "1004" "11" "7107".

(** The configuration a schedule leads to from the initial one. *)
Definition after (v : Variant) (args : list string) (ls : list Label) : Config :=
  default (init (code v) args) (run (code v) ls (init (code v) args)).

(** [main] up to its [select]; both tasks build their request. *)
Definition sched_start : list Label :=
  [Run 0 ANone; Run 0 ANone; Run 0 ANone; Run 0 ANone; Run 0 ANone; Run 0 ANone;
   Run 1 ANone; Run 2 ANone;
   Run 1 (ANewRequest (inr (mkRequest "GET" (brasilapi_url "01153000"))));
   Run 2 (ANewRequest (inr (mkRequest "GET" (viacep_url "01153000"))))].

(** BrasilAPI answers after 30ns and is about to send its response. *)
Definition sched_send : list Label :=
  sched_start ++
  [Tick 30;
   Run 1 (AClientDo (inr (mkHttpResponse 200 7)));
   Run 1 (AReadAll (inr "{}"));
   Run 1 (ABrasilAPICEP (inr sample_brasilapi));
   Run 1 ANone; Run 1 ANone; Run 1 ANone; Run 1 ANone].

(** BrasilAPI wins, ViaCEP answers 20ns later, the comparison goroutine has
    taken the mutex. *)
Definition sched_report : list Label :=
  sched_send ++
  [Run 1 ANone;
   Run 0 (APick true); Run 0 ANone; Run 0 ANone; Run 0 ANone;
   Tick 20;
   Run 2 (AClientDo (inr (mkHttpResponse 200 8)));
   Run 2 (AReadAll (inr "{}"));
   Run 2 (AViaCEP (inr sample_viacep));
   Run 2 ANone; Run 2 ANone; Run 2 ANone; Run 2 ANone; Run 2 ANone;
   Run 2 ANone; Run 2 ANone;
   Run 1 ANone; Run 1 ANone;
   Run 3 ANone; Run 3 ANone; Run 3 ANone].

(** The comparison goroutine prints and returns, then [main] takes the
    second response, sleeps and returns. *)
Definition sched_both_ok : list Label :=
  sched_report ++
  [Run 3 ANone;
   Run 3 (AOrder [("ViaCEP", 50); ("BrasilAPI", 30)]);
   Run 3 ANone; Run 3 ANone; Run 3 ANone;
   Run 3 (AOrder [("BrasilAPI", 30); ("ViaCEP", 50)]);
   Run 3 ANone; Run 3 ANone; Run 3 ANone;
   Run 0 ANone; Run 0 (APick true); Run 0 ANone;
   Tick 200000000;
   Run 0 ANone; Run 0 ANone].

(** BrasilAPI fails in transport and sends first; ViaCEP succeeds and
    records its duration before [main] receives. *)
Definition sched_failure : list Label :=
  sched_start ++
  [Tick 30;
   Run 1 (AClientDo (inl "connection refused"));
   Run 1 ANone; Run 1 ANone; Run 1 ANone;
   Tick 20;
   Run 2 (AClientDo (inr (mkHttpResponse 200 8)));
   Run 2 (AReadAll (inr "{}"));
   Run 2 (AViaCEP (inr sample_viacep));
   Run 2 ANone; Run 2 ANone; Run 2 ANone; Run 2 ANone; Run 2 ANone;
   Run 2 ANone; Run 2 ANone;
   Run 0 (APick true); Run 0 ANone; Run 0 ANone].

(** No backend answers within the second. *)
Definition sched_timeout : list Label :=
  sched_start ++
  [Tick 1000000000; Run 0 (APick false); Run 0 ANone; Run 0 ANone].

(** The plain variant: ViaCEP answers 404, BrasilAPI succeeds later. *)
Definition sched_plain : list Label :=
  [Run 0 ANone; Run 0 ANone; Run 0 ANone; Run 0 ANone; Run 0 ANone;
   Run 1 (ANewRequest (inr (mkRequest "GET" (brasilapi_url "01153000"))));
   Run 2 (ANewRequest (inr (mkRequest "GET" (viacep_url "01153000"))));
   Tick 10;
   Run 2 (AClientDo (inr (mkHttpResponse 404 8)));
   Run 2 ANone;
   Run 1 (AClientDo (inr (mkHttpResponse 200 7)));
   Run 1 (AReadAll (inr "{}"));
   Run 1 (ABrasilAPICEP (inr sample_brasilapi));
   Run 1 ANone].

Definition sample_response : Response :=
  mkResponse (Some (PBrasilAPICEP sample_brasilapi)) "BrasilAPI" None 30.


Definition cfg_send : Config := after TimedVariant sample_args sched_send.
Definition cfg_report : Config := after TimedVariant sample_args sched_report.
Definition cfg_both_ok : Config := after TimedVariant sample_args sched_both_ok.
Definition cfg_failure : Config := after TimedVariant sample_args sched_failure.
Definition cfg_timeout : Config := after TimedVariant sample_args sched_timeout.
Definition cfg_plain : Config := after PlainVariant sample_args sched_plain.

(** What goroutine [tid] still has to run. *)
Definition prog_of (c : Config) (tid : nat) : Prog :=
  match threads c !! tid with
  | Some (_, p) => p
  | None => Return
  end.

(** ** More observations of a Lookup Task *)

(** The response bodies the goroutine closed. *)
Definition closes (evs : list Event) : list nat :=
  omap (fun e => match e with EBodyClose b => Some b | _ => None end) evs.

(** The HTTP responses [client.Do] gave the goroutine. *)
Definition responses (evs : list Event) : list HttpResponse :=
  omap (fun e => match e with EClientDo _ (inr resp) => Some resp | _ => None end) evs.

(** The method and URL of the requests the goroutine built. *)
Definition new_requests (evs : list Event) : list (string * string) :=
  omap (fun e => match e with
                 | ENewRequestWithContext m u _ => Some (m, u)
                 | _ => None
                 end) evs.

(** The payloads [json.Unmarshal] decoded for the goroutine. *)
Definition decoded (evs : list Event) : list Payload :=
  omap (fun e => match e with
                 | EUnmarshalBrasilAPICEP _ (inr d) => Some (PBrasilAPICEP d)
                 | EUnmarshalViaCEP _ (inr d) => Some (PViaCEP d)
                 | _ => None
                 end) evs.

(** The [url] a Lookup Task requests. *)
Definition url_of (g : Goroutine) : string :=
  match g with
  | GFetchBrasilAPI cep => brasilapi_url cep
  | GFetchViaCEP cep => viacep_url cep
  | _ => ""
  end.

(** The payload type of a backend. *)
Definition payload_of (g : Goroutine) (data : Payload) : bool :=
  match g, data with
  | GFetchBrasilAPI _, PBrasilAPICEP _ | GFetchViaCEP _, PViaCEP _ => true
  | _, _ => false
  end.

(** What the loop has found after the entries [seen]: nothing yet, or an
    entry of least duration and one of greatest duration among them. *)
Definition extremes_of (seen : list (string * time_Duration))
    (x : Timed.Extremes) : Prop :=
  (seen = [] ∧ Timed.fastest x = "" ∧ Timed.slowest x = "") ∨
  (Timed.fastest x ≠ "" ∧ Timed.slowest x ≠ "" ∧
   (Timed.fastest x, Timed.fastestTime x) ∈ seen ∧
   (Timed.slowest x, Timed.slowestTime x) ∈ seen ∧
   Forall (fun e => Timed.fastestTime x ≤ e.2 ≤ Timed.slowestTime x) seen).

(** The entry a returned Lookup Task has left in the timing map: its name
    and duration when it sent a success, nothing when it sent a failure. *)
Definition timing_entry (r : Response) : list (string * time_Duration) :=
  match Error r with
  | None => [(APIName r, Duration r)]
  | Some _ => []
  end.

(** The events of the plain variant: no wait group, no mutex, no timing
    map, no clock reading and no timer. *)
Definition plain_event (e : Event) : Prop :=
  match e with
  | ELock | EUnlock | EMapStore _ _ | EMapLen _ | EMapRange _
  | EWgAdd _ | EWgDone | EWgWait | ENow _ | ESince _ _ | EAfter _ _
  | ESelectResultOrTimer _ _ | EWaitTimer _ => False
  | _ => True
  end.

(** ** [main] left alone *)

(** The operations [main] is ever at. *)
Definition is_main_op (p : Prog) : bool :=
  match p with
  | Return | Println _ _ | Printf _ _ _ | WithTimeout _ _ | Cancel _
  | MakeChan _ _ | WgAdd _ _ | Go _ _ | SelectResultOrDone _ | After _ _
  | SelectResultOrTimer _ _ | WaitTimer _ _ => true
  | _ => false
  end.

(** The next move of [main] when no other goroutine makes progress: its
    next operation, after the clock has advanced to the point where the
    operation is ready when it waits for the deadline or a timer. *)
Definition main_labels (c : Config) (p : Prog) : list Label :=
  match p with
  | SelectResultOrDone _ =>
      if ctx_done c then [Run 0 (APick false)]
      else [Tick (default 0 (ctx_deadline c) - clock c); Run 0 (APick false)]
  | SelectResultOrTimer t _ =>
      if bool_decide (t ≤ clock c) then [Run 0 (APick false)]
      else [Tick (t - clock c); Run 0 (APick false)]
  | WaitTimer t _ =>
      if bool_decide (t ≤ clock c) then [Run 0 ANone]
      else [Tick (t - clock c); Run 0 ANone]
  | _ => [Run 0 ANone]
  end.

(** Let [main] alone move until it returns; [None] when it cannot go on or
    has not returned after [fuel] operations. *)
Fixpoint run_main_alone (cd : Goroutine → Prog) (fuel : nat) (c : Config)
    : option Config :=
  match threads c !! 0%nat with
  | Some (_, Return) => Some c
  | Some (_, p) =>
      match fuel with
      | O => None
      | S fuel =>
          match run cd (main_labels c p) c with
          | Some c' => run_main_alone cd fuel c'
          | None => None
          end
      end
  | None => None
  end.

(** ** The last sleep of [main] *)

(** [main] is in its last stretch, entered no earlier than [t0]: at its
    second [select], in the sleep of [d] that follows, or past it, when
    [d] has elapsed since [t0]. *)
Definition asleep (d : time_Duration) (t0 : time_Time) (c : Config) : Prop :=
  ∃ g p, threads c !! 0%nat = Some (g, p) ∧
    ((∃ t, p = SelectResultOrTimer t (Sleep d (Cancel Return)) ∧ t0 ≤ clock c) ∨
     (p = Sleep d (Cancel Return) ∧ t0 ≤ clock c) ∨
     (∃ t, p = WaitTimer t (Cancel Return) ∧ t0 + d ≤ t) ∨
     ((p = Cancel Return ∨ p = Return) ∧ t0 + d ≤ clock c)).

(** [main] is at its second [select]; the comparison goroutine is about to
    print. *)
Definition sched_second_select : list Label := sched_report ++ [Run 0 ANone].

Definition cfg_second_select : Config :=
  after TimedVariant sample_args sched_second_select.

(** From there to the end: the comparison is printed, [main] takes the
    second response, sleeps and returns. *)
Definition sched_tail : list Label :=
  [Run 3 ANone;
   Run 3 (AOrder [("ViaCEP", 50); ("BrasilAPI", 30)]);
   Run 3 ANone; Run 3 ANone; Run 3 ANone;
   Run 3 (AOrder [("BrasilAPI", 30); ("ViaCEP", 50)]);
   Run 3 ANone; Run 3 ANone; Run 3 ANone;
   Run 0 (APick true); Run 0 ANone;
   Tick 200000000;
   Run 0 ANone; Run 0 ANone].

(** ** The comparison goroutine from start to end *)

(** What the comparison goroutine prints when its first [range] visits the
    timing map in the order [first] and its second in the order [second]. *)
Definition report_lines (first second : list (string * time_Duration))
    : list Output :=
  OutPrintln Timed.report_header ::
  if bool_decide (1 < length first)%nat then
    let x := Timed.compare_all first in
    [OutPrintf Timed.fastest_format
       [VString (Timed.fastest x); VFloat64 (Seconds (Timed.fastestTime x))];
     OutPrintf Timed.slowest_format
       [VString (Timed.slowest x); VFloat64 (Seconds (Timed.slowestTime x))];
     OutPrintf Timed.difference_format
       [VFloat64 (F64Sub (Seconds (Timed.slowestTime x))
                         (Seconds (Timed.fastestTime x)))]] ++
    ((fun e => OutPrintf Timed.entry_format
                 [VString e.1; VFloat64 (Seconds e.2)]) <$> second)
  else [OutPrintln Timed.unavailable_message].

(** The steps of the comparison goroutine [tid], with these two orders. *)
Definition report_schedule (tid : nat) (first second : list (string * time_Duration))
    : list Label :=
  [Run tid ANone; Run tid ANone; Run tid ANone; Run tid ANone] ++
  (if bool_decide (1 < length first)%nat then
     [Run tid (AOrder first); Run tid ANone; Run tid ANone; Run tid ANone;
      Run tid (AOrder second)] ++ replicate (length second) (Run tid ANone)
   else [Run tid ANone]) ++
  [Run tid ANone].

(** Both Lookup Tasks have returned and [main] has just started the
    comparison goroutine. *)
Definition sched_spawned : list Label := take 36 sched_report.

Definition cfg_spawned : Config := after TimedVariant sample_args sched_spawned.

(** ** float64 *)

(** The [float64] values of the program, as IEEE 754 binary64 numbers. *)
Module Float64.
Import PrimInt63 PrimFloat.

Fixpoint int_of_pos (p : positive) : int :=
  match p with
  | xH => 1%uint63
  | xO p => PrimInt63.mul 2%uint63 (int_of_pos p)
  | xI p => PrimInt63.add (PrimInt63.mul 2%uint63 (int_of_pos p)) 1%uint63
  end.

(** [float64(n)] for an [int64] whose absolute value is below 2^63. *)
Definition of_int64 (n : Z) : float :=
  match n with
  | Z0 => PrimFloat.zero
  | Zpos p => PrimFloat.of_uint63 (int_of_pos p)
  | Zneg p => PrimFloat.opp (PrimFloat.of_uint63 (int_of_pos p))
  end.

End Float64.

(** [Duration.Seconds] of package [time]:
    [sec := d / Second; nsec := d % Second;
     return float64(sec) + float64(nsec)/1e9], with Go's truncating integer
    division. *)
Definition Duration_Seconds (d : time_Duration) : PrimFloat.float :=
  let sec := Z.quot d Second in
  let nsec := Z.rem d Second in
  PrimFloat.add (Float64.of_int64 sec)
    (PrimFloat.div (Float64.of_int64 nsec) (Float64.of_int64 1000000000)).

(** The value of a [float64] expression of the program. *)
Fixpoint F64_value (x : F64) : PrimFloat.float :=
  match x with
  | Seconds d => Duration_Seconds d
  | F64Sub a b => PrimFloat.sub (F64_value a) (F64_value b)
  end.

(** ** A Lookup Task in a given world *)

(** The events are those of world [w]: each external call got the result
    [w] gives it. *)
Definition answered_by (w : World) (evs : list Event) : Prop :=
  Forall (fun e =>
    match e with
    | ENewRequestWithContext _ _ r => r = new_request w
    | EClientDo _ r => r = client_do w
    | EReadAll _ r => r = read_all w
    | EUnmarshalBrasilAPICEP _ r => r = unmarshal_brasilapi w
    | EUnmarshalViaCEP _ r => r = unmarshal_viacep w
    | _ => True
    end) evs.

(** Whether decoding fails in world [w], for the backend of [g]. *)
Definition decode_error (g : Goroutine) (w : World) : option error :=
  match g with
  | GFetchBrasilAPI _ =>
      match unmarshal_brasilapi w with inl err => Some err | inr _ => None end
  | GFetchViaCEP _ =>
      match unmarshal_viacep w with inl err => Some err | inr _ => None end
  | _ => None
  end.

(** The first call that fails in world [w], in the order a Lookup Task
    makes them, with its error. *)
Definition expected_error (g : Goroutine) (w : World) : option error :=
  match new_request w with
  | inl err => Some err
  | inr _ =>
      match client_do w with
      | inl err => Some err
      | inr resp =>
          if bool_decide (StatusCode resp ≠ StatusOK)
          then Some (status_error (StatusCode resp))
          else
            match read_all w with
            | inl err => Some err
            | inr _ => decode_error g w
            end
      end
  end.

(** ** More sample runs *)

(** [main] is kept from running between its two [go] statements:
    BrasilAPI has answered, and sent, when the deadline passes; [main] then
    reaches its [select] with both cases ready, and takes the deadline. *)
Definition sched_late_timeout : list Label :=
  [Run 0 ANone; Run 0 ANone; Run 0 ANone; Run 0 ANone; Run 0 ANone;
   Run 1 ANone;
   Run 1 (ANewRequest (inr (mkRequest "GET" (brasilapi_url "01153000"))));
   Tick 30;
   Run 1 (AClientDo (inr (mkHttpResponse 200 7)));
   Run 1 (AReadAll (inr "{}"));
   Run 1 (ABrasilAPICEP (inr sample_brasilapi));
   Run 1 ANone; Run 1 ANone; Run 1 ANone; Run 1 ANone; Run 1 ANone;
   Tick 1000000000;
   Run 0 ANone;
   Run 0 (APick false); Run 0 ANone; Run 0 ANone].

Definition cfg_late_timeout : Config :=
  after TimedVariant sample_args sched_late_timeout.

(** BrasilAPI has its answer but has not sent it when the deadline passes:
    the deadline fires with nothing on the channel. *)
Definition sched_fired : list Label :=
  [Run 0 ANone; Run 0 ANone; Run 0 ANone; Run 0 ANone; Run 0 ANone;
   Run 1 ANone;
   Run 1 (ANewRequest (inr (mkRequest "GET" (brasilapi_url "01153000"))));
   Tick 30;
   Run 1 (AClientDo (inr (mkHttpResponse 200 7)));
   Run 1 (AReadAll (inr "{}"));
   Run 1 (ABrasilAPICEP (inr sample_brasilapi));
   Run 1 ANone; Run 1 ANone; Run 1 ANone; Run 1 ANone;
   Tick 1000000000].

Definition cfg_fired : Config := after TimedVariant sample_args sched_fired.

(** The value is sent after the deadline; [main] then reaches its [select]
    with both cases ready, takes the value, and goes on to start the
    comparison goroutine and its timer. *)
Definition sched_after_deadline : list Label :=
  [Run 1 ANone;
   Run 0 ANone;
   Run 0 (APick true); Run 0 ANone; Run 0 ANone; Run 0 ANone; Run 0 ANone].

Definition cfg_late_value : Config :=
  after TimedVariant sample_args (sched_fired ++ sched_after_deadline).

(** BrasilAPI takes 100ms and ViaCEP 102.5ms; the comparison goroutine has
    taken the mutex. *)
Definition sched_report_100ms : list Label :=
  sched_start ++
  [Tick 100000000;
   Run 1 (AClientDo (inr (mkHttpResponse 200 7)));
   Run 1 (AReadAll (inr "{}"));
   Run 1 (ABrasilAPICEP (inr sample_brasilapi));
   Run 1 ANone; Run 1 ANone; Run 1 ANone; Run 1 ANone; Run 1 ANone;
   Run 0 (APick true); Run 0 ANone; Run 0 ANone; Run 0 ANone;
   Tick 2500000;
   Run 2 (AClientDo (inr (mkHttpResponse 200 8)));
   Run 2 (AReadAll (inr "{}"));
   Run 2 (AViaCEP (inr sample_viacep));
   Run 2 ANone; Run 2 ANone; Run 2 ANone; Run 2 ANone; Run 2 ANone;
   Run 2 ANone; Run 2 ANone;
   Run 1 ANone; Run 1 ANone;
   Run 3 ANone; Run 3 ANone; Run 3 ANone].

Definition cfg_report_100ms : Config :=
  after TimedVariant sample_args sched_report_100ms.

(** The comparison is printed. *)
Definition sched_compare_100ms : list Label :=
  [Run 3 ANone;
   Run 3 (AOrder [("BrasilAPI", 100000000); ("ViaCEP", 102500000)]);
   Run 3 ANone; Run 3 ANone; Run 3 ANone;
   Run 3 (AOrder [("BrasilAPI", 100000000); ("ViaCEP", 102500000)]);
   Run 3 ANone; Run 3 ANone].

(** The plain variant: ViaCEP has sent its failure, BrasilAPI is at its
    send. *)
Definition sched_plain_send : list Label := take 13 sched_plain.

Definition cfg_plain_send : Config :=
  after PlainVariant sample_args sched_plain_send.

(** The plain variant: BrasilAPI answers 503 and sends the failure. *)
Definition sched_plain_failure : list Label :=
  [Run 0 ANone; Run 0 ANone; Run 0 ANone; Run 0 ANone; Run 0 ANone;
   Run 1 (ANewRequest (inr (mkRequest "GET" (brasilapi_url "01153000"))));
   Tick 10;
   Run 1 (AClientDo (inr (mkHttpResponse 503 7)));
   Run 1 ANone].

Definition cfg_plain_failure : Config :=
  after PlainVariant sample_args sched_plain_failure.

(** The plain variant: nothing answers within the second. *)
Definition sched_plain_timeout : list Label :=
  [Run 0 ANone; Run 0 ANone; Run 0 ANone; Run 0 ANone; Run 0 ANone;
   Tick 1000000000; Run 0 (APick false); Run 0 ANone; Run 0 ANone].

Definition cfg_plain_timeout : Config :=
  after PlainVariant sample_args sched_plain_timeout.

(** ** The semantics, step by step *)

Lemma run_app code ls1 ls2 c :
  run code (ls1 ++ ls2) c =
  match run code ls1 c with Some c' => run code ls2 c' | None => None end.
Proof.
  revert c. induction ls1 as [|l ls1 IH]; intros c; simpl; [done|].
  destruct (step code l c); [apply IH|done].
Qed.

Lemma reachable_init v args : reachable v args (init (code v) args).
Proof. by exists []. Qed.

Lemma reachable_step v args l c c' :
  reachable v args c → step (code v) l c = Some c' → reachable v args c'.
Proof.
  intros [ls Hls] Hstep. exists (ls ++ [l]).
  rewrite run_app, Hls. simpl. by rewrite Hstep.
Qed.

Lemma reachable_run v args ls c c' :
  reachable v args c → run (code v) ls c = Some c' → reachable v args c'.
Proof.
  intros [ls0 Hls] Hrun. exists (ls0 ++ ls). by rewrite run_app, Hls.
Qed.

Lemma reachable_ind' v args (P : Config → Prop) :
  P (init (code v) args) →
  (∀ l c c', reachable v args c → P c → step (code v) l c = Some c' → P c') →
  ∀ c, reachable v args c → P c.
Proof.
  intros Hinit Hstep c [ls Hls]. revert c Hls.
  induction ls as [|l ls IH] using rev_ind; intros c Hls.
  - simpl in Hls. by simplify_eq.
  - rewrite run_app in Hls.
    destruct (run (code v) ls (init (code v) args)) as [c0|] eqn:Hc0; [|done].
    simpl in Hls. destruct (step (code v) l c0) as [c1|] eqn:Hc1; [|done].
    simplify_eq. eapply Hstep; [by exists ls| by apply IH | done].
Qed.

Lemma perform_next cd tid a p c e p' c' :
  perform cd tid a p c = Some (e, p', c') → next p e = Some p'.
Proof.
  destruct p; intros H; simpl in H;
    repeat (case_match; simplify_eq); simplify_eq; simpl;
    rewrite ?decide_True by done; done.
Qed.

(** A step of goroutine [tid], taken apart. *)
Lemma step_Run_inv cd tid a c c' :
  step cd (Run tid a) c = Some c' →
  ∃ g p e p' c1,
    exited c = false ∧ panicked c = false ∧
    threads c !! tid = Some (g, p) ∧
    perform cd tid a p c = Some (e, p', c1) ∧
    c' = log tid e (set_threads (<[tid := (g, p')]> (threads c1)) c1).
Proof.
  unfold step. destruct (exited c) eqn:He; [done|].
  destruct (panicked c) eqn:Hp; [done|]. simpl.
  destruct (threads c !! tid) as [[g p]|] eqn:Ht; [|done].
  destruct (perform cd tid a p c) as [[[e p'] c1]|] eqn:Hperf; [|done].
  intros; simplify_eq. by exists g, p, e, p', c1.
Qed.

Lemma step_Tick_inv cd dt c c' :
  step cd (Tick dt) c = Some c' →
  exited c = false ∧ panicked c = false ∧ 0 < dt ∧ c' = set_clock (clock c + dt) c.
Proof.
  unfold step. destruct (exited c); [done|]. destruct (panicked c); [done|].
  simpl. case_bool_decide; [|done]. by intros; simplify_eq.
Qed.

(** The pool only grows, at its end, and only by [go]. *)
Lemma perform_threads cd tid a p c e p' c' :
  perform cd tid a p c = Some (e, p', c') →
  threads c' = threads c ++ ((fun g => (g, cd g)) <$> gos [e]).
Proof.
  destruct p; simpl; intros H;
    repeat (case_match; simplify_eq); simplify_eq; simpl; by rewrite ?app_nil_r.
Qed.

Lemma perform_trace cd tid a p c e p' c' :
  perform cd tid a p c = Some (e, p', c') → trace c' = trace c.
Proof.
  destruct p; simpl; intros H; repeat (case_match; simplify_eq); by simplify_eq.
Qed.

Lemma local_app tid tr1 tr2 : local tid (tr1 ++ tr2) = local tid tr1 ++ local tid tr2.
Proof. unfold local. apply omap_app. Qed.

Lemma local_snoc_eq tid tr e : local tid (tr ++ [(tid, e)]) = local tid tr ++ [e].
Proof. rewrite local_app. unfold local at 2. simpl. by rewrite decide_True. Qed.

Lemma local_snoc_ne tid tid' tr e :
  tid' ≠ tid → local tid (tr ++ [(tid', e)]) = local tid tr.
Proof.
  intros. rewrite local_app. unfold local at 2. simpl.
  rewrite decide_False by done. by rewrite app_nil_r.
Qed.

Lemma replay_app p evs1 evs2 :
  replay p (evs1 ++ evs2) =
  match replay p evs1 with Some p' => replay p' evs2 | None => None end.
Proof.
  revert p. induction evs1 as [|e evs1 IH]; intros p; simpl; [done|].
  destruct (next p e); [apply IH|done].
Qed.

Lemma replay_snoc p evs e p1 p2 :
  replay p evs = Some p1 → next p1 e = Some p2 → replay p (evs ++ [e]) = Some p2.
Proof. intros H1 H2. rewrite replay_app, H1. simpl. by rewrite H2. Qed.

Lemma perform_stdout cd tid a p c e p' c' :
  perform cd tid a p c = Some (e, p', c') → stdout c' = stdout c ++ outputs [e].
Proof.
  destruct p; simpl; intros H;
    repeat (case_match; simplify_eq); simplify_eq; simpl; by rewrite ?app_nil_r.
Qed.

(** How a step of goroutine [tid] changes the pool and the trace. *)
Lemma step_Run_shape cd tid a c c' :
  step cd (Run tid a) c = Some c' →
  ∃ g p e p' c1,
    exited c = false ∧ panicked c = false ∧
    threads c !! tid = Some (g, p) ∧
    perform cd tid a p c = Some (e, p', c1) ∧
    next p e = Some p' ∧
    threads c' = <[tid := (g, p')]> (threads c ++ ((fun g => (g, cd g)) <$> gos [e])) ∧
    trace c' = trace c ++ [(tid, e)] ∧
    stdout c' = stdout c ++ outputs [e].
Proof.
  intros H. apply step_Run_inv in H as (g & p & e & p' & c1 & ? & ? & ? & Hp & ->).
  exists g, p, e, p', c1. repeat split; try done.
  - by eapply perform_next.
  - simpl. by erewrite perform_threads.
  - simpl. by erewrite perform_trace.
  - simpl. by eapply perform_stdout.
Qed.

Lemma omap_snoc {A B} (f : A → option B) l x :
  omap f (l ++ [x]) = omap f l ++ (match f x with Some y => [y] | None => [] end).
Proof. rewrite omap_app. simpl. by destruct (f x). Qed.

Lemma generic_inv_init cd args : generic_inv cd args (init cd args).
Proof.
  split; simpl; try done.
  intros [|tid] g p H; simpl in H; by simplify_eq.
Qed.

Lemma generic_inv_step cd args l c c' :
  generic_inv cd args c → step cd l c = Some c' → generic_inv cd args c'.
Proof.
  intros [Hrep Hpool Hbound Hout] Hstep. destruct l as [dt|tid a].
  { apply step_Tick_inv in Hstep as (_ & _ & _ & ->). by split. }
  apply step_Run_shape in Hstep
    as (g & p & e & p' & c1 & _ & _ & Ht & _ & Hnext & Hths & Htr & Hso).
  assert (Hlt : (tid < length (threads c))%nat) by by eapply lookup_lt_Some.
  split.
  - intros tid' g' q Hq. rewrite Htr. rewrite Hths in Hq.
    destruct (decide (tid' = tid)) as [->|Hne].
    + rewrite list_lookup_insert_eq in Hq by (rewrite length_app; lia).
      simplify_eq. rewrite local_snoc_eq.
      eapply replay_snoc; [by apply Hrep|done].
    + rewrite list_lookup_insert_ne in Hq by done.
      rewrite local_snoc_ne by done.
      apply lookup_app_Some in Hq as [Hq|[Hge Hq]]; [by apply Hrep|].
      rewrite Hbound by done.
      apply list_lookup_fmap_Some in Hq as (g0 & Hg0 & ?). by simplify_eq.
  - rewrite Hths, Htr, list_fmap_insert. simpl.
    rewrite fmap_app, <- list_fmap_compose.
    rewrite list_insert_id.
    + rewrite Hpool. unfold gos at 2. rewrite fmap_app, omap_app. simpl.
      f_equal. f_equal. unfold gos. by destruct e.
    + rewrite lookup_app_l by (by rewrite length_fmap).
      by rewrite list_lookup_fmap, Ht.
  - intros tid' Hge. rewrite Hths, length_insert, length_app in Hge.
    rewrite Htr, local_snoc_ne by lia. apply Hbound. lia.
  - rewrite Hso, Htr, Hout. unfold outputs. by rewrite fmap_app, omap_app.
Qed.

Lemma reachable_generic v args c :
  reachable v args c → generic_inv (code v) args c.
Proof.
  intros H. induction H as [|l c c' _ IH Hstep] using reachable_ind'.
  - apply generic_inv_init.
  - by eapply generic_inv_step.
Qed.

(** ** Whole-program properties along a replay *)

Lemma all_events_next P p e p' :
  all_events P p → next p e = Some p' → P e ∧ all_events P p'.
Proof.
  destruct p, e; simpl; intros H Hn; try done;
    repeat case_decide; destruct_and?; simplify_eq; try done;
    first [ apply H | destruct H; split; eauto ].
Qed.

Lemma all_events_replay P p evs p' :
  all_events P p → replay p evs = Some p' → Forall P evs ∧ all_events P p'.
Proof.
  revert p. induction evs as [|e evs IH]; intros p Hp Hr; simpl in Hr.
  - by simplify_eq.
  - destruct (next p e) as [p1|] eqn:Hn; [|done].
    destruct (all_events_next _ _ _ _ Hp Hn) as [He Hp1].
    destruct (IH _ Hp1 Hr). split; [by constructor|done].
Qed.

Lemma all_events_impl (P Q : Event → Prop) p :
  (∀ e, P e → Q e) → all_events P p → all_events Q p.
Proof.
  intros HPQ. induction p; simpl; try done; intros Hp;
    first [ intros x; destruct (Hp x); split; by eauto
          | destruct Hp; split; by eauto ].
Qed.

Lemma all_events_seq P p q :
  all_events P p → all_events P q → all_events P (seq p q).
Proof.
  intros Hp Hq. induction p; simpl in *; try done;
    first [ intros x; destruct (Hp x); split; by eauto
          | destruct Hp; split; by eauto ].
Qed.

Lemma seq_print_entries entries k q :
  seq (Timed.print_entries entries k) q = Timed.print_entries entries (seq k q).
Proof. induction entries as [|[api d] l IH]; simpl; [done|]. by rewrite IH. Qed.

Lemma holds_snoc evs e :
  holds (evs ++ [e]) =
  match e with ELock => true | EUnlock => false | _ => holds evs end.
Proof. unfold holds. by rewrite fold_left_app. Qed.

Lemma locked_next h p e p' :
  locked h p → next p e = Some p' →
  locked (match e with ELock => true | EUnlock => false | _ => h end) p'.
Proof.
  destruct p, e; simpl; intros H Hn; try done;
    repeat case_decide; destruct_and?; simplify_eq; try done;
    first [ apply H | by destruct H ].
Qed.

Lemma locked_replay p evs p' :
  locked false p → replay p evs = Some p' → locked (holds evs) p'.
Proof.
  revert p'. induction evs as [|e evs IH] using rev_ind; intros p' Hp Hr.
  - simpl in Hr. by simplify_eq.
  - rewrite replay_app in Hr.
    destruct (replay p evs) as [p1|] eqn:Hp1; [|done]. simpl in Hr.
    destruct (next p1 e) as [p2|] eqn:Hn; [|done]. simplify_eq.
    rewrite holds_snoc. eapply locked_next; [|done]. by apply IH.
Qed.

(** What [locked] says about the operation a goroutine is at. *)
Lemma locked_head h p :
  locked h p →
  (is_lock p = true → h = false) ∧
  (is_unlock p = true → h = true) ∧
  (is_map_access p = true → h = true) ∧
  (is_network p = true → h = false) ∧
  (is_return p = true → h = false).
Proof. destruct p; simpl; intuition congruence. Qed.

Lemma print_entries_all_events P entries k :
  (∀ api d, P (EPrintf Timed.entry_format [VString api; VFloat64 (Seconds d)])) →
  all_events P k → all_events P (Timed.print_entries entries k).
Proof. intros HP Hk. induction entries as [|[api d] l IH]; simpl; auto. Qed.

Lemma print_entries_locked h entries k :
  locked h k → locked h (Timed.print_entries entries k).
Proof. intros Hk. induction entries as [|[api d] l IH]; simpl; auto. Qed.

(** Every goroutine of both programs respects the mutex discipline. *)
Lemma code_locked v g : locked false (code v g).
Proof.
  destruct v, g as [args|cep|cep|]; simpl;
    try (destruct args as [|a0 [|cep rest]]; simpl);
    unfold Timed.fetchBrasilAPI, Timed.fetchViaCEP, Plain.fetchBrasilAPI,
      Plain.fetchViaCEP, Timed.timing_report, Timed.after_select,
      Plain.after_select, print_address, defer; simpl;
    repeat first
      [ done
      | progress intros
      | split
      | rewrite seq_print_entries
      | apply print_entries_locked
      | case_match
      | progress simpl ].
Qed.

(** No goroutine but [main] starts goroutines, makes the channel, receives
    from it or touches the context. *)
Lemma code_worker_events v g :
  is_main g = false → all_events worker_event (code v g).
Proof.
  intros Hg. destruct v, g as [args|cep|cep|]; try done; simpl;
    unfold Timed.fetchBrasilAPI, Timed.fetchViaCEP, Plain.fetchBrasilAPI,
      Plain.fetchViaCEP, Timed.timing_report, defer; simpl;
    repeat first
      [ done
      | progress intros
      | split
      | apply all_events_seq
      | apply print_entries_all_events
      | case_match
      | progress simpl ].
Qed.

Lemma code_fetch_events v g :
  is_fetch g = true → all_events fetch_event (code v g).
Proof.
  intros Hg. destruct v, g as [args|cep|cep|]; try done; simpl;
    unfold Timed.fetchBrasilAPI, Timed.fetchViaCEP, Plain.fetchBrasilAPI,
      Plain.fetchViaCEP, defer; simpl;
    repeat first
      [ done
      | progress intros
      | split
      | case_match
      | progress simpl ].
Qed.

Lemma code_report_events v : all_events report_event (code v GTimingReport).
Proof.
  destruct v; simpl; [|done].
  unfold Timed.timing_report, defer; simpl.
  repeat first
      [ done
      | progress intros
      | split
      | apply all_events_seq
      | apply print_entries_all_events
      | case_match
      | progress simpl ].
Qed.

Lemma worker_events_quiet evs :
  Forall worker_event evs →
  gos evs = [] ∧ makechans evs = [] ∧ receives evs = [] ∧ selected evs = [] ∧
  wg_adds evs = [] ∧ deadlines evs = [] ∧ cancels evs = [].
Proof.
  induction 1 as [|e evs He _ IH]; [done|].
  destruct IH as (?&?&?&?&?&?&?). by destruct e.
Qed.

Lemma report_events_quiet evs :
  Forall report_event evs →
  Forall worker_event evs ∧ sends evs = [] ∧ stores evs = [] ∧ wg_dones evs = [].
Proof.
  induction 1 as [|e evs [He1 He2] _ IH]; [done|].
  destruct IH as (?&?&?&?). split; [by constructor|]. by destruct e.
Qed.

Lemma fetch_events_quiet evs :
  Forall fetch_event evs → Forall worker_event evs ∧ outputs evs = [].
Proof.
  induction 1 as [|e evs [He1 He2] _ IH]; [done|].
  destruct IH as (?&?). split; [by constructor|]. by destruct e.
Qed.

(** ** Exploring the paths of a goroutine *)

Arguments status_error : simpl never.
Arguments brasilapi_url : simpl never.
Arguments viacep_url : simpl never.
Arguments decide : simpl never.
Arguments bool_decide : simpl never.

(** A replay either stops where it is, or starts with an event of the
    first operation and goes on from its continuation. *)
Lemma replay_inv p evs q :
  replay p evs = Some q →
  (evs = [] ∧ q = p) ∨
  match p with
  | Return => False
  | Println s k => ∃ evs', evs = EPrintln s :: evs' ∧ replay k evs' = Some q
  | Printf f a k => ∃ evs', evs = EPrintf f a :: evs' ∧ replay k evs' = Some q
  | WithTimeout d k =>
      ∃ t evs', evs = EWithTimeout d t :: evs' ∧ replay k evs' = Some q
  | Cancel k => ∃ evs', evs = ECancel :: evs' ∧ replay k evs' = Some q
  | MakeChan n k => ∃ evs', evs = EMakeChan n :: evs' ∧ replay k evs' = Some q
  | WgAdd n k => ∃ evs', evs = EWgAdd n :: evs' ∧ replay k evs' = Some q
  | WgDone k => ∃ evs', evs = EWgDone :: evs' ∧ replay k evs' = Some q
  | WgWait k => ∃ evs', evs = EWgWait :: evs' ∧ replay k evs' = Some q
  | Go g k => ∃ evs', evs = EGo g :: evs' ∧ replay k evs' = Some q
  | SelectResultOrDone k =>
      ∃ o evs', evs = ESelectResultOrDone o :: evs' ∧ replay (k o) evs' = Some q
  | After d k => ∃ t evs', evs = EAfter d t :: evs' ∧ replay (k t) evs' = Some q
  | SelectResultOrTimer t k =>
      ∃ o evs', evs = ESelectResultOrTimer t o :: evs' ∧ replay k evs' = Some q
  | WaitTimer t k => ∃ evs', evs = EWaitTimer t :: evs' ∧ replay k evs' = Some q
  | Now k => ∃ t evs', evs = ENow t :: evs' ∧ replay (k t) evs' = Some q
  | Since t k => ∃ d evs', evs = ESince t d :: evs' ∧ replay (k d) evs' = Some q
  | NewRequestWithContext m u k =>
      ∃ r evs', evs = ENewRequestWithContext m u r :: evs' ∧
                replay (k r) evs' = Some q
  | ClientDo req k =>
      ∃ r evs', evs = EClientDo req r :: evs' ∧ replay (k r) evs' = Some q
  | ReadAll b k => ∃ r evs', evs = EReadAll b r :: evs' ∧ replay (k r) evs' = Some q
  | BodyClose b k => ∃ evs', evs = EBodyClose b :: evs' ∧ replay k evs' = Some q
  | UnmarshalBrasilAPICEP b k =>
      ∃ r evs', evs = EUnmarshalBrasilAPICEP b r :: evs' ∧
                replay (k r) evs' = Some q
  | UnmarshalViaCEP b k =>
      ∃ r evs', evs = EUnmarshalViaCEP b r :: evs' ∧ replay (k r) evs' = Some q
  | Lock k => ∃ evs', evs = ELock :: evs' ∧ replay k evs' = Some q
  | Unlock k => ∃ evs', evs = EUnlock :: evs' ∧ replay k evs' = Some q
  | MapStore key d k =>
      ∃ evs', evs = EMapStore key d :: evs' ∧ replay k evs' = Some q
  | MapLen k => ∃ n evs', evs = EMapLen n :: evs' ∧ replay (k n) evs' = Some q
  | MapRange k => ∃ l evs', evs = EMapRange l :: evs' ∧ replay (k l) evs' = Some q
  | ChanSend r k => ∃ evs', evs = ESend r :: evs' ∧ replay k evs' = Some q
  end.
Proof.
  destruct evs as [|e evs]; simpl; intros H; [left; by simplify_eq|right].
  destruct (next p e) as [p1|] eqn:Hn; [|done].
  destruct p, e; simpl in Hn; try done;
    repeat case_decide; destruct_and?; simplify_eq; eauto.
Qed.

(** All the ways [replay p evs = Some q] can hold for a loop-free [p]: one
    goal per program point, with [evs] the events leading to it. *)
Ltac explore :=
  lazymatch goal with
  | H : replay ?p _ = Some _ |- _ =>
      match p with
      | context [match ?x with _ => _ end] =>
          lazymatch x with
          | context [match _ with _ => _ end] => fail
          | _ => destruct x eqn:?; simplify_eq; simpl in H; explore
          end
      | _ =>
          apply replay_inv in H as [[-> ->]|H];
          [ | simpl in H;
              repeat match goal with
                     | H' : ∃ _, _ |- _ => destruct H' as [? H']
                     end;
              match goal with
              | H' : False |- _ => destruct H'
              | H' : _ = _ :: _ ∧ _ |- _ => destruct H' as [-> H']; explore
              end ]
      end
  | _ => idtac
  end.

Ltac explore_fetch H v g :=
  destruct v, g; try done;
  unfold code, Timed.code, Plain.code, Timed.fetchBrasilAPI, Timed.fetchViaCEP,
    Plain.fetchBrasilAPI, Plain.fetchViaCEP, defer in H;
  simpl in H; explore; simpl.

(** A Lookup Task sends at most once, has sent nothing when it is at its
    send, and has sent exactly once when it returns. *)
Lemma fetch_channel v g evs p :
  is_fetch g = true → replay (code v g) evs = Some p →
  (length (sends evs) ≤ 1)%nat ∧
  (is_send p = true → sends evs = []) ∧
  (is_return p = true → length (sends evs) = 1%nat).
Proof.
  intros Hg H. explore_fetch H v g.
  all: split; [lia|split; done].
Qed.

(** In the timing variant a Lookup Task signals the wait group once, as its
    last operation; in the plain variant never. *)
Lemma fetch_wg v g evs p :
  is_fetch g = true → replay (code v g) evs = Some p →
  (length (wg_dones evs) ≤ 1)%nat ∧
  (is_wg_done p = true → wg_dones evs = [] ∧ v = TimedVariant) ∧
  (v = PlainVariant → wg_dones evs = []).
Proof.
  intros Hg H. explore_fetch H v g.
  all: split; [lia|split; done].
Qed.

(** The timing map and a Lookup Task: it stores at most one entry, under its
    own name; the store precedes a successful send and carries the sent
    duration; a task that sent a failure has stored nothing, and stores
    nothing later. The plain variant never stores. *)
Lemma fetch_stores v g evs p :
  is_fetch g = true → replay (code v g) evs = Some p →
  (stores evs = [] ∨ ∃ d, stores evs = [(backend_name g, d)]) ∧
  (∀ key d k, p = MapStore key d k →
     key = backend_name g ∧ stores evs = [] ∧ sends evs = []) ∧
  (v = PlainVariant → stores evs = []) ∧
  Forall (fun r =>
    (Error r = None → v = TimedVariant →
       stores (before_send evs) = [(backend_name g, Duration r)]) ∧
    (Error r ≠ None → stores evs = [])) (sends evs).
Proof.
  intros Hg H. explore_fetch H v g.
  all: repeat split; try done; eauto; try (intros; simplify_eq; done).
  all: repeat constructor; simpl; try done; eauto.
Qed.

Ltac elem_of_cases :=
  repeat match goal with
  | H : _ ∈ [] |- _ => by apply elem_of_nil in H
  | H : _ ∈ _ :: _ |- _ =>
      apply elem_of_cons in H as [H|H]; [try discriminate H; simplify_eq|]
  | H : bool_decide _ = true |- _ => apply bool_decide_eq_true in H
  | H : bool_decide _ = false |- _ => apply bool_decide_eq_false in H
  end.

(** The failure taxonomy of a Lookup Task: whatever failed, the response it
    sends names the backend, carries that failure as its error, and has no
    data; a response without error carries the decoded data. *)
Lemma fetch_failures v g evs p :
  is_fetch g = true → replay (code v g) evs = Some p →
  Forall (fun r =>
    APIName r = backend_name g ∧
    (∀ m u err, ENewRequestWithContext m u (inl err) ∈ evs →
       Error r = Some err ∧ Data r = None) ∧
    (∀ req err, EClientDo req (inl err) ∈ evs →
       Error r = Some err ∧ Data r = None) ∧
    (∀ req resp, EClientDo req (inr resp) ∈ evs → StatusCode resp ≠ StatusOK →
       Error r = Some (status_error (StatusCode resp)) ∧ Data r = None) ∧
    (∀ b err, EReadAll b (inl err) ∈ evs → Error r = Some err ∧ Data r = None) ∧
    (∀ b err, EUnmarshalBrasilAPICEP b (inl err) ∈ evs →
       Error r = Some err ∧ Data r = None) ∧
    (∀ b err, EUnmarshalViaCEP b (inl err) ∈ evs →
       Error r = Some err ∧ Data r = None) ∧
    (Error r = None → is_Some (Data r))) (sends evs).
Proof.
  intros Hg H. explore_fetch H v g.
  all: repeat constructor; simpl; intros; elem_of_cases; try done; eauto.
Qed.

(** No retry: a Lookup Task hands at most one request to the client, and
    once it has sent its response it is never again at a network call. *)
Lemma fetch_requests v g evs p :
  is_fetch g = true → replay (code v g) evs = Some p →
  (length (requests evs) ≤ 1)%nat ∧
  (is_network p = true → sends evs = []) ∧
  requests evs = requests (before_send evs).
Proof.
  intros Hg H. explore_fetch H v g.
  all: repeat split; simpl; try done; lia.
Qed.

Ltac explore_main H v :=
  destruct v;
  unfold code, Timed.code, Plain.code, Timed.main, Plain.main,
    Timed.after_select, Plain.after_select, print_address, Sleep, defer in H;
  simpl in H; explore; simpl.

(** Use the case equations the exploration left in the context. *)
Ltac use_cases :=
  repeat match goal with
  | H : ?x = _ |- context [match ?x with _ => _ end] => rewrite H; simpl
  | H : bool_decide _ = true |- _ => apply bool_decide_eq_true in H
  | H : bool_decide _ = false |- _ => apply bool_decide_eq_false in H
  end.

Ltac solve_prefix :=
  first [ by eexists | left; by eexists | right; by eexists ].

(** [main] never sends, stores, signals the wait group, locks or calls
    the network. *)
Lemma main_quiet v args evs p :
  replay (code v (GMain args)) evs = Some p →
  sends evs = [] ∧ stores evs = [] ∧ wg_dones evs = [] ∧ holds evs = false ∧
  is_send p = false ∧ is_wg_done p = false ∧ is_map_access p = false ∧
  is_lock p = false ∧ is_unlock p = false ∧ is_network p = false.
Proof.
  intros H. explore_main H v.
  all: by repeat split.
Qed.

(** The goroutines [main] starts, in order, and what it has set up before
    the first of them: the channel of capacity 2 and, in the timing variant,
    the wait-group count of 2. *)
Lemma main_spawns v args evs p :
  replay (code v (GMain args)) evs = Some p →
  match cep_of args with
  | None => gos evs = []
  | Some cep =>
      gos evs = [] ∨ gos evs = [GFetchBrasilAPI cep] ∨
      gos evs = [GFetchBrasilAPI cep; GFetchViaCEP cep] ∨
      (v = TimedVariant ∧
       gos evs = [GFetchBrasilAPI cep; GFetchViaCEP cep; GTimingReport])
  end ∧
  (makechans evs = [] ∨ makechans evs = [2%nat]) ∧
  (gos evs ≠ [] → makechans evs = [2%nat]) ∧
  (is_make_chan p = true → gos evs = [] ∧ makechans evs = []) ∧
  (wg_adds evs = [] ∨ (wg_adds evs = [2] ∧ v = TimedVariant)) ∧
  (gos evs ≠ [] → v = TimedVariant → wg_adds evs = [2]).
Proof.
  intros H. explore_main H v.
  all: repeat split; try done; eauto 6.
Qed.

(** The context of [main]: made once, with a timeout of one second, and
    not cancelled before [main] is about to return. *)
Lemma main_context v args evs p :
  replay (code v (GMain args)) evs = Some p →
  (deadlines evs = [] ∨ ∃ t, deadlines evs = [(1 * Second, t)]) ∧
  (∀ d k, p = WithTimeout d k → d = 1 * Second ∧ deadlines evs = []) ∧
  (gos evs ≠ [] → deadlines evs ≠ []) ∧
  (cancels evs ≠ [] → is_return p = true).
Proof.
  intros H. explore_main H v.
  all: repeat split; try done; eauto; try (intros; simplify_eq; done).
Qed.

(** The first [select] of [main]: reached with both Lookup Tasks started
    and only the search line printed; taken at most once; the comparison
    goroutine is started only after a response without error was
    received; the value it received is the first [main] took from the
    channel. *)
Lemma main_select v args evs p :
  replay (code v (GMain args)) evs = Some p →
  (length (selected evs) ≤ 1)%nat ∧
  (is_select p = true →
     selected evs = [] ∧
     ∃ cep, cep_of args = Some cep ∧
       gos evs = [GFetchBrasilAPI cep; GFetchViaCEP cep] ∧
       outputs evs = [OutPrintf searching_format [VString cep]]) ∧
  (selected evs = [] → receives evs = [] ∧ GTimingReport ∉ gos evs) ∧
  (∀ o, selected evs = [o] →
     match o with
     | Some r => head (receives evs) = Some r
     | None => receives evs = []
     end ∧
     (GTimingReport ∈ gos evs → failed o = false) ∧
     ∃ cep, cep_of args = Some cep ∧
       outputs evs `prefix_of`
         OutPrintf searching_format [VString cep] :: outcome_report v o).
Proof.
  intros H. explore_main H v.
  all: repeat split; simpl; try done; try lia.
  all: intros; simplify_eq; simpl; elem_of_cases; use_cases; try done.
  all: try (eexists; split; [done|]; split; [done|done]).
  all: try (eexists; split; [done|solve_prefix]).
  all: intros Hin; elem_of_cases.
Qed.

(** After its [select], [main] reports the outcome at once: the events that
    follow are the prints of the report. On a failure it then only cancels
    the context and returns: it starts no comparison goroutine and never
    waits again. Whatever the outcome, [main] has printed the search line
    and the report, and nothing else, when it returns or starts the
    comparison goroutine. *)
Lemma main_report v args evs p :
  replay (code v (GMain args)) evs = Some p →
  (is_print p = true → GTimingReport ∉ gos evs) ∧
  (selected evs = [] → since_select evs = []) ∧
  ∀ o, selected evs = [o] →
    (since_select evs `prefix_of` (print_event <$> outcome_report v o) ∨
     (print_event <$> outcome_report v o) `prefix_of` since_select evs) ∧
    (failed o = true →
       since_select evs `prefix_of`
         ((print_event <$> outcome_report v o) ++ [ECancel]) ∧
       is_blocking p = false ∧ (GTimingReport ∉ gos evs) ∧
       length (receives evs) = length (receives [ESelectResultOrDone o])) ∧
    (∀ cep, cep_of args = Some cep →
       is_return p = true ∨ GTimingReport ∈ gos evs →
       outputs evs = OutPrintf searching_format [VString cep] :: outcome_report v o).
Proof.
  intros H. explore_main H v.
  all: split; [try done; intros _ Hin; elem_of_cases|].
  all: split; [try done|].
  all: intros o ?; simplify_eq; simpl; use_cases.
  all: repeat split; intros; simplify_eq; simpl; try done.
  all: try solve_prefix.
  all: try (by intros Hin; elem_of_cases).
  all: try (destruct_or?; [done|elem_of_cases]).
Qed.

(** ** What one operation does to the shared objects *)

Lemma perform_chan cd tid a p c e p' c' :
  perform cd tid a p c = Some (e, p', c') →
  chan_cap c' = default (chan_cap c) (last (makechans [e])) ∧
  resultChan c' =
    match e with
    | EMakeChan _ => []
    | ESend r => resultChan c ++ [r]
    | _ => drop (length (receives [e])) (resultChan c)
    end ∧
  receives [e] = take (length (receives [e])) (resultChan c) ∧
  (sends [e] ≠ [] → (length (resultChan c) < chan_cap c)%nat) ∧
  (e = ESelectResultOrDone None → ctx_done c = true).
Proof.
  destruct p; simpl; intros H;
    repeat (case_match; simplify_eq); simplify_eq; simpl;
    repeat split; try done; rewrite ?drop_0; try done.
  all: intros; use_cases; done.
Qed.

Lemma perform_mutex cd tid a p c e p' c' :
  perform cd tid a p c = Some (e, p', c') →
  timingMutex c' =
    match e with
    | ELock => Some tid
    | EUnlock => None
    | _ => timingMutex c
    end ∧
  (e = ELock → timingMutex c = None).
Proof.
  destruct p; simpl; intros H;
    repeat (case_match; simplify_eq); by simplify_eq.
Qed.

Lemma perform_results cd tid a p c e p' c' :
  perform cd tid a p c = Some (e, p', c') →
  timingResults c' =
    match e with
    | EMapStore k d => <[k := d]> (timingResults c)
    | _ => timingResults c
    end ∧
  (∀ n, e = EMapLen n → n = size (timingResults c)) ∧
  (∀ l, e = EMapRange l → l ≡ₚ map_to_list (timingResults c)).
Proof.
  destruct p; simpl; intros H;
    repeat (case_match; simplify_eq); simplify_eq; simpl;
    repeat split; intros; simplify_eq; use_cases; done.
Qed.

Lemma perform_wg cd tid a p c e p' c' :
  perform cd tid a p c = Some (e, p', c') →
  let n := match e with EWgAdd n => wg c + n | EWgDone => wg c - 1 | _ => wg c end in
  let bad :=
    match e with
    | EWgAdd _ | EWgDone => bool_decide (n < 0)
    | EUnlock => bool_decide (timingMutex c = None)
    | _ => false
    end in
  panicked c' = panicked c || bad ∧
  (bad = false → wg c' = n) ∧
  (e = EWgWait → wg c = 0).
Proof.
  destruct p; simpl; intros H;
    repeat (case_match; simplify_eq); simplify_eq; simpl;
    rewrite ?orb_false_r, ?orb_true_r;
    repeat split; intros; simplify_eq;
    try (match goal with H : bool_decide _ = _ |- _ => rewrite H end;
         by rewrite ?orb_true_r, ?orb_false_r);
    use_cases; done.
Qed.

Lemma perform_ctx cd tid a p c e p' c' :
  perform cd tid a p c = Some (e, p', c') →
  clock c' = clock c ∧
  ctx_deadline c' = default (ctx_deadline c) (Some <$> (snd <$> last (deadlines [e]))) ∧
  ctx_cancelled c' = ctx_cancelled c || bool_decide (cancels [e] ≠ []) ∧
  (∀ d t, e = EWithTimeout d t → t = clock c + d) ∧
  (∀ d t, e = EAfter d t → t = clock c + d) ∧
  (∀ t, e = ENow t → t = clock c) ∧
  (∀ t d, e = ESince t d → d = clock c - t).
Proof.
  destruct p; simpl; intros H;
    repeat (case_match; simplify_eq); simplify_eq; simpl;
    rewrite ?orb_false_r, ?orb_true_r;
    repeat split; intros; by simplify_eq.
Qed.

(** ** Who is who in the pool *)

Lemma next_kind p e p' :
  next p e = Some p' →
  match e with
  | ELock => is_lock p = true
  | EUnlock => is_unlock p = true
  | ESend _ => is_send p = true
  | EMapStore _ _ | EMapLen _ | EMapRange _ => is_map_access p = true
  | EWgDone => is_wg_done p = true
  | EMakeChan _ => is_make_chan p = true
  | ESelectResultOrDone _ => is_select p = true
  | EPrintln _ | EPrintf _ _ => is_print p = true
  | ENewRequestWithContext _ _ _ | EClientDo _ _ | EReadAll _ _ =>
      is_network p = true
  | _ => True
  end.
Proof. by destruct p, e. Qed.

Lemma next_store p key d p' :
  next p (EMapStore key d) = Some p' → p = MapStore key d p'.
Proof.
  destruct p; simpl; try done. case_decide; [|done].
  intros; destruct_and?; by simplify_eq.
Qed.

Lemma main_thread cd args c :
  generic_inv cd args c → ∃ p, threads c !! 0%nat = Some (GMain args, p).
Proof.
  intros [_ Hpool _ _]. destruct (threads c) as [|[g p] ts]; [done|].
  simpl in Hpool. simplify_eq. by exists p.
Qed.

Lemma main_replay v args c :
  generic_inv (code v) args c →
  ∃ p, threads c !! 0%nat = Some (GMain args, p) ∧
       replay (code v (GMain args)) (local 0 (trace c)) = Some p.
Proof.
  intros Hg. destruct (main_thread _ _ _ Hg) as [p Hp].
  exists p. split; [done|]. by apply (gi_replay _ _ _ Hg).
Qed.

(** Goroutine 0 is [main], 1 and 2 are the Lookup Tasks for the postal code
    of the invocation, 3 is the comparison goroutine of the timing
    variant; there is no other. *)
Lemma thread_identity v args c tid g p :
  generic_inv (code v) args c → race_inv c →
  threads c !! tid = Some (g, p) →
  match tid with
  | O => g = GMain args
  | S n =>
      ∃ cep, cep_of args = Some cep ∧
        match n with
        | 0 => g = GFetchBrasilAPI cep
        | 1 => g = GFetchViaCEP cep
        | 2 => v = TimedVariant ∧ g = GTimingReport
        | _ => False
        end%nat
  end.
Proof.
  intros Hg Hr Ht.
  destruct (main_replay _ _ _ Hg) as (p0 & Hp0 & Hrep).
  assert (Hfst : (fst <$> threads c) !! tid = Some g)
    by by rewrite list_lookup_fmap, Ht.
  rewrite (gi_pool _ _ _ Hg), (ri_gos _ Hr) in Hfst.
  destruct (main_spawns _ _ _ _ Hrep) as (Hgos & _).
  destruct tid as [|n]; simpl in Hfst; [by simplify_eq|].
  destruct (cep_of args) as [cep|]; [|by rewrite Hgos in Hfst].
  exists cep. split; [done|].
  destruct Hgos as [Hgos|[Hgos|[Hgos|[-> Hgos]]]]; rewrite Hgos in Hfst;
    by destruct n as [|[|[|n]]]; simpl in Hfst; simplify_eq.
Qed.

(** The pool has a Lookup Task only after [main] started one; by then the
    channel has capacity 2 and the context its deadline. *)
Lemma worker_exists v args c tid g p :
  generic_inv (code v) args c → race_inv c →
  threads c !! S tid = Some (g, p) → gos (local 0 (trace c)) ≠ [].
Proof.
  intros Hg Hr Ht Hgos.
  assert (Hlen : length (fst <$> threads c) = 1%nat).
  { by rewrite (gi_pool _ _ _ Hg), (ri_gos _ Hr), Hgos. }
  rewrite length_fmap in Hlen. apply lookup_lt_Some in Ht. lia.
Qed.

Lemma obs_singleton_worker e :
  worker_event e →
  gos [e] = [] ∧ makechans [e] = [] ∧ receives [e] = [] ∧ selected [e] = [] ∧
  wg_adds [e] = [] ∧ deadlines [e] = [] ∧ cancels [e] = [].
Proof. by destruct e. Qed.

(** What the event of a step can be, by the goroutine that takes it. *)
Lemma event_class v args c tid g p e p' :
  generic_inv (code v) args c → race_inv c →
  threads c !! tid = Some (g, p) → next p e = Some p' →
  (tid = 0%nat ∧ g = GMain args ∧
   sends [e] = [] ∧ stores [e] = [] ∧ wg_dones [e] = [] ∧
   e ≠ ELock ∧ e ≠ EUnlock) ∨
  ((tid = 1%nat ∨ tid = 2%nat) ∧ is_fetch g = true ∧
   worker_event e ∧ outputs [e] = []) ∨
  (tid = 3%nat ∧ g = GTimingReport ∧
   worker_event e ∧ sends [e] = [] ∧ stores [e] = [] ∧ wg_dones [e] = []).
Proof.
  intros Hg Hr Ht Hn.
  pose proof (gi_replay _ _ _ Hg _ _ _ Ht) as Hrep.
  pose proof (thread_identity _ _ _ _ _ _ Hg Hr Ht) as Hid.
  pose proof (next_kind _ _ _ Hn) as Hk.
  destruct tid as [|[|[|[|n]]]].
  - left. subst g.
    destruct (main_quiet _ _ _ _ Hrep) as (_&_&_&_&?&?&?&?&?&_).
    repeat split; try done; destruct e; simpl in *; congruence.
  - right; left. destruct Hid as (cep & _ & ->).
    assert (Hall : all_events fetch_event (code v (GFetchBrasilAPI cep)))
      by by apply code_fetch_events.
    destruct (all_events_replay _ _ _ _ Hall Hrep) as [_ Hp].
    destruct (all_events_next _ _ _ _ Hp Hn) as [[He1 He2] _].
    repeat split; eauto. by destruct e.
  - right; left. destruct Hid as (cep & _ & ->).
    assert (Hall : all_events fetch_event (code v (GFetchViaCEP cep)))
      by by apply code_fetch_events.
    destruct (all_events_replay _ _ _ _ Hall Hrep) as [_ Hp].
    destruct (all_events_next _ _ _ _ Hp Hn) as [[He1 He2] _].
    repeat split; eauto. by destruct e.
  - right; right. destruct Hid as (cep & _ & -> & ->).
    destruct (all_events_replay _ _ _ _ (code_report_events _) Hrep) as [_ Hp].
    destruct (all_events_next _ _ _ _ Hp Hn) as [[He1 He2] _].
    repeat split; eauto; by destruct e.
  - by destruct Hid as (cep & _ & ?).
Qed.

(** ** The invariants hold along every run *)

Lemma sends_app l1 l2 : sends (l1 ++ l2) = sends l1 ++ sends l2.
Proof. apply omap_app. Qed.
Lemma stores_app l1 l2 : stores (l1 ++ l2) = stores l1 ++ stores l2.
Proof. apply omap_app. Qed.
Lemma outputs_app l1 l2 : outputs (l1 ++ l2) = outputs l1 ++ outputs l2.
Proof. apply omap_app. Qed.
Lemma gos_app l1 l2 : gos (l1 ++ l2) = gos l1 ++ gos l2.
Proof. apply omap_app. Qed.
Lemma receives_app l1 l2 : receives (l1 ++ l2) = receives l1 ++ receives l2.
Proof. apply omap_app. Qed.
Lemma makechans_app l1 l2 : makechans (l1 ++ l2) = makechans l1 ++ makechans l2.
Proof. apply omap_app. Qed.
Lemma selected_app l1 l2 : selected (l1 ++ l2) = selected l1 ++ selected l2.
Proof. apply omap_app. Qed.
Lemma wg_adds_app l1 l2 : wg_adds (l1 ++ l2) = wg_adds l1 ++ wg_adds l2.
Proof. apply omap_app. Qed.
Lemma wg_dones_app l1 l2 : wg_dones (l1 ++ l2) = wg_dones l1 ++ wg_dones l2.
Proof. apply omap_app. Qed.
Lemma deadlines_app l1 l2 : deadlines (l1 ++ l2) = deadlines l1 ++ deadlines l2.
Proof. apply omap_app. Qed.
Lemma cancels_app l1 l2 : cancels (l1 ++ l2) = cancels l1 ++ cancels l2.
Proof. apply omap_app. Qed.

Lemma all_sends_snoc tr tid e : all_sends (tr ++ [(tid, e)]) = all_sends tr ++ sends [e].
Proof. unfold all_sends. by rewrite fmap_app, sends_app. Qed.

Lemma gos_trace_snoc (tr : list (nat * Event)) tid e :
  gos (snd <$> (tr ++ [(tid, e)])) = gos (snd <$> tr) ++ gos [e].
Proof. by rewrite fmap_app, gos_app. Qed.

Lemma local_snoc tid tid' tr e :
  local tid (tr ++ [(tid', e)]) =
  local tid tr ++ (if decide (tid' = tid) then [e] else []).
Proof.
  case_decide; [subst; apply local_snoc_eq|].
  by rewrite local_snoc_ne, app_nil_r.
Qed.

Lemma race_inv_init cd args : race_inv (init cd args).
Proof. by split. Qed.

Lemma race_inv_tick c dt : race_inv c → race_inv (set_clock (clock c + dt) c).
Proof. by intros []. Qed.

(** Goroutines 1 and 2, when they have done anything, are the Lookup Tasks
    of BrasilAPI and ViaCEP. *)
Lemma fetch_thread v args c k :
  generic_inv (code v) args c → race_inv c → k = 1%nat ∨ k = 2%nat →
  local k (trace c) = [] ∨
  ∃ g p, threads c !! k = Some (g, p) ∧ is_fetch g = true ∧
         backend_name g = (if decide (k = 1%nat) then "BrasilAPI" else "ViaCEP") ∧
         replay (code v g) (local k (trace c)) = Some p.
Proof.
  intros Hg Hr Hk. destruct (threads c !! k) as [[g p]|] eqn:Ht.
  - right. exists g, p.
    pose proof (thread_identity _ _ _ _ _ _ Hg Hr Ht) as Hid.
    pose proof (gi_replay _ _ _ Hg _ _ _ Ht) as Hrep.
    destruct Hk as [-> | ->]; destruct Hid as (cep & _ & ->); by repeat split.
  - left. apply (gi_bound _ _ _ Hg). by apply lookup_ge_None.
Qed.

Lemma fetch_thread_dones v args c k :
  generic_inv (code v) args c → race_inv c → k = 1%nat ∨ k = 2%nat →
  (length (wg_dones (local k (trace c))) ≤ 1)%nat.
Proof.
  intros Hg Hr Hk.
  destruct (fetch_thread _ _ _ _ Hg Hr Hk) as [->|(g & p & _ & Hf & _ & Hrep)];
    [simpl; lia|].
  by destruct (fetch_wg _ _ _ _ Hf Hrep).
Qed.

Lemma fetch_thread_stores v args c k :
  generic_inv (code v) args c → race_inv c → k = 1%nat ∨ k = 2%nat →
  stores (local k (trace c)) = [] ∨
  ∃ d, stores (local k (trace c)) =
       [(if decide (k = 1%nat) then "BrasilAPI" else "ViaCEP", d)].
Proof.
  intros Hg Hr Hk.
  destruct (fetch_thread _ _ _ _ Hg Hr Hk) as [->|(g & p & _ & Hf & Hn & Hrep)];
    [by left|].
  rewrite <- Hn. by destruct (fetch_stores _ _ _ _ Hf Hrep).
Qed.

Section race_inv_step.
Context (v : Variant) (args : list string) (c c1 : Config).
Context (tid : nat) (a : Answer) (g : Goroutine) (p p' : Prog) (e : Event).
Context (Hg : generic_inv (code v) args c) (Hr : race_inv c).
Context (Ht : threads c !! tid = Some (g, p)).
Context (Hperf : perform (code v) tid a p c = Some (e, p', c1)).

Let tr' := trace c ++ [(tid, e)].

Local Lemma step_next : next p e = Some p'.
Proof. by eapply perform_next. Qed.

Local Lemma step_class :
  (tid = 0%nat ∧ g = GMain args ∧
   sends [e] = [] ∧ stores [e] = [] ∧ wg_dones [e] = [] ∧
   e ≠ ELock ∧ e ≠ EUnlock) ∨
  ((tid = 1%nat ∨ tid = 2%nat) ∧ is_fetch g = true ∧
   worker_event e ∧ outputs [e] = []) ∨
  (tid = 3%nat ∧ g = GTimingReport ∧
   worker_event e ∧ sends [e] = [] ∧ stores [e] = [] ∧ wg_dones [e] = []).
Proof. eapply event_class; eauto using step_next. Qed.

Local Lemma step_replay : replay (code v g) (local tid (trace c)) = Some p.
Proof. by apply (gi_replay _ _ _ Hg). Qed.

Local Lemma step_replay' :
  replay (code v g) (local tid (trace c) ++ [e]) = Some p'.
Proof. eapply replay_snoc; [apply step_replay|apply step_next]. Qed.

Local Lemma step_gos : gos (snd <$> tr') = gos (local 0 tr').
Proof.
  unfold tr'. rewrite gos_trace_snoc, local_snoc, gos_app, (ri_gos _ Hr).
  f_equal.
  destruct step_class as [(Htid&_)|[(Htid&_&Hw&_)|(Htid&_&Hw&_)]];
    [by rewrite decide_True by done|..];
    destruct (obs_singleton_worker _ Hw) as (->&_);
    by rewrite decide_False by lia.
Qed.

Local Lemma step_cap :
  chan_cap c1 = default 0%nat (last (makechans (local 0 tr'))).
Proof.
  destruct (perform_chan _ _ _ _ _ _ _ _ Hperf) as (-> & _).
  unfold tr'. rewrite local_snoc, makechans_app, last_app, (ri_cap _ Hr).
  destruct step_class as [(Htid&_)|[(Htid&_&Hw&_)|(Htid&_&Hw&_)]].
  - rewrite decide_True by done. by destruct (last (makechans [e])).
  - destruct (obs_singleton_worker _ Hw) as (_&->&_).
    by rewrite decide_False by lia.
  - destruct (obs_singleton_worker _ Hw) as (_&->&_).
    by rewrite decide_False by lia.
Qed.

(** Before [main] makes the channel nothing was sent. *)
Local Lemma step_fresh_chan :
  tid = 0%nat → is_make_chan p = true →
  receives (local 0 (trace c)) = [] ∧ resultChan c = [].
Proof.
  intros Htid Hmk.
  pose proof (thread_identity _ _ _ _ _ _ Hg Hr Ht) as Hid.
  rewrite Htid in Hid. pose proof step_replay as Hrep. rewrite Hid in Hrep.
  destruct (main_spawns _ _ _ _ Hrep) as (_&_&_&Hfresh&_).
  destruct (Hfresh Hmk) as [Hgos _]. rewrite Htid in Hgos.
  assert (Hlen : length (threads c) = 1%nat).
  { rewrite <- (length_fmap fst), (gi_pool _ _ _ Hg), (ri_gos _ Hr).
    by rewrite Hgos. }
  pose proof (ri_sends _ Hr) as Hs.
  rewrite !(gi_bound _ _ _ Hg) in Hs by lia.
  apply Permutation_nil_r in Hs.
  pose proof (ri_chan _ Hr) as Hc. rewrite Hs in Hc.
  symmetry in Hc. by apply app_eq_nil in Hc.
Qed.

Local Lemma step_chan :
  all_sends tr' = receives (local 0 tr') ++ resultChan c1.
Proof.
  destruct (perform_chan _ _ _ _ _ _ _ _ Hperf) as (_ & -> & Hrecv & _).
  unfold tr'. rewrite all_sends_snoc, local_snoc, receives_app, (ri_chan _ Hr).
  pose proof (next_kind _ _ _ step_next) as Hk.
  destruct step_class as [(Htid&_&Hs&_)|[(Htid&_&Hw&_)|(Htid&_&Hw&Hs&_)]].
  - rewrite decide_True by done. rewrite Hs, app_nil_r.
    destruct (decide (is_make_chan p = true)) as [Hmk|Hmk].
    + destruct (step_fresh_chan Htid Hmk) as [-> ->].
      pose proof step_next as Hn. clear Hk Hrecv.
      by destruct p, e.
    + rewrite <- (assoc_L (++)). f_equal.
      rewrite <- (take_drop (length (receives [e])) (resultChan c)) at 1.
      rewrite <- Hrecv. f_equal. by destruct e.
    
  - destruct (obs_singleton_worker _ Hw) as (_&Hmk&Hrc&_).
    rewrite decide_False by lia. simpl. rewrite app_nil_r.
    rewrite <- (assoc_L (++)). f_equal.
    destruct e; simpl in *; by rewrite ?drop_0, ?app_nil_r.
  - destruct (obs_singleton_worker _ Hw) as (_&Hmk&Hrc&_).
    rewrite decide_False by lia. simpl. rewrite app_nil_r.
    rewrite <- (assoc_L (++)). f_equal.
    destruct e; simpl in *; by rewrite ?drop_0, ?app_nil_r.
Qed.

Local Lemma step_sends :
  all_sends tr' ≡ₚ sends (local 1 tr') ++ sends (local 2 tr').
Proof.
  unfold tr'. rewrite all_sends_snoc, !local_snoc, !sends_app, (ri_sends _ Hr).
  destruct step_class as [(Htid&_&Hs&_)|[([Htid|Htid]&_)|(Htid&_&_&Hs&_)]];
    repeat first [rewrite decide_True by done | rewrite decide_False by lia];
    rewrite ?Hs; change (sends []) with (@nil Response);
    rewrite ?app_nil_r; try done.
  - by rewrite <- !(assoc_L (++)), (comm (++) (sends [e])).
  - by rewrite <- !(assoc_L (++)).
Qed.

Local Lemma step_holds_true : is_unlock p = true → timingMutex c = Some tid.
Proof.
  intros Hu.
  pose proof (locked_replay _ _ _ (code_locked v g) step_replay) as Hl.
  destruct (locked_head _ _ Hl) as (_ & Hh & _).
  pose proof (ri_mutex _ Hr tid) as Hm. rewrite (Hh Hu) in Hm.
  symmetry in Hm. by apply bool_decide_eq_true in Hm.
Qed.

Local Lemma step_mutex tid' :
  holds (local tid' tr') = bool_decide (timingMutex c1 = Some tid').
Proof.
  destruct (perform_mutex _ _ _ _ _ _ _ _ Hperf) as (-> & Hfree).
  unfold tr'. rewrite local_snoc.
  pose proof (ri_mutex _ Hr tid') as Hm.
  pose proof (next_kind _ _ _ step_next) as Hk.
  destruct (decide (tid = tid')) as [<-|Hne].
  - rewrite holds_snoc. destruct e; try done.
    by rewrite bool_decide_eq_true_2.
  - rewrite app_nil_r, Hm. destruct e; try done.
    + rewrite (Hfree eq_refl). rewrite !bool_decide_eq_false_2; [done|congruence|done].
    + rewrite (step_holds_true Hk).
      rewrite !bool_decide_eq_false_2; [done|done|congruence].
Qed.

Local Lemma step_results :
  timingResults c1 =
  list_to_map (stores (local 1 tr') ++ stores (local 2 tr')).
Proof.
  destruct (perform_results _ _ _ _ _ _ _ _ Hperf) as (-> & _).
  unfold tr'. rewrite !local_snoc, !stores_app, (ri_results _ Hr).
  pose proof step_next as Hn. pose proof step_replay as Hrep.
  destruct step_class as [(Htid&_&_&Hs&_)|[([Htid|Htid]&Hf&_)|(Htid&_&_&_&Hs&_)]];
    repeat first [rewrite decide_True by done | rewrite decide_False by lia];
    rewrite ?Hs; change (stores []) with (@nil (string * Z));
    rewrite ?app_nil_r.
  - destruct e; try done.
  - destruct (decide (stores [e] = [])) as [Hst|Hst];
      [rewrite Hst, app_nil_r; by destruct e|].
    destruct e; try done. apply next_store in Hn.
    destruct (fetch_stores _ _ _ _ Hf Hrep) as (_ & Hat & _).
    destruct (Hat _ _ _ Hn) as (_ & Hnil & _).
    rewrite Htid in Hnil. by rewrite Hnil.
  - destruct (decide (stores [e] = [])) as [Hst|Hst];
      [rewrite Hst, app_nil_r; by destruct e|].
    destruct e; try done. apply next_store in Hn.
    destruct (fetch_stores _ _ _ _ Hf Hrep) as (_ & Hat & _).
    destruct (Hat _ _ _ Hn) as (Hkey & Hnil & _).
    rewrite Htid in Hnil. rewrite Hnil. simpl. rewrite app_nil_r.
    pose proof (thread_identity _ _ _ _ _ _ Hg Hr Ht) as Hid.
    rewrite Htid in Hid. destruct Hid as (cep & _ & Hgv).
    rewrite Hgv in Hkey. simpl in Hkey. subst key.
    destruct (fetch_thread_stores _ _ _ 1 Hg Hr (or_introl eq_refl))
      as [->|[d1 ->]]; [done|].
    simpl. by rewrite insert_insert_ne.
  - destruct e; try done.
Qed.

Local Lemma step_wg :
  panicked c1 = false ∧
  wg c1 = foldr Z.add 0 (wg_adds (local 0 tr'))
          - Z.of_nat (length (wg_dones (local 1 tr')))
          - Z.of_nat (length (wg_dones (local 2 tr'))).
Proof.
  destruct (perform_wg _ _ _ _ _ _ _ _ Hperf) as (Hpan & Hwg & _).
  rewrite (ri_panicked _ Hr) in Hpan. simpl in Hpan.
  pose proof (ri_wg _ Hr) as Hold.
  pose proof step_next as Hn. pose proof step_replay as Hrep.
  pose proof step_replay' as Hrep'.
  pose proof (next_kind _ _ _ Hn) as Hk.
  pose proof (fetch_thread_dones _ _ _ 1 Hg Hr (or_introl eq_refl)) as Hd1.
  pose proof (fetch_thread_dones _ _ _ 2 Hg Hr (or_intror eq_refl)) as Hd2.
  unfold tr'. rewrite !local_snoc, wg_adds_app, !wg_dones_app, !length_app.
  destruct step_class as [(Htid&Hgm&_&_&Hs&_&Hul)|[(Htid&Hf&Hw&_)|(Htid&_&Hw&_&_&Hs)]].
  - (* main *)
    repeat first [rewrite decide_True by done | rewrite decide_False by lia].
    simpl (length (wg_dones [])). rewrite Hgm in Hrep, Hrep'.
    destruct (main_spawns _ _ _ _ Hrep') as (_&_&_&_&Hadds'&_).
    destruct (main_spawns _ _ _ _ Hrep) as (_&_&_&_&_&Hadds).
    rewrite wg_adds_app in Hadds'.
    destruct (decide (wg_adds [e] = [])) as [Hnil|Hadd].
    { assert (Hnp : panicked c1 = false ∧ wg c1 = wg c).
      { destruct e; try done; simpl in *; by rewrite Hwg. }
      destruct Hnp as [-> ->]. rewrite Hnil, app_nil_r. simpl.
      split; [done|lia]. }
    destruct e; try done; simpl in *.
    destruct Hadds' as [Hnil|[Hadd' ->]];
      [by apply app_eq_nil in Hnil as [_ Hnil]|].
    rewrite Htid in Hadd', Hadds.
    destruct (wg_adds (local 0 (trace c))) as [|n0 [|n1 ns]] eqn:Ha;
      simpl in Hadd'; [|done|done].
    injection Hadd' as ->.
    assert (Hgos : gos (local 0 (trace c)) = []).
    { destruct (gos (local 0 (trace c))) eqn:Hgos; [done|].
      by specialize (Hadds ltac:(done) eq_refl). }
    assert (Hlen : length (threads c) = 1%nat).
    { rewrite <- (length_fmap fst), (gi_pool _ _ _ Hg), (ri_gos _ Hr).
      by rewrite Hgos. }
    rewrite !(gi_bound _ _ _ Hg) in Hold |- * by lia. simpl in *.
    rewrite bool_decide_eq_false_2 in Hpan, Hwg by lia.
    split; [done|]. rewrite Hwg by done. lia.
  - (* a Lookup Task *)
    rewrite (decide_False (P:=tid = 0%nat)) by lia.
    change (wg_adds []) with (@nil Z). rewrite app_nil_r.
    destruct (decide (e = EWgDone)) as [He|Hne].
    + rewrite He in Hk, Hpan, Hwg |- *.
      destruct (fetch_wg _ _ _ _ Hf Hrep) as (_ & Hat & _).
      destruct (Hat Hk) as [Hnil Hv].
      destruct (main_replay _ _ _ Hg) as (p0 & Hp0 & Hrep0).
      destruct (main_spawns _ _ _ _ Hrep0) as (_&_&_&_&_&Hadds).
      assert (Hex : gos (local 0 (trace c)) ≠ []).
      { destruct Htid as [Htid|Htid]; rewrite Htid in Ht;
          by eapply worker_exists. }
      rewrite (Hadds Hex Hv) in Hold |- *. simpl in *.
      destruct Htid as [Htid|Htid]; rewrite Htid in Hnil;
        rewrite Hnil in Hold |- *;
        repeat first [rewrite decide_True by done | rewrite decide_False by lia];
        simpl in *;
        rewrite bool_decide_eq_false_2 in Hpan, Hwg by lia;
        (split; [done|]); rewrite Hwg by done; lia.
    + assert (Hd : wg_dones [e] = []) by by destruct e.
      assert (Hnp : panicked c1 = false ∧ wg c1 = wg c).
      { destruct e; try done; simpl in *;
          try (rewrite Hwg by done; done).
        rewrite (step_holds_true Hk) in Hpan, Hwg.
        rewrite bool_decide_eq_false_2 in Hpan, Hwg by done.
        by rewrite Hwg. }
      destruct Hnp as [-> ->]. split; [done|].
      repeat case_decide; rewrite ?Hd; simpl; lia.
  - (* the comparison goroutine *)
    rewrite !decide_False by lia. simpl. rewrite app_nil_r.
    assert (Hnp : panicked c1 = false ∧ wg c1 = wg c).
    { destruct e; try done; simpl in *;
        try (rewrite Hwg by done; done).
      rewrite (step_holds_true Hk) in Hpan, Hwg.
      rewrite bool_decide_eq_false_2 in Hpan, Hwg by done.
      by rewrite Hwg. }
    destruct Hnp as [-> ->]. split; [done|]. lia.
Qed.

Local Lemma step_ctx :
  ctx_deadline c1 = snd <$> last (deadlines (local 0 tr')) ∧
  ctx_cancelled c1 = bool_decide (cancels (local 0 tr') ≠ []).
Proof.
  destruct (perform_ctx _ _ _ _ _ _ _ _ Hperf) as (_ & -> & -> & _).
  unfold tr'. rewrite local_snoc, deadlines_app, cancels_app, last_app.
  rewrite (ri_deadline _ Hr), (ri_cancelled _ Hr).
  destruct step_class as [(Htid&_)|[(Htid&_&Hw&_)|(Htid&_&Hw&_)]].
  - rewrite decide_True by done. split.
    + by destruct (last (deadlines [e])).
    + destruct (cancels [e]) as [|[] l]; simpl.
      * by rewrite app_nil_r, orb_false_r.
      * rewrite orb_true_r. symmetry. apply bool_decide_eq_true.
        by destruct (cancels (local 0 (trace c))).
  - destruct (obs_singleton_worker _ Hw) as (_&_&_&_&_&Hd&Hc).
    rewrite decide_False by lia. rewrite Hd, Hc. simpl.
    by rewrite app_nil_r, orb_false_r.
  - destruct (obs_singleton_worker _ Hw) as (_&_&_&_&_&Hd&Hc).
    rewrite decide_False by lia. rewrite Hd, Hc. simpl.
    by rewrite app_nil_r, orb_false_r.
Qed.

Lemma race_inv_perform :
  race_inv (log tid e (set_threads (<[tid := (g, p')]> (threads c1)) c1)).
Proof.
  destruct step_wg, step_ctx.
  split; simpl; rewrite ?(perform_trace _ _ _ _ _ _ _ _ Hperf);
    [ apply step_gos | apply step_cap | apply step_chan | apply step_sends
    | apply step_mutex | apply step_results | done .. ].
Qed.

End race_inv_step.

Lemma race_inv_step v args l c c' :
  generic_inv (code v) args c → race_inv c →
  step (code v) l c = Some c' → race_inv c'.
Proof.
  intros Hg Hr Hstep. destruct l as [dt|tid a].
  - apply step_Tick_inv in Hstep as (_ & _ & _ & ->). by apply race_inv_tick.
  - apply step_Run_inv in Hstep as (g & p & e & p' & c1 & _ & _ & Ht & Hp & ->).
    by eapply race_inv_perform.
Qed.

(** Every reachable configuration satisfies the invariants. *)
Lemma reachable_inv v args c :
  reachable v args c → generic_inv (code v) args c ∧ race_inv c.
Proof.
  intros H. induction H as [|l c c' _ [IHg IHr] Hstep] using reachable_ind'.
  - split; [apply generic_inv_init|apply race_inv_init].
  - split; [by eapply generic_inv_step|by eapply race_inv_step].
Qed.

(** ** Consequences for the pool, the channel and standard output *)

Lemma outputs_trace_snoc (tr : list (nat * Event)) tid e :
  outputs (snd <$> (tr ++ [(tid, e)])) = outputs (snd <$> tr) ++ outputs [e].
Proof. by rewrite fmap_app, outputs_app. Qed.

(** Without a comparison goroutine started, the pool has none, and
    goroutine 3 has done nothing. *)
Lemma no_report_thread v args c :
  generic_inv (code v) args c → race_inv c →
  GTimingReport ∉ gos (local 0 (trace c)) →
  local 3 (trace c) = [] ∧ GTimingReport ∉ (fst <$> threads c).
Proof.
  intros Hg Hr Hno.
  destruct (main_replay _ _ _ Hg) as (p0 & Hp0 & Hrep).
  destruct (main_spawns _ _ _ _ Hrep) as (Hgos & _).
  pose proof (gi_pool _ _ _ Hg) as Hpool. rewrite (ri_gos _ Hr) in Hpool.
  assert (Hlen : (length (threads c) ≤ 3)%nat).
  { rewrite <- (length_fmap fst), Hpool. simpl.
    destruct (cep_of args); [|rewrite Hgos; simpl; lia].
    destruct Hgos as [Hgos|[Hgos|[Hgos|[_ Hgos]]]]; rewrite Hgos in Hno |- *;
      simpl; try lia.
    exfalso. apply Hno. by repeat constructor. }
  split; [by apply (gi_bound _ _ _ Hg)|].
  rewrite Hpool. intros [?|?]%elem_of_cons; done.
Qed.

(** Standard output is what [main] printed, followed by what the
    comparison goroutine printed. *)
Lemma stdout_split v args c :
  reachable v args c →
  stdout c = outputs (local 0 (trace c)) ++ outputs (local 3 (trace c)).
Proof.
  intros H. induction H as [|l c c' Hc IH Hstep] using reachable_ind'; [done|].
  destruct (reachable_inv _ _ _ Hc) as [Hg Hr].
  destruct l as [dt|tid a].
  { by apply step_Tick_inv in Hstep as (_ & _ & _ & ->). }
  apply step_Run_shape in Hstep
    as (g & p & e & p' & c1 & _ & _ & Ht & _ & Hn & _ & -> & ->).
  rewrite IH, !local_snoc, !outputs_app.
  pose proof (gi_replay _ _ _ Hg _ _ _ Ht) as Hrep.
  destruct (event_class _ _ _ _ _ _ _ _ Hg Hr Ht Hn)
    as [(->&->&_)|[(Htid&_&_&Ho)|(->&_)]].
  - rewrite decide_True, decide_False by done. simpl (outputs []).
    rewrite app_nil_r.
    destruct (decide (outputs [e] = [])) as [->|Hout];
      [by rewrite !app_nil_r|].
    assert (Hpr : is_print p = true).
    { pose proof (next_kind _ _ _ Hn). by destruct e. }
    destruct (main_report _ _ _ _ Hrep) as (Hno & _).
    destruct (no_report_thread _ _ _ Hg Hr (Hno Hpr)) as [-> _].
    by rewrite !app_nil_r.
  - rewrite Ho, !decide_False by lia. simpl. by rewrite !app_nil_r.
  - rewrite decide_False, decide_True by done. simpl (outputs []).
    by rewrite app_nil_r, (assoc_L (++)).
Qed.

(** The channel has capacity 2 as soon as there is a Lookup Task. *)
Lemma capacity_two v args c tid g p :
  reachable v args c → threads c !! S tid = Some (g, p) → chan_cap c = 2%nat.
Proof.
  intros Hc Ht. destruct (reachable_inv _ _ _ Hc) as [Hg Hr].
  pose proof (worker_exists _ _ _ _ _ _ Hg Hr Ht) as Hex.
  destruct (main_replay _ _ _ Hg) as (p0 & Hp0 & Hrep).
  destruct (main_spawns _ _ _ _ Hrep) as (_ & _ & Hmk & _).
  by rewrite (ri_cap _ Hr), (Hmk Hex).
Qed.

(** Each Lookup Task has sent at most once; together at most twice. *)
Lemma fetch_thread_sends v args c k :
  generic_inv (code v) args c → race_inv c → k = 1%nat ∨ k = 2%nat →
  (length (sends (local k (trace c))) ≤ 1)%nat.
Proof.
  intros Hg Hr Hk.
  destruct (fetch_thread _ _ _ _ Hg Hr Hk) as [->|(g & p & _ & Hf & _ & Hrep)];
    [simpl; lia|].
  by destruct (fetch_channel _ _ _ _ Hf Hrep).
Qed.

(** Only a Lookup Task is ever at a send, and it has not sent before. *)
Lemma at_send v args c tid g p :
  reachable v args c → threads c !! tid = Some (g, p) → is_send p = true →
  (tid = 1%nat ∨ tid = 2%nat) ∧ is_fetch g = true ∧
  sends (local tid (trace c)) = [].
Proof.
  intros Hc Ht Hs. destruct (reachable_inv _ _ _ Hc) as [Hg Hr].
  pose proof (gi_replay _ _ _ Hg _ _ _ Ht) as Hrep.
  pose proof (thread_identity _ _ _ _ _ _ Hg Hr Ht) as Hid.
  destruct tid as [|[|[|[|n]]]].
  - subst g. destruct (main_quiet _ _ _ _ Hrep) as (_&_&_&_&Hns&_). congruence.
  - destruct Hid as (cep & _ & ->). split; [by left|]. split; [done|].
    destruct (fetch_channel v (GFetchBrasilAPI cep) _ _ eq_refl Hrep)
      as (_ & Hat & _); auto.
  - destruct Hid as (cep & _ & ->). split; [by right|]. split; [done|].
    destruct (fetch_channel v (GFetchViaCEP cep) _ _ eq_refl Hrep)
      as (_ & Hat & _); auto.
  - destruct Hid as (cep & _ & -> & ->).
    destruct (all_events_replay _ _ _ _ (code_report_events _) Hrep) as [_ Hp].
    destruct p; try done. by destruct Hp as [[_ ?] _].
  - by destruct Hid as (cep & _ & ?).
Qed.

(** A Lookup Task at its send always finds a free slot in the channel. *)
Lemma send_has_room v args c tid g p :
  reachable v args c → threads c !! tid = Some (g, p) → is_send p = true →
  (length (resultChan c) < chan_cap c)%nat.
Proof.
  intros Hc Ht Hs. destruct (reachable_inv _ _ _ Hc) as [Hg Hr].
  destruct (at_send _ _ _ _ _ _ Hc Ht Hs) as (Htid & _ & Hnil).
  assert (Hcap : chan_cap c = 2%nat).
  { destruct Htid as [-> | ->]; by eapply capacity_two. }
  pose proof (fetch_thread_sends _ _ _ 1 Hg Hr (or_introl eq_refl)) as H1.
  pose proof (fetch_thread_sends _ _ _ 2 Hg Hr (or_intror eq_refl)) as H2.
  pose proof (f_equal length (ri_chan _ Hr)) as Hlen.
  pose proof (Permutation_length (ri_sends _ Hr)) as Hperm.
  rewrite length_app in Hlen, Hperm.
  destruct Htid as [-> | ->]; rewrite Hnil in Hperm; simpl in Hperm; lia.
Qed.

(** ** The claims *)

(** A goroutine at an always-enabled operation can take its step as long as
    the process lives. *)
Lemma step_enabled v args c tid g p a :
  reachable v args c → exited c = false →
  threads c !! tid = Some (g, p) →
  is_Some (perform (code v) tid a p c) →
  is_Some (step (code v) (Run tid a) c).
Proof.
  intros Hc Hex Ht [[[e p'] c1] Hp]. destruct (reachable_inv _ _ _ Hc) as [_ Hr].
  unfold step. by rewrite Hex, (ri_panicked _ Hr), Ht, Hp.
Qed.

Lemma exited_return args c p :
  threads c !! 0%nat = Some (GMain args, p) → exited c = is_return p.
Proof. unfold exited. intros ->. by destruct p. Qed.

(** [main] takes its [select] only after it has started both Lookup Tasks. *)
Lemma main_order v args evs p :
  replay (code v (GMain args)) evs = Some p →
  selected evs ≠ [] →
  ∃ cep, cep_of args = Some cep ∧
    [GFetchBrasilAPI cep; GFetchViaCEP cep] `prefix_of` gos evs.
Proof.
  intros H. explore_main H v.
  all: intros Hsel; try done.
  all: eexists; split; [done|solve_prefix].
Qed.

(** In both variants the completion channel is made with capacity 2,
    the number of Lookup Tasks [main] launches; a Lookup Task at its send
    always finds a free slot, so its single send never has to wait for a
    receive, whatever the Coordinator is doing. *)
Lemma capacity_covers_sends v args c :
  reachable v args c →
  (makechans (local 0 (trace c)) = [] ∨
   makechans (local 0 (trace c)) = [2%nat]) ∧
  (length (lookup_tasks (fst <$> threads c)) ≤ 2)%nat ∧
  (lookup_tasks (fst <$> threads c) ≠ [] → chan_cap c = 2%nat) ∧
  (selected (local 0 (trace c)) ≠ [] →
     length (lookup_tasks (fst <$> threads c)) = chan_cap c) ∧
  (∀ tid g r k, threads c !! tid = Some (g, ChanSend r k) →
     (length (resultChan c) < chan_cap c)%nat ∧
     (exited c = false → ∀ a, is_Some (step (code v) (Run tid a) c))).
Proof.
  intros Hc. destruct (reachable_inv _ _ _ Hc) as [Hg Hr].
  destruct (main_replay _ _ _ Hg) as (p0 & Hp0 & Hrep).
  destruct (main_spawns _ _ _ _ Hrep) as (Hgos & Hmk & Hmk2 & _).
  destruct (main_select _ _ _ _ Hrep) as (_ & _ & Hsel0 & Hsel1).
  pose proof (gi_pool _ _ _ Hg) as Hpool. rewrite (ri_gos _ Hr) in Hpool.
  pose proof (ri_cap _ Hr) as Hcap.
  split; [done|]. rewrite Hpool.
  assert (Hcases :
    (lookup_tasks (gos (local 0 (trace c))) = [] ∧
     gos (local 0 (trace c)) = []) ∨
    (length (lookup_tasks (gos (local 0 (trace c)))) = 1%nat ∧
     selected (local 0 (trace c)) = []) ∨
    length (lookup_tasks (gos (local 0 (trace c)))) = 2%nat).
  { destruct (decide (selected (local 0 (trace c)) = [])) as [Hs|Hs].
    - destruct (cep_of args) as [cep|]; [|left; by rewrite Hgos].
      destruct Hgos as [Hgos|[Hgos|[Hgos|[_ Hgos]]]]; rewrite Hgos; simpl; auto.
    - destruct (main_order _ _ _ _ Hrep Hs) as (cep & Hcep & Hpre).
      rewrite Hcep in Hgos. right; right.
      destruct Hgos as [Hgos|[Hgos|[Hgos|[_ Hgos]]]]; rewrite Hgos in Hpre |- *;
        try done; apply prefix_length in Hpre; simpl in Hpre; lia. }
  repeat split.
  - simpl. destruct Hcases as [[-> _]|[[-> _]| ->]]; simpl; lia.
  - simpl. intros Hne. rewrite Hcap, Hmk2; [done|].
    intros Hnil. by rewrite Hnil in Hne.
  - simpl. intros Hsel.
    destruct Hcases as [[_ Hnil]|[[_ ?]|Heq]]; [|done|].
    + destruct (main_order _ _ _ _ Hrep Hsel) as (cep & _ & Hpre).
      rewrite Hnil in Hpre. apply prefix_length in Hpre. simpl in Hpre. lia.
    + rewrite Heq, Hcap, Hmk2; [done|]. intros Hnil. by rewrite Hnil in Heq.
  - by eapply send_has_room.
  - intros Hex a. eapply step_enabled; eauto. simpl.
    rewrite bool_decide_eq_true_2; [done|]. by eapply send_has_room.
Qed.

(** What [main] printed is all of standard output as long as no comparison
    goroutine was started. *)
Lemma stdout_main v args c :
  reachable v args c → GTimingReport ∉ gos (local 0 (trace c)) →
  stdout c = outputs (local 0 (trace c)).
Proof.
  intros Hc Hno. destruct (reachable_inv _ _ _ Hc) as [Hg Hr].
  destruct (no_report_thread _ _ _ Hg Hr Hno) as [Hnil _].
  by rewrite (stdout_split _ _ _ Hc), Hnil, app_nil_r.
Qed.

(** For an invocation with a postal-code argument, when the first
    [select] of [main] takes a value from the completion channel, that value
    is the first one sent on the channel, and [main] reports it at once. A
    success is printed with its backend identifier and address fields, with
    no wait in between. A failure is printed with its backend identifier and
    error; [main] then only cancels the context and returns: it never
    receives the other backend's value. *)
Lemma received_value_is_reported v args c r :
  reachable v args c →
  selected (local 0 (trace c)) = [Some r] →
  let m := local 0 (trace c) in
  head (all_sends (trace c)) = Some r ∧
  (since_select m `prefix_of` (print_event <$> outcome_report v (Some r)) ∨
   (print_event <$> outcome_report v (Some r)) `prefix_of` since_select m) ∧
  (Error r = None →
     outcome_report v (Some r) =
       winner_line v r ::
       match Data r with Some data => [address_line data] | None => [] end) ∧
  (∀ err, Error r = Some err →
     since_select m `prefix_of`
       [EPrintf api_error_format [VString (APIName r); VError err]; ECancel] ∧
     receives m = [r] ∧
     (GTimingReport ∉ fst <$> threads c) ∧
     (∀ p, threads c !! 0%nat = Some (GMain args, p) → is_blocking p = false)) ∧
  (exited c = true →
     ∃ cep, cep_of args = Some cep ∧
       (OutPrintf searching_format [VString cep] :: outcome_report v (Some r))
         `prefix_of` stdout c) ∧
  (∀ p a, threads c !! 0%nat = Some (GMain args, p) → is_print p = true →
     is_Some (step (code v) (Run 0 a) c)).
Proof.
  intros Hc Hsel m. subst m. destruct (reachable_inv _ _ _ Hc) as [Hg Hr].
  destruct (main_replay _ _ _ Hg) as (p0 & Hp0 & Hrep).
  destruct (main_select _ _ _ _ Hrep) as (_ & _ & _ & Hsel1).
  destruct (Hsel1 _ Hsel) as (Hhd & _ & cep & Hcep & _).
  destruct (main_report _ _ _ _ Hrep) as (_ & _ & Hrp).
  destruct (Hrp _ Hsel) as (Hcmp & Hfail & Hout).
  split; [|split; [done|split; [|split; [|split]]]].
  - rewrite (ri_chan _ Hr). by destruct (receives _).
  - simpl. by intros ->.
  - intros err Herr. simpl in Hfail |- *. rewrite Herr in Hfail.
    destruct (Hfail eq_refl) as (Hpre & Hnb & Hno & Hlen).
    split; [done|]. split; [|split].
    + simpl in Hlen.
      destruct (receives _) as [|r' [|]]; simpl in *; by simplify_eq.
    + by destruct (no_report_thread _ _ _ Hg Hr Hno).
    + intros p Hp. by simplify_eq.
  - intros Hex. exists cep. split; [done|].
    rewrite (exited_return _ _ _ Hp0) in Hex.
    rewrite (stdout_split _ _ _ Hc).
    rewrite (Hout _ Hcep (or_introl Hex)). by apply prefix_app_r.
  - intros p a Hp Hpr. simplify_eq.
    eapply step_enabled; eauto.
    + rewrite (exited_return _ _ _ Hp0). by destruct p0.
    + by destruct p0.
Qed.

(** The context [main] shares with the Lookup Tasks has a timeout of
    exactly one second (10^9 nanoseconds): its deadline is the instant of its
    creation plus one second. When [main] is at its [select] and no value
    is in the completion channel, the only case it can take is the deadline,
    and only once the deadline has passed. After that case [main] prints the
    timeout line, cancels the context and returns, in both variants: it is
    never again at an operation that can wait, and it never receives. *)
Lemma deadline_then_timeout v args c :
  reachable v args c →
  let m := local 0 (trace c) in
  (deadlines m = [] ∨ ∃ t, deadlines m = [(1000000000, t)]) ∧
  ctx_deadline c = snd <$> last (deadlines m) ∧
  (∀ g d k a c',
     threads c !! 0%nat = Some (g, WithTimeout d k) →
     step (code v) (Run 0 a) c = Some c' →
     d = 1000000000 ∧ ctx_deadline c' = Some (clock c + 1000000000)) ∧
  (∀ g k a c',
     threads c !! 0%nat = Some (g, SelectResultOrDone k) →
     resultChan c = [] →
     step (code v) (Run 0 a) c = Some c' →
     selected (local 0 (trace c')) = [None] ∧
     ∃ t, ctx_deadline c = Some t ∧ t ≤ clock c) ∧
  (∀ g k t,
     threads c !! 0%nat = Some (g, SelectResultOrDone k) →
     ctx_deadline c = Some t → t ≤ clock c →
     is_Some (step (code v) (Run 0 (APick false)) c)) ∧
  (selected m = [None] →
     since_select m `prefix_of` [EPrintln timeout_message; ECancel] ∧
     receives m = [] ∧
     (∀ p, threads c !! 0%nat = Some (GMain args, p) → is_blocking p = false) ∧
     (exited c = true →
        ∃ cep, cep_of args = Some cep ∧
          stdout c = [OutPrintf searching_format [VString cep];
                      OutPrintln timeout_message])).
Proof.
  intros Hc m. subst m. destruct (reachable_inv _ _ _ Hc) as [Hg Hr].
  destruct (main_replay _ _ _ Hg) as (p0 & Hp0 & Hrep).
  destruct (main_context _ _ _ _ Hrep) as (Hdl & Hat & Hgd & Hcan).
  destruct (main_select _ _ _ _ Hrep) as (_ & Hatsel & _ & Hsel1).
  destruct (main_report _ _ _ _ Hrep) as (_ & _ & Hrp).
  split; [done|]. split; [apply (ri_deadline _ Hr)|].
  split; [|split; [|split]].
  - intros g d k a c' Ht Hstep. simplify_eq.
    destruct (Hat _ _ eq_refl) as [-> _]. split; [done|].
    apply step_Run_inv in Hstep as (g & p & e & p' & c1 & _ & _ & Ht & Hp & ->).
    simplify_eq. simpl in Hp. by simplify_eq.
  - intros g k a c' Ht Hbuf Hstep. simplify_eq.
    destruct (Hatsel eq_refl) as (Hnosel & cep & _ & Hgos & _).
    apply step_Run_shape in Hstep
      as (g & p & e & p' & c1 & _ & _ & Ht & Hp & _ & _ & -> & _).
    simplify_eq. rewrite local_snoc_eq, selected_app, Hnosel.
    simpl in Hp. rewrite Hbuf in Hp.
    destruct a as [|[]| | | | | |]; try done.
    destruct (ctx_done c) eqn:Hdone; [|done]. injection Hp as <- <- <-.
    split; [done|].
    unfold ctx_done in Hdone. rewrite (ri_cancelled _ Hr) in Hdone.
    assert (Hnc : cancels (local 0 (trace c)) = []).
    { destruct (cancels (local 0 (trace c))) eqn:Hcs; [done|].
      by specialize (Hcan ltac:(done)). }
    rewrite Hnc in Hdone. rewrite bool_decide_eq_false_2 in Hdone by auto.
    simpl in Hdone. destruct (ctx_deadline c) as [t|]; [|done].
    exists t. split; [done|]. by apply bool_decide_eq_true in Hdone.
  - intros g k t Ht Hd Hle. simplify_eq.
    eapply step_enabled; eauto.
    + by rewrite (exited_return _ _ _ Hp0).
    + simpl. unfold ctx_done. rewrite Hd, bool_decide_eq_true_2 by done.
      by rewrite orb_true_r.
  - intros Hsel. destruct (Hsel1 _ Hsel) as (Hrecv & _ & cep & Hcep & _).
    destruct (Hrp _ Hsel) as (_ & Hfail & Hout).
    destruct (Hfail eq_refl) as (Hpre & Hnb & Hno & _).
    split; [done|]. split; [done|]. split.
    + intros p Hp. by simplify_eq.
    + intros Hex. exists cep. split; [done|].
      rewrite (exited_return _ _ _ Hp0) in Hex.
      rewrite (stdout_main _ _ _ Hc Hno).
      by rewrite (Hout _ Hcep (or_introl Hex)).
Qed.


(** ** Every Lookup Task returns *)

Lemma bounded_mono m m' p : bounded m p → (m ≤ m')%nat → bounded m' p.
Proof.
  revert m m'. induction p; intros m m' Hb Hle; simpl in *; try done;
    (destruct m as [|m]; [done|]); (destruct m' as [|m']; [lia|]);
    intros; eauto with lia.
Qed.

Lemma bounded_next n p e p' :
  bounded n p → next p e = Some p' → ∃ m, n = S m ∧ bounded m p'.
Proof.
  intros Hb Hn.
  destruct p, e; simpl in Hn; try done;
    repeat case_decide; destruct_and?; simplify_eq; try done;
    simpl in Hb; (destruct n as [|m]; [done|]); exists m; (split; [done|]);
    apply Hb.
Qed.

Lemma bounded_replay n p evs p' :
  bounded n p → replay p evs = Some p' → bounded n p'.
Proof.
  revert n p. induction evs as [|e evs IH]; intros n p Hb Hr; simpl in Hr.
  - by simplify_eq.
  - destruct (next p e) as [p1|] eqn:Hn; [|done].
    destruct (bounded_next _ _ _ _ Hb Hn) as (m & -> & Hm).
    eapply bounded_mono; [by eapply IH|lia].
Qed.

(** A Lookup Task returns after at most twelve operations. *)
Lemma fetch_bounded v g : is_fetch g = true → bounded 12 (code v g).
Proof.
  intros Hg. destruct v, g; try done; simpl;
    unfold Timed.fetchBrasilAPI, Timed.fetchViaCEP, Plain.fetchBrasilAPI,
      Plain.fetchViaCEP, defer; simpl;
    repeat first [ done | progress intros | case_match | progress simpl ].
Qed.

Lemma fetch_heads v g evs p :
  is_fetch g = true → replay (code v g) evs = Some p → is_fetch_op p = true.
Proof. intros Hg H. explore_fetch H v g; done. Qed.

Section drive.
Context (v : Variant) (args : list string) (w : World).

(** A Lookup Task that has not returned can take its next step, unless
    another goroutine holds the mutex. *)
Lemma fetch_progress c tid g p :
  reachable v args c → exited c = false →
  threads c !! tid = Some (g, p) → is_fetch g = true →
  is_return p = false →
  timingMutex c = None ∨ timingMutex c = Some tid →
  ∃ c' p',
    step (code v) (Run tid (answer_for w p)) c = Some c' ∧
    exited c' = false ∧
    threads c' !! tid = Some (g, p') ∧
    (timingMutex c' = None ∨ timingMutex c' = Some tid) ∧
    (∀ n, bounded (S n) p → bounded n p').
Proof.
  intros Hc Hex Ht Hf Hnr Hmu. destruct (reachable_inv _ _ _ Hc) as [Hg Hr].
  pose proof (gi_replay _ _ _ Hg _ _ _ Ht) as Hrep.
  pose proof (fetch_heads _ _ _ _ Hf Hrep) as Hop.
  pose proof (locked_replay _ _ _ (code_locked v g) Hrep) as Hl.
  destruct (locked_head _ _ Hl) as (Hlk & _).
  pose proof (ri_mutex _ Hr tid) as Hm.
  assert (Hperf : is_Some (perform (code v) tid (answer_for w p) p c)).
  { destruct p; try done; simpl.
    - destruct Hmu as [->|Hmu]; [done|]. exfalso.
      rewrite (Hlk eq_refl), Hmu in Hm.
      by rewrite bool_decide_eq_true_2 in Hm.
    - by destruct (timingMutex c).
    - rewrite bool_decide_eq_true_2; [done|]. by eapply send_has_room. }
  destruct (step_enabled _ _ _ _ _ _ _ Hc Hex Ht Hperf) as [c' Hstep].
  pose proof Hstep as Hinv.
  apply step_Run_inv in Hinv as (g' & q & e & p' & c1 & _ & _ & Ht' & Hp & Hc').
  rewrite Ht in Ht'. injection Ht' as <- <-.
  pose proof (perform_next _ _ _ _ _ _ _ _ Hp) as Hn.
  pose proof (perform_threads _ _ _ _ _ _ _ _ Hp) as Hths.
  destruct (perform_mutex _ _ _ _ _ _ _ _ Hp) as (Hmu1 & _).
  assert (Htid : tid ≠ 0%nat).
  { intros ->. pose proof (thread_identity _ _ _ _ _ _ Hg Hr Ht) as Hid.
    simpl in Hid. by rewrite Hid in Hf. }
  assert (Hlt : (tid < length (threads c))%nat) by by eapply lookup_lt_Some.
  exists c', p'. split; [done|]. rewrite Hc'. simpl. rewrite Hths.
  split; [|split; [|split]].
  - unfold exited in *. simpl.
    rewrite list_lookup_insert_ne, lookup_app_l by lia. done.
  - apply list_lookup_insert_eq. rewrite length_app. lia.
  - rewrite Hmu1. destruct e; auto.
  - intros n Hb. destruct (bounded_next _ _ _ _ Hb Hn) as (m & ? & ?).
    by simplify_eq.
Qed.

(** Left alone with a free mutex, a Lookup Task runs to its return. *)
Lemma drive_total n c tid g p :
  reachable v args c → exited c = false →
  threads c !! tid = Some (g, p) → is_fetch g = true →
  bounded n p →
  timingMutex c = None ∨ timingMutex c = Some tid →
  ∃ c', drive (code v) w tid n c = Some c' ∧
        reachable v args c' ∧ exited c' = false ∧
        threads c' !! tid = Some (g, Return).
Proof.
  revert c p. induction n as [|n IH]; intros c p Hc Hex Ht Hf Hb Hmu.
  - destruct p; try done. exists c. simpl. by rewrite Ht.
  - destruct (decide (is_return p = true)) as [Hret|Hret].
    { destruct p; try done. exists c. simpl. by rewrite Ht. }
    apply not_true_is_false in Hret.
    destruct (fetch_progress _ _ _ _ Hc Hex Ht Hf Hret Hmu)
      as (c' & p' & Hstep & Hex' & Ht' & Hmu' & Hb').
    pose proof (reachable_step _ _ _ _ _ Hc Hstep) as Hc'.
    destruct (IH _ _ Hc' Hex' Ht' Hf (Hb' _ Hb) Hmu') as (c'' & Hd & ?).
    exists c''. split; [|done]. simpl. rewrite Ht, Hstep.
    by destruct p.
Qed.

End drive.

(** C3: every Lookup Task, for any input code, publishes exactly one
    Response to the completion channel before it returns: it has sent at
    most once at any moment, nothing when it is at its send, and exactly
    once when it has returned; and it does return, whatever the outside
    world answers (request-build error, transport error, non-2xx status,
    body-read error, decode error or success), when it is left to run
    with the mutex not held by another goroutine. The values sent on the
    channel are the ones of the two Lookup Tasks, no more. *)
Theorem C3_exactly_one_response_per_task v args c tid g p :
  reachable v args c →
  threads c !! tid = Some (g, p) → is_fetch g = true →
  (length (sends (local tid (trace c))) ≤ 1)%nat ∧
  (is_send p = true → sends (local tid (trace c)) = []) ∧
  (is_return p = true → length (sends (local tid (trace c))) = 1%nat) ∧
  all_sends (trace c) ≡ₚ sends (local 1 (trace c)) ++ sends (local 2 (trace c)) ∧
  (∀ w, exited c = false →
     timingMutex c = None ∨ timingMutex c = Some tid →
     ∃ c', drive (code v) w tid 12 c = Some c' ∧
           reachable v args c' ∧
           threads c' !! tid = Some (g, Return) ∧
           length (sends (local tid (trace c'))) = 1%nat).
Proof.
  intros Hc Ht Hf. destruct (reachable_inv _ _ _ Hc) as [Hg Hr].
  pose proof (gi_replay _ _ _ Hg _ _ _ Ht) as Hrep.
  destruct (fetch_channel _ _ _ _ Hf Hrep) as (Hle & Hat & Hret).
  repeat split; try done; [apply (ri_sends _ Hr)|].
  intros w Hex Hmu.
  assert (Hb : bounded 12 p).
  { eapply bounded_replay; [by apply fetch_bounded|done]. }
  destruct (drive_total _ _ w _ _ _ _ _ Hc Hex Ht Hf Hb Hmu)
    as (c' & Hd & Hc' & _ & Ht').
  exists c'. repeat split; try done.
  destruct (reachable_inv _ _ _ Hc') as [Hg' _].
  pose proof (gi_replay _ _ _ Hg' _ _ _ Ht') as Hrep'.
  by destruct (fetch_channel _ _ _ _ Hf Hrep') as (_ & _ & ->).
Qed.

(** The message of a status error determines the status code. *)
Lemma status_error_inj code code' :
  status_error code = status_error code' → code = code'.
Proof.
  unfold status_error. intros H.
  apply (inj (String.app "status code: ")) in H. by apply (inj pretty) in H.
Qed.

(** For each Lookup Task, each of the five kinds of failure (request
    construction, transport, non-success HTTP status, body read, JSON
    decode) makes the Response it sends carry that failure in its Error
    field, with no data, under the backend's name; the non-success status
    is carried by its numeric code, which the error message determines.
    The failure is final: the task hands at most one request to the client
    and is never at a network call once it has sent. *)
Lemma failures_carried_as_data v args c tid g p :
  reachable v args c →
  threads c !! tid = Some (g, p) → is_fetch g = true →
  let evs := local tid (trace c) in
  Forall (fun r =>
    APIName r = backend_name g ∧
    (∀ m u err, ENewRequestWithContext m u (inl err) ∈ evs →
       Error r = Some err ∧ Data r = None) ∧
    (∀ req err, EClientDo req (inl err) ∈ evs →
       Error r = Some err ∧ Data r = None) ∧
    (∀ req resp, EClientDo req (inr resp) ∈ evs → StatusCode resp ≠ StatusOK →
       Error r = Some (status_error (StatusCode resp)) ∧ Data r = None) ∧
    (∀ b err, EReadAll b (inl err) ∈ evs → Error r = Some err ∧ Data r = None) ∧
    (∀ b err, EUnmarshalBrasilAPICEP b (inl err) ∈ evs →
       Error r = Some err ∧ Data r = None) ∧
    (∀ b err, EUnmarshalViaCEP b (inl err) ∈ evs →
       Error r = Some err ∧ Data r = None) ∧
    (Error r = None → is_Some (Data r))) (sends evs) ∧
  (backend_name g = "BrasilAPI" ∨ backend_name g = "ViaCEP") ∧
  (∀ code code', status_error code = status_error code' → code = code') ∧
  (length (requests evs) ≤ 1)%nat ∧
  (is_network p = true → sends evs = []) ∧
  requests evs = requests (before_send evs).
Proof.
  intros Hc Ht Hf evs. subst evs. destruct (reachable_inv _ _ _ Hc) as [Hg _].
  pose proof (gi_replay _ _ _ Hg _ _ _ Ht) as Hrep.
  split; [by eapply fetch_failures|].
  split; [destruct g; auto; done|].
  split; [apply status_error_inj|].
  by eapply fetch_requests.
Qed.

Lemma fetch_thread_id v args c tid g p :
  reachable v args c → threads c !! tid = Some (g, p) → is_fetch g = true →
  (tid = 1%nat ∧ backend_name g = "BrasilAPI") ∨
  (tid = 2%nat ∧ backend_name g = "ViaCEP").
Proof.
  intros Hc Ht Hf. destruct (reachable_inv _ _ _ Hc) as [Hg Hr].
  pose proof (thread_identity _ _ _ _ _ _ Hg Hr Ht) as Hid.
  destruct tid as [|[|[|[|n]]]]; [by subst| | | |].
  - destruct Hid as (cep & _ & ->). by left.
  - destruct Hid as (cep & _ & ->). by right.
  - by destruct Hid as (cep & _ & _ & ->).
  - by destruct Hid as (cep & _ & ?).
Qed.

(** The entry of each backend in the timing map is what its Lookup Task
    stored. *)
Lemma results_lookup v args c :
  reachable v args c →
  timingResults c !! "BrasilAPI" = snd <$> head (stores (local 1 (trace c))) ∧
  timingResults c !! "ViaCEP" = snd <$> head (stores (local 2 (trace c))) ∧
  (∀ key, key ≠ "BrasilAPI" → key ≠ "ViaCEP" → timingResults c !! key = None).
Proof.
  intros Hc. destruct (reachable_inv _ _ _ Hc) as [Hg Hr].
  rewrite (ri_results _ Hr).
  destruct (fetch_thread_stores _ _ _ 1 Hg Hr (or_introl eq_refl)) as [->|[d1 ->]];
    destruct (fetch_thread_stores _ _ _ 2 Hg Hr (or_intror eq_refl)) as [->|[d2 ->]];
    simpl; repeat split; intros; by simplify_map_eq.
Qed.

(** C6: in the timing variant a Lookup Task touches the timing map only on
    its success path: it stores at most one entry, under its own name, while
    it holds the mutex, and before it sends its success Response, whose
    duration is the stored one; a task that has sent a failure has stored
    nothing and never will. The map holds an entry for a backend exactly
    when its task stored one, so a failed task shows as a missing entry;
    [main] and the comparison goroutine never store. *)
Theorem C6_timing_recorded_only_on_success args c tid g p :
  reachable TimedVariant args c →
  threads c !! tid = Some (g, p) → is_fetch g = true →
  let evs := local tid (trace c) in
  (stores evs = [] ∨ ∃ d, stores evs = [(backend_name g, d)]) ∧
  (∀ key d k, p = MapStore key d k →
     key = backend_name g ∧ timingMutex c = Some tid ∧ sends evs = []) ∧
  Forall (fun r =>
    (Error r = None → stores (before_send evs) = [(backend_name g, Duration r)]) ∧
    (Error r ≠ None → stores evs = [] ∧ timingResults c !! backend_name g = None))
    (sends evs) ∧
  timingResults c !! backend_name g = snd <$> head (stores evs) ∧
  stores (local 0 (trace c)) = [] ∧ stores (local 3 (trace c)) = [].
Proof.
  intros Hc Ht Hf evs. subst evs. destruct (reachable_inv _ _ _ Hc) as [Hg Hr].
  pose proof (gi_replay _ _ _ Hg _ _ _ Ht) as Hrep.
  destruct (fetch_stores _ _ _ _ Hf Hrep) as (Hshape & Hat & _ & Hall).
  assert (Hlook : timingResults c !! backend_name g =
                  snd <$> head (stores (local tid (trace c)))).
  { destruct (results_lookup _ _ _ Hc) as (H1 & H2 & _).
    by destruct (fetch_thread_id _ _ _ _ _ _ Hc Ht Hf) as [[-> ->]|[-> ->]]. }
  split; [done|]. split; [|split; [|split; [done|split]]].
  - intros key d k ->. destruct (Hat _ _ _ eq_refl) as (-> & _ & Hs).
    split; [done|]. split; [|done].
    pose proof (locked_replay _ _ _ (code_locked _ g) Hrep) as Hl.
    destruct (locked_head _ _ Hl) as (_ & _ & Hma & _).
    pose proof (ri_mutex _ Hr tid) as Hm. rewrite (Hma eq_refl) in Hm.
    symmetry in Hm. by apply bool_decide_eq_true in Hm.
  - eapply Forall_impl; [exact Hall|]. intros r [Hok Hko]. split; [auto|].
    intros Herr. specialize (Hko Herr). split; [done|].
    by rewrite Hlook, Hko.
  - destruct (main_replay _ _ _ Hg) as (p0 & _ & Hrep0).
    by destruct (main_quiet _ _ _ _ Hrep0) as (_ & ? & _).
  - destruct (threads c !! 3%nat) as [[g3 p3]|] eqn:Ht3.
    + pose proof (thread_identity _ _ _ _ _ _ Hg Hr Ht3) as (cep & _ & _ & ->).
      pose proof (gi_replay _ _ _ Hg _ _ _ Ht3) as Hrep3.
      destruct (all_events_replay _ _ _ _ (code_report_events _) Hrep3) as [Hev _].
      by destruct (report_events_quiet _ Hev) as (_ & _ & ? & _).
    + rewrite (gi_bound _ _ _ Hg); [done|]. by apply lookup_ge_None.
Qed.

(** C9: writes to the shared timing map never interfere and no entry is
    lost. Whenever a goroutine is at an access to the map it holds the
    mutex, so no two goroutines are at a map access together; every entry a
    Lookup Task stored is in the map from then on, under its backend's name;
    and a goroutine at a network call never holds the mutex. *)
Theorem C9_timing_map_writes_are_exclusive_and_kept v args c :
  reachable v args c →
  (∀ tid g p, threads c !! tid = Some (g, p) → is_map_access p = true →
     timingMutex c = Some tid) ∧
  (∀ tid tid' g g' p p',
     threads c !! tid = Some (g, p) → threads c !! tid' = Some (g', p') →
     is_map_access p = true → is_map_access p' = true → tid = tid') ∧
  (∀ tid key d, tid = 1%nat ∨ tid = 2%nat →
     (key, d) ∈ stores (local tid (trace c)) →
     timingResults c !! key = Some d) ∧
  (∀ tid g p, threads c !! tid = Some (g, p) → is_fetch g = true →
     is_return p = true → ∀ r, r ∈ sends (local tid (trace c)) →
     Error r = None → v = TimedVariant →
     timingResults c !! backend_name g = Some (Duration r)) ∧
  (∀ tid g p, threads c !! tid = Some (g, p) → is_network p = true →
     timingMutex c ≠ Some tid).
Proof.
  intros Hc. destruct (reachable_inv _ _ _ Hc) as [Hg Hr].
  assert (Hheld : ∀ tid g p, threads c !! tid = Some (g, p) →
    is_map_access p = true → timingMutex c = Some tid).
  { intros tid g p Ht Hma.
    pose proof (gi_replay _ _ _ Hg _ _ _ Ht) as Hrep.
    pose proof (locked_replay _ _ _ (code_locked _ g) Hrep) as Hl.
    destruct (locked_head _ _ Hl) as (_ & _ & Hh & _).
    pose proof (ri_mutex _ Hr tid) as Hm. rewrite (Hh Hma) in Hm.
    symmetry in Hm. by apply bool_decide_eq_true in Hm. }
  destruct (results_lookup _ _ _ Hc) as (H1 & H2 & _).
  split; [done|]. split; [|split; [|split]].
  - intros tid tid' g g' p p' Ht Ht' Hma Hma'.
    pose proof (Hheld _ _ _ Ht Hma). pose proof (Hheld _ _ _ Ht' Hma').
    congruence.
  - intros tid key d Htid Hin.
    destruct (fetch_thread_stores _ _ _ tid Hg Hr Htid) as [Hs|[d' Hs]];
      rewrite Hs in Hin; [by apply elem_of_nil in Hin|].
    apply list_elem_of_singleton in Hin. simplify_eq.
    destruct Htid as [-> | ->]; rewrite ?decide_True, ?decide_False by done.
    + by rewrite H1, Hs.
    + by rewrite H2, Hs.
  - intros tid g p Ht Hf Hret r Hin Herr ->.
    pose proof (gi_replay _ _ _ Hg _ _ _ Ht) as Hrep.
    destruct (fetch_stores _ _ _ _ Hf Hrep) as (Hshape & _ & _ & Hall).
    rewrite Forall_forall in Hall. destruct (Hall r Hin) as [Hok _].
    specialize (Hok Herr eq_refl).
    assert (Hst : stores (local tid (trace c)) = [(backend_name g, Duration r)]).
    { destruct Hshape as [Hs|[d Hs]]; [|].
      - exfalso. clear -Hs Hok. revert Hs Hok.
        generalize (local tid (trace c)). intros l. induction l as [|e l IH];
          [done|]. destruct e; simpl; try done; auto.
      - rewrite Hs. clear -Hs Hok. revert Hs Hok.
        generalize (local tid (trace c)). intros l. revert d.
        induction l as [|e l IH]; [done|]. intros d.
        destruct e; simpl; try done; auto.
        + intros ? ?; simplify_eq. done.
    }
    destruct (fetch_thread_id _ _ _ _ _ _ Hc Ht Hf) as [[-> Hn]|[-> Hn]];
      rewrite Hn in Hst |- *.
    + by rewrite H1, Hst.
    + by rewrite H2, Hst.
  - intros tid g p Ht Hnet Hmu.
    pose proof (gi_replay _ _ _ Hg _ _ _ Ht) as Hrep.
    pose proof (locked_replay _ _ _ (code_locked _ g) Hrep) as Hl.
    destruct (locked_head _ _ Hl) as (_ & _ & _ & Hh & _).
    pose proof (ri_mutex _ Hr tid) as Hm. rewrite (Hh Hnet), Hmu in Hm.
    by rewrite bool_decide_eq_true_2 in Hm.
Qed.

(** C8: the printed address fields are a fixed function of the decoded
    payload. BrasilAPI's cep, state, city, neighborhood and street, and
    ViaCEP's cep, uf, localidade, bairro and logradouro, are printed in the
    postal code, state, city, neighborhood and street positions of the same
    five-line format, in this order and with nothing dropped; in every run of
    either variant in which [main] received a success carrying a payload,
    the third line of standard output is that address line once [main] has
    finished its report. *)
Theorem C8_address_fields_are_mapped_in_order v args c r data :
  reachable v args c →
  selected (local 0 (trace c)) = [Some r] →
  Error r = None → Data r = Some data →
  (∀ d, address_line (PBrasilAPICEP d) =
        OutPrintf address_format
          [VString (BrasilAPICEP.Cep d); VString (BrasilAPICEP.State d);
           VString (BrasilAPICEP.City d); VString (BrasilAPICEP.Neighborhood d);
           VString (BrasilAPICEP.Street d)]) ∧
  (∀ d, address_line (PViaCEP d) =
        OutPrintf address_format
          [VString (ViaCEP.Cep d); VString (ViaCEP.Uf d);
           VString (ViaCEP.Localidade d); VString (ViaCEP.Bairro d);
           VString (ViaCEP.Logradouro d)]) ∧
  (∀ cep state city neighborhood street,
     sprintf_strings address_format [cep; state; city; neighborhood; street] =
     Some ("CEP: " +:+ cep +:+ nl +:+ "Estado: " +:+ state +:+ nl +:+
           "Cidade: " +:+ city +:+ nl +:+ "Bairro: " +:+ neighborhood +:+ nl +:+
           "Rua: " +:+ street +:+ nl)) ∧
  (∃ cep, cep_of args = Some cep ∧
     outputs (local 0 (trace c)) `prefix_of`
       [OutPrintf searching_format [VString cep]; winner_line v r;
        address_line data]) ∧
  (exited c = true ∨ GTimingReport ∈ gos (local 0 (trace c)) →
     stdout c !! 2%nat = Some (address_line data)).
Proof.
  intros Hc Hsel Herr Hdata. destruct (reachable_inv _ _ _ Hc) as [Hg Hr].
  destruct (main_replay _ _ _ Hg) as (p0 & Hp0 & Hrep).
  destruct (main_select _ _ _ _ Hrep) as (_ & _ & _ & Hsel1).
  destruct (Hsel1 _ Hsel) as (_ & _ & cep & Hcep & Hpre).
  destruct (main_report _ _ _ _ Hrep) as (_ & _ & Hrp).
  destruct (Hrp _ Hsel) as (_ & _ & Hout).
  simpl in Hpre, Hout. rewrite Herr, Hdata in Hpre, Hout.
  split; [done|]. split; [done|]. split; [done|]. split; [by exists cep|].
  intros Hdone. rewrite (stdout_split _ _ _ Hc).
  rewrite (exited_return _ _ _ Hp0) in Hdone.
  by rewrite (Hout _ Hcep Hdone).
Qed.

(** ** The comparison goroutine *)

Lemma at_report_step cd tid a p out m c e p' c1 :
  at_report tid p out m c →
  perform cd tid a p c = Some (e, p', c1) →
  is_lock p = false → is_unlock p = false → is_wg_done p = false →
  match p with WgAdd _ _ | MapStore _ _ _ | Go _ _ => False | _ => True end →
  ∃ c', step cd (Run tid a) c = Some c' ∧
        at_report tid p' (out ++ outputs [e]) m c'.
Proof.
  intros (Htid & Hex & Hpan & Ht & Hout & Hm) Hp Hl Hu Hd Hk.
  eexists. split.
  { unfold step. by rewrite Hex, Hpan, Ht, Hp. }
  assert (Hlt : (tid < length (threads c))%nat) by by eapply lookup_lt_Some.
  pose proof (perform_threads _ _ _ _ _ _ _ _ Hp) as Hths.
  pose proof (perform_stdout _ _ _ _ _ _ _ _ Hp) as Hso.
  destruct (perform_results _ _ _ _ _ _ _ _ Hp) as (Hres & _).
  destruct (perform_wg _ _ _ _ _ _ _ _ Hp) as (Hpan' & _).
  pose proof (perform_next _ _ _ _ _ _ _ _ Hp) as Hn.
  assert (He : match e with
               | EWgAdd _ | EWgDone | EUnlock | EMapStore _ _ | EGo _ => False
               | _ => True
               end).
  { destruct p; try done; destruct e; try done; simpl in Hn;
      repeat case_match; simplify_eq. }
  repeat split; simpl.
  - done.
  - unfold exited in *. simpl. rewrite Hths.
    by rewrite list_lookup_insert_ne, lookup_app_l by lia.
  - rewrite Hpan', Hpan. by destruct e.
  - rewrite Hths. apply list_lookup_insert_eq. rewrite length_app. lia.
  - by rewrite Hso, Hout.
  - rewrite Hres, Hm. by destruct e.
Qed.

(** The comparison loop on two entries with different durations, in
    either iteration order. *)
Lemma compare_two n1 n2 d1 d2 :
  n1 ≠ "" → n2 ≠ "" → d1 < d2 →
  Timed.compare_all [(n1, d1); (n2, d2)] = Timed.mkExtremes n1 n2 d1 d2 ∧
  Timed.compare_all [(n2, d2); (n1, d1)] = Timed.mkExtremes n1 n2 d1 d2.
Proof.
  intros H1 H2 Hlt. unfold Timed.compare_all, Timed.compare_entry. simpl.
  split; repeat (case_bool_decide; simpl in *; try done; try lia).
Qed.

Lemma two_entries (n1 n2 : string) (d1 d2 : Z) (l : list (string * Z)) :
  n1 ≠ n2 →
  l ≡ₚ map_to_list (<[n1 := d1]> (<[n2 := d2]> (∅ : gmap string Z))) →
  l = [(n1, d1); (n2, d2)] ∨ l = [(n2, d2); (n1, d1)].
Proof.
  intros Hne Hl.
  rewrite map_to_list_insert in Hl by by simplify_map_eq.
  rewrite map_to_list_insert, map_to_list_empty in Hl by done.
  symmetry in Hl. by apply Permutation_length_2_inv in Hl.
Qed.

(** In the timing variant, when the comparison goroutine reads a timing
    map holding two entries with different durations, it prints as the
    fastest the entry with the smaller duration, as the slowest the entry
    with the larger one, and as the difference the slowest's seconds minus
    the fastest's seconds, whatever the order in which the map is visited,
    followed by one line per entry; when the map holds fewer than two
    entries it prints the comparison-unavailable message and nothing else. *)
Lemma comparison_printed c tid :
  at_report tid (defer (Unlock ;; Return)%prog Timed.compare_timings)
    (stdout c) (timingResults c) c →
  (∀ n1 n2 d1 d2 o1 o2,
     timingResults c = <[n1 := d1]> (<[n2 := d2]> ∅) →
     n1 ≠ n2 → n1 ≠ "" → n2 ≠ "" → d1 < d2 →
     o1 ≡ₚ map_to_list (timingResults c) →
     o2 ≡ₚ map_to_list (timingResults c) →
     ∃ c',
       run (code TimedVariant)
         [Run tid ANone; Run tid (AOrder o1); Run tid ANone; Run tid ANone;
          Run tid ANone; Run tid (AOrder o2); Run tid ANone; Run tid ANone] c
       = Some c' ∧
       at_report tid (Unlock Return)
         (stdout c ++
          [OutPrintf Timed.fastest_format [VString n1; VFloat64 (Seconds d1)];
           OutPrintf Timed.slowest_format [VString n2; VFloat64 (Seconds d2)];
           OutPrintf Timed.difference_format
             [VFloat64 (F64Sub (Seconds d2) (Seconds d1))]] ++
          ((fun e => OutPrintf Timed.entry_format
                       [VString e.1; VFloat64 (Seconds e.2)]) <$> o2))
         (timingResults c) c') ∧
  ((size (timingResults c) < 2)%nat →
     ∃ c',
       run (code TimedVariant) [Run tid ANone; Run tid ANone] c = Some c' ∧
       at_report tid (Unlock Return)
         (stdout c ++ [OutPrintln Timed.unavailable_message])
         (timingResults c) c').
Proof.
  intros Hat. remember (code TimedVariant) as cd eqn:Hcd. clear Hcd. split.
  - intros n1 n2 d1 d2 o1 o2 Hm Hne Hn1 Hn2 Hlt Ho1 Ho2.
    assert (Hsize : size (timingResults c) = 2%nat).
    { rewrite Hm, map_size_insert_None by by simplify_map_eq.
      by rewrite map_size_insert_None, map_size_empty. }
    destruct (compare_two _ _ _ _ Hn1 Hn2 Hlt) as [Hc1 Hc2].
    assert (Hx : Timed.compare_all o1 = Timed.mkExtremes n1 n2 d1 d2).
    { rewrite Hm in Ho1.
      by destruct (two_entries _ _ _ _ _ Hne Ho1) as [-> | ->]. }
    unfold defer, Timed.compare_timings in Hat. simpl in Hat.
    edestruct (at_report_step cd tid ANone) as (c1 & Hs1 & Hat1);
      [exact Hat|reflexivity|done..|].
    rewrite Hsize in Hat1. simpl in Hat1.
    edestruct (at_report_step cd tid (AOrder o1))
      as (c2 & Hs2 & Hat2); [exact Hat1| |done..|].
    { simpl. destruct Hat1 as (_&_&_&_&_&->).
      by rewrite bool_decide_eq_true_2. }
    rewrite Hx in Hat2. simpl in Hat2.
    edestruct (at_report_step cd tid ANone) as (c3 & Hs3 & Hat3);
      [exact Hat2|reflexivity|done..|].
    edestruct (at_report_step cd tid ANone) as (c4 & Hs4 & Hat4);
      [exact Hat3|reflexivity|done..|].
    edestruct (at_report_step cd tid ANone) as (c5 & Hs5 & Hat5);
      [exact Hat4|reflexivity|done..|].
    edestruct (at_report_step cd tid (AOrder o2))
      as (c6 & Hs6 & Hat6); [exact Hat5| |done..|].
    { simpl. destruct Hat5 as (_&_&_&_&_&->).
      by rewrite bool_decide_eq_true_2. }
    simpl in Hat6. rewrite seq_print_entries in Hat6. simpl in Hat6.
    rewrite Hm in Ho2.
    destruct (two_entries _ _ _ _ _ Hne Ho2) as [Heq|Heq]; rewrite Heq in Hat6 |- *;
      simpl in Hat6;
      (edestruct (at_report_step cd tid ANone)
         as (c7 & Hs7 & Hat7); [exact Hat6|reflexivity|done..|]);
      (edestruct (at_report_step cd tid ANone)
         as (c8 & Hs8 & Hat8); [exact Hat7|reflexivity|done..|]);
      exists c8; simpl; rewrite Hs1, Hs2, Hs3, Hs4, Hs5;
      rewrite <- Heq at 1; rewrite Hs6, Hs7, Hs8; (split; [done|]);
      simpl in Hat8; by rewrite <- !(assoc_L (++)) in Hat8.
  - intros Hsize. unfold defer, Timed.compare_timings in Hat. simpl in Hat.
    edestruct (at_report_step cd tid ANone) as (c1 & Hs1 & Hat1);
      [exact Hat|reflexivity|done..|].
    simpl in Hat1. rewrite bool_decide_eq_false_2 in Hat1 by lia.
    simpl in Hat1.
    edestruct (at_report_step cd tid ANone) as (c2 & Hs2 & Hat2);
      [exact Hat1|reflexivity|done..|].
    exists c2. simpl. rewrite Hs1, Hs2. split; [done|].
    simpl in Hat2. by rewrite app_nil_r in Hat2.
Qed.

(** ** The theorems on the sample runs *)


Lemma C3_exactly_one_response_per_task_witness :
  (reachable TimedVariant sample_args cfg_send) ∧
  (threads cfg_send !! 1%nat = Some ((GFetchBrasilAPI "01153000"), (prog_of cfg_send 1))) ∧
  (is_fetch (GFetchBrasilAPI "01153000") = true) ∧
  ((length (sends (local 1%nat (trace cfg_send))) ≤ 1)%nat ∧
  (is_send (prog_of cfg_send 1) = true → sends (local 1%nat (trace cfg_send)) = []) ∧
  (is_return (prog_of cfg_send 1) = true → length (sends (local 1%nat (trace cfg_send))) = 1%nat) ∧
  all_sends (trace cfg_send) ≡ₚ sends (local 1 (trace cfg_send)) ++ sends (local 2 (trace cfg_send)) ∧
  (∀ w, exited cfg_send = false →
     timingMutex cfg_send = None ∨ timingMutex cfg_send = Some 1%nat →
     ∃ c', drive (code TimedVariant) w 1%nat 12 cfg_send = Some c' ∧
           reachable TimedVariant sample_args c' ∧
           threads c' !! 1%nat = Some ((GFetchBrasilAPI "01153000"), Return) ∧
           length (sends (local 1%nat (trace c'))) = 1%nat)).
Proof.
  assert (H1 : reachable TimedVariant sample_args cfg_send)
    by (exists sched_send; vm_compute; reflexivity).
  assert (H2 : threads cfg_send !! 1%nat = Some ((GFetchBrasilAPI "01153000"), (prog_of cfg_send 1)))
    by (vm_compute; reflexivity).
  assert (H3 : is_fetch (GFetchBrasilAPI "01153000") = true)
    by (vm_compute; reflexivity).
  split; [exact H1|].
  split; [exact H2|].
  split; [exact H3|].
  exact (C3_exactly_one_response_per_task TimedVariant sample_args cfg_send 1%nat ((GFetchBrasilAPI "01153000")) ((prog_of cfg_send 1)) H1 H2 H3).
Defined.

Lemma C6_timing_recorded_only_on_success_witness :
  (reachable TimedVariant sample_args cfg_both_ok) ∧
  (threads cfg_both_ok !! 2%nat = Some ((GFetchViaCEP "01153000"), (prog_of cfg_both_ok 2))) ∧
  (is_fetch (GFetchViaCEP "01153000") = true) ∧
  (let evs := local 2%nat (trace cfg_both_ok) in
  (stores evs = [] ∨ ∃ d, stores evs = [(backend_name (GFetchViaCEP "01153000"), d)]) ∧
  (∀ key d k, (prog_of cfg_both_ok 2) = MapStore key d k →
     key = backend_name (GFetchViaCEP "01153000") ∧ timingMutex cfg_both_ok = Some 2%nat ∧ sends evs = []) ∧
  Forall (fun r =>
    (Error r = None → stores (before_send evs) = [(backend_name (GFetchViaCEP "01153000"), Duration r)]) ∧
    (Error r ≠ None → stores evs = [] ∧ timingResults cfg_both_ok !! backend_name (GFetchViaCEP "01153000") = None))
    (sends evs) ∧
  timingResults cfg_both_ok !! backend_name (GFetchViaCEP "01153000") = snd <$> head (stores evs) ∧
  stores (local 0 (trace cfg_both_ok)) = [] ∧ stores (local 3 (trace cfg_both_ok)) = []).
Proof.
  assert (H1 : reachable TimedVariant sample_args cfg_both_ok)
    by (exists sched_both_ok; vm_compute; reflexivity).
  assert (H2 : threads cfg_both_ok !! 2%nat = Some ((GFetchViaCEP "01153000"), (prog_of cfg_both_ok 2)))
    by (vm_compute; reflexivity).
  assert (H3 : is_fetch (GFetchViaCEP "01153000") = true)
    by (vm_compute; reflexivity).
  split; [exact H1|].
  split; [exact H2|].
  split; [exact H3|].
  exact (C6_timing_recorded_only_on_success sample_args cfg_both_ok 2%nat ((GFetchViaCEP "01153000")) ((prog_of cfg_both_ok 2)) H1 H2 H3).
Defined.

Lemma C9_timing_map_writes_are_exclusive_and_kept_witness :
  (reachable TimedVariant sample_args cfg_both_ok) ∧
  ((∀ tid g p, threads cfg_both_ok !! tid = Some (g, p) → is_map_access p = true →
     timingMutex cfg_both_ok = Some tid) ∧
  (∀ tid tid' g g' p p',
     threads cfg_both_ok !! tid = Some (g, p) → threads cfg_both_ok !! tid' = Some (g', p') →
     is_map_access p = true → is_map_access p' = true → tid = tid') ∧
  (∀ tid key d, tid = 1%nat ∨ tid = 2%nat →
     (key, d) ∈ stores (local tid (trace cfg_both_ok)) →
     timingResults cfg_both_ok !! key = Some d) ∧
  (∀ tid g p, threads cfg_both_ok !! tid = Some (g, p) → is_fetch g = true →
     is_return p = true → ∀ r, r ∈ sends (local tid (trace cfg_both_ok)) →
     Error r = None → TimedVariant = TimedVariant →
     timingResults cfg_both_ok !! backend_name g = Some (Duration r)) ∧
  (∀ tid g p, threads cfg_both_ok !! tid = Some (g, p) → is_network p = true →
     timingMutex cfg_both_ok ≠ Some tid)).
Proof.
  assert (H1 : reachable TimedVariant sample_args cfg_both_ok)
    by (exists sched_both_ok; vm_compute; reflexivity).
  split; [exact H1|].
  exact (C9_timing_map_writes_are_exclusive_and_kept TimedVariant sample_args cfg_both_ok H1).
Defined.

Lemma C8_address_fields_are_mapped_in_order_witness :
  (reachable TimedVariant sample_args cfg_both_ok) ∧
  (selected (local 0 (trace cfg_both_ok)) = [Some sample_response]) ∧
  (Error sample_response = None) ∧
  (Data sample_response = Some (PBrasilAPICEP sample_brasilapi)) ∧
  ((∀ d, address_line (PBrasilAPICEP d) =
        OutPrintf address_format
          [VString (BrasilAPICEP.Cep d); VString (BrasilAPICEP.State d);
           VString (BrasilAPICEP.City d); VString (BrasilAPICEP.Neighborhood d);
           VString (BrasilAPICEP.Street d)]) ∧
  (∀ d, address_line (PViaCEP d) =
        OutPrintf address_format
          [VString (ViaCEP.Cep d); VString (ViaCEP.Uf d);
           VString (ViaCEP.Localidade d); VString (ViaCEP.Bairro d);
           VString (ViaCEP.Logradouro d)]) ∧
  (∀ cep state city neighborhood street,
     sprintf_strings address_format [cep; state; city; neighborhood; street] =
     Some ("CEP: " +:+ cep +:+ nl +:+ "Estado: " +:+ state +:+ nl +:+
           "Cidade: " +:+ city +:+ nl +:+ "Bairro: " +:+ neighborhood +:+ nl +:+
           "Rua: " +:+ street +:+ nl)) ∧
  (∃ cep, cep_of sample_args = Some cep ∧
     outputs (local 0 (trace cfg_both_ok)) `prefix_of`
       [OutPrintf searching_format [VString cep]; winner_line TimedVariant sample_response;
        address_line (PBrasilAPICEP sample_brasilapi)]) ∧
  (exited cfg_both_ok = true ∨ GTimingReport ∈ gos (local 0 (trace cfg_both_ok)) →
     stdout cfg_both_ok !! 2%nat = Some (address_line (PBrasilAPICEP sample_brasilapi)))).
Proof.
  assert (H1 : reachable TimedVariant sample_args cfg_both_ok)
    by (exists sched_both_ok; vm_compute; reflexivity).
  assert (H2 : selected (local 0 (trace cfg_both_ok)) = [Some sample_response])
    by (vm_compute; reflexivity).
  assert (H3 : Error sample_response = None)
    by (vm_compute; reflexivity).
  assert (H4 : Data sample_response = Some (PBrasilAPICEP sample_brasilapi))
    by (vm_compute; reflexivity).
  split; [exact H1|].
  split; [exact H2|].
  split; [exact H3|].
  split; [exact H4|].
  exact (C8_address_fields_are_mapped_in_order TimedVariant sample_args cfg_both_ok sample_response ((PBrasilAPICEP sample_brasilapi)) H1 H2 H3 H4).
Defined.

(** ** Beyond the race: start-up, shutdown and the shared objects *)

Lemma main_without_argument v args :
  (length args < 2)%nat → code v (GMain args) = Println usage_message Return.
Proof. intros H. destruct v, args as [|? [|? ?]]; simpl in *; done || lia. Qed.

(** Called without a postal code, the program prints the usage line and
    returns: [main] is the only goroutine there ever is, the usage line is
    the only thing done and printed, and the first step of [main] ends the
    process. *)
Theorem usage_without_argument v args c :
  reachable v args c → (length args < 2)%nat →
  (trace c = [] ∧ stdout c = [] ∧
   threads c = [(GMain args, Println usage_message Return)] ∧
   ∀ a, ∃ c', step (code v) (Run 0 a) c = Some c' ∧ exited c' = true ∧
              stdout c' = [OutPrintln usage_message]) ∨
  (trace c = [(0%nat, EPrintln usage_message)] ∧
   stdout c = [OutPrintln usage_message] ∧
   threads c = [(GMain args, Return)] ∧ exited c = true).
Proof.
  intros Hc Hlen. pose proof (main_without_argument v args Hlen) as Hmain.
  assert (Hshape :
    (trace c = [] ∧ stdout c = [] ∧ panicked c = false ∧
     threads c = [(GMain args, Println usage_message Return)]) ∨
    (trace c = [(0%nat, EPrintln usage_message)] ∧
     stdout c = [OutPrintln usage_message] ∧
     threads c = [(GMain args, Return)])).
  { induction Hc as [|l c c' _ IH Hstep] using reachable_ind'.
    - left. simpl. by rewrite Hmain.
    - destruct IH as [(Htr & Hout & Hpan & Hth)|(Htr & Hout & Hth)].
      + destruct l as [dt|tid a].
        * apply step_Tick_inv in Hstep as (_ & _ & _ & ->). by left.
        * unfold step in Hstep. unfold exited in Hstep. rewrite Hth, Hpan in Hstep.
          simpl in Hstep. destruct tid as [|tid]; simpl in Hstep; [|done].
          simplify_eq. right. simpl. by rewrite Htr, Hout, Hth.
      + unfold step, exited in Hstep. by rewrite Hth in Hstep. }
  destruct Hshape as [(Htr & Hout & Hpan & Hth)|(Htr & Hout & Hth)].
  - left. repeat split; try done. intros a. eexists.
    unfold step, exited. rewrite Hth, Hpan. simpl. split; [done|].
    unfold exited. simpl. rewrite Hth, Hout. done.
  - right. repeat split; try done. unfold exited. by rewrite Hth.
Qed.

Lemma usage_without_argument_witness :
  reachable PlainVariant ["cep"] (init (code PlainVariant) ["cep"]) ∧
  (length ["cep"] < 2)%nat ∧
  ((trace (init (code PlainVariant) ["cep"]) = [] ∧
    stdout (init (code PlainVariant) ["cep"]) = [] ∧
    threads (init (code PlainVariant) ["cep"]) =
      [(GMain ["cep"], Println usage_message Return)] ∧
    ∀ a, ∃ c', step (code PlainVariant) (Run 0 a) (init (code PlainVariant) ["cep"])
                 = Some c' ∧ exited c' = true ∧
               stdout c' = [OutPrintln usage_message]) ∨
   (trace (init (code PlainVariant) ["cep"]) = [(0%nat, EPrintln usage_message)] ∧
    stdout (init (code PlainVariant) ["cep"]) = [OutPrintln usage_message] ∧
    threads (init (code PlainVariant) ["cep"]) = [(GMain ["cep"], Return)] ∧
    exited (init (code PlainVariant) ["cep"]) = true)).
Proof.
  assert (H1 : reachable PlainVariant ["cep"] (init (code PlainVariant) ["cep"]))
    by (exists []; reflexivity).
  assert (H2 : (length ["cep"] < 2)%nat) by (simpl; lia).
  split; [exact H1|]. split; [exact H2|].
  exact (usage_without_argument PlainVariant ["cep"] _ H1 H2).
Defined.

(** The two run-time panics of the synchronisation objects never happen:
    the wait-group counter stays between 0 and 2 and is positive whenever a
    goroutine is about to call [Done], and a goroutine about to unlock the
    mutex is the one holding it. *)
Theorem no_runtime_panic v args c :
  reachable v args c →
  panicked c = false ∧
  0 ≤ wg c ≤ 2 ∧
  (∀ tid g k, threads c !! tid = Some (g, WgDone k) → 1 ≤ wg c) ∧
  (∀ tid g k, threads c !! tid = Some (g, Unlock k) → timingMutex c = Some tid) ∧
  (∀ tid g p, threads c !! tid = Some (g, p) → timingMutex c = Some tid →
     is_return p = false).
Proof.
  intros Hc. destruct (reachable_inv _ _ _ Hc) as [Hg Hr].
  destruct (main_replay _ _ _ Hg) as (p0 & Ht0 & Hrep0).
  destruct (main_spawns _ _ _ _ Hrep0) as (_ & _ & _ & _ & Hadds & Hgo).
  pose proof (fetch_thread_dones _ _ _ 1 Hg Hr (or_introl eq_refl)) as Hd1.
  pose proof (fetch_thread_dones _ _ _ 2 Hg Hr (or_intror eq_refl)) as Hd2.
  pose proof (ri_wg _ Hr) as Hwg.
  assert (Hno : wg_adds (local 0 (trace c)) = [] →
    wg_dones (local 1 (trace c)) = [] ∧ wg_dones (local 2 (trace c)) = []).
  { intros Ha.
    assert (Hk : ∀ k, k = 1%nat ∨ k = 2%nat → wg_dones (local k (trace c)) = []).
    { intros k Hk. destruct (fetch_thread _ _ _ k Hg Hr Hk) as [->|Hex]; [done|].
      destruct Hex as (g & p & Ht & Hf & _ & Hrep).
      destruct (fetch_wg _ _ _ _ Hf Hrep) as (_ & _ & Hplain).
      destruct v; [|by apply Hplain]. exfalso.
      assert (Hgos : gos (local 0 (trace c)) ≠ []).
      { destruct Hk as [-> | ->]; by eapply worker_exists. }
      specialize (Hgo Hgos eq_refl). congruence. }
    split; apply Hk; auto. }
  assert (Hheld : ∀ tid g p, threads c !! tid = Some (g, p) →
    locked (bool_decide (timingMutex c = Some tid)) p).
  { intros tid g p Ht. rewrite <- (ri_mutex _ Hr).
    eapply locked_replay; [apply code_locked|]. by eapply gi_replay. }
  split; [apply Hr|]. split; [|split; [|split]].
  - destruct Hadds as [Ha|[Ha _]]; rewrite Ha in Hwg; simpl in Hwg.
    + destruct (Hno Ha) as [H1 H2]. rewrite H1, H2 in Hwg. simpl in Hwg. lia.
    + lia.
  - intros tid g k Ht.
    pose proof (gi_replay _ _ _ Hg _ _ _ Ht) as Hrep.
    destruct (decide (tid = 0%nat)) as [->|Hne].
    { rewrite Ht0 in Ht. simplify_eq.
      by destruct (main_quiet _ _ _ _ Hrep0) as (_&_&_&_&_&?&_). }
    destruct tid as [|tid]; [done|].
    pose proof (thread_identity _ _ _ _ _ _ Hg Hr Ht) as (cep & _ & Hid).
    assert (Hgos : gos (local 0 (trace c)) ≠ []) by by eapply worker_exists.
    destruct tid as [|[|[|tid]]]; [| |destruct Hid as [-> ->]|done].
    + subst g.
      destruct (fetch_wg v (GFetchBrasilAPI cep) _ _ eq_refl Hrep) as (_ & Hat & _).
      destruct (Hat eq_refl) as [Hnone Hv]. rewrite (Hgo Hgos Hv) in Hwg.
      rewrite Hnone in Hwg. simpl in Hwg. lia.
    + subst g.
      destruct (fetch_wg v (GFetchViaCEP cep) _ _ eq_refl Hrep) as (_ & Hat & _).
      destruct (Hat eq_refl) as [Hnone Hv]. rewrite (Hgo Hgos Hv) in Hwg.
      rewrite Hnone in Hwg. simpl in Hwg. lia.
    + destruct (all_events_replay _ _ _ _ (code_report_events _) Hrep) as [_ Hev].
      simpl in Hev. by destruct Hev as [[_ ?] _].
  - intros tid g k Ht. specialize (Hheld _ _ _ Ht).
    destruct (locked_head _ _ Hheld) as (_ & Hu & _).
    specialize (Hu eq_refl). by apply bool_decide_eq_true in Hu.
  - intros tid g p Ht Hm. specialize (Hheld _ _ _ Ht).
    destruct (locked_head _ _ Hheld) as (_ & _ & _ & _ & Hret).
    destruct (is_return p); [|done]. specialize (Hret eq_refl).
    by rewrite bool_decide_eq_true_2 in Hret.
Qed.

Lemma no_runtime_panic_witness :
  reachable TimedVariant sample_args cfg_report ∧
  (panicked cfg_report = false ∧
   0 ≤ wg cfg_report ≤ 2 ∧
   (∀ tid g k, threads cfg_report !! tid = Some (g, WgDone k) → 1 ≤ wg cfg_report) ∧
   (∀ tid g k, threads cfg_report !! tid = Some (g, Unlock k) →
      timingMutex cfg_report = Some tid) ∧
   (∀ tid g p, threads cfg_report !! tid = Some (g, p) →
      timingMutex cfg_report = Some tid → is_return p = false)).
Proof.
  assert (H1 : reachable TimedVariant sample_args cfg_report)
    by (exists sched_report; vm_compute; reflexivity).
  split; [exact H1|].
  exact (no_runtime_panic TimedVariant sample_args cfg_report H1).
Defined.

(** [defer cancel()]: [main] cancels once, as the last thing it does on
    every path that made a context, and never before. *)
Lemma main_cancel v args evs p :
  replay (code v (GMain args)) evs = Some p →
  (is_return p = false → cancels evs = []) ∧
  (is_return p = true → is_Some (cep_of args) →
     cancels evs = [()] ∧ last evs = Some ECancel) ∧
  (cep_of args = None → cancels evs = [] ∧ deadlines evs = []).
Proof.
  intros H. explore_main H v.
  all: repeat split; try done.
  all: try by intros _ [? ?].
Qed.

(** The goroutines other than [main] leave the context alone. *)
Lemma worker_trace_quiet v args c tid :
  reachable v args c → tid ≠ 0%nat →
  Forall worker_event (local tid (trace c)).
Proof.
  intros Hc Hne. destruct (reachable_inv _ _ _ Hc) as [Hg Hr].
  destruct (threads c !! tid) as [[g p]|] eqn:Ht.
  - pose proof (gi_replay _ _ _ Hg _ _ _ Ht) as Hrep.
    destruct tid as [|tid]; [done|].
    pose proof (thread_identity _ _ _ _ _ _ Hg Hr Ht) as (cep & _ & Hid).
    eapply all_events_replay; [|done]. apply code_worker_events.
    destruct tid as [|[|[|tid]]]; [by subst|by subst|by destruct Hid as [_ ->]|done].
  - rewrite (gi_bound _ _ _ Hg); [done|]. by apply lookup_ge_None.
Qed.

(** [defer cancel()] in [main]: while [main] runs, nothing has cancelled
    the context, so a Lookup Task can only be interrupted by the deadline;
    once [main] has returned, with a postal code given, the context has
    been cancelled exactly once, by the last operation of [main]. No other
    goroutine ever cancels. *)
Theorem deferred_cancel_runs_on_every_return v args c :
  reachable v args c → is_Some (cep_of args) →
  (exited c = false →
     ctx_cancelled c = false ∧ cancels (local 0 (trace c)) = []) ∧
  (exited c = true →
     ctx_cancelled c = true ∧ ctx_done c = true ∧
     cancels (local 0 (trace c)) = [()] ∧
     last (local 0 (trace c)) = Some ECancel) ∧
  (∀ tid, tid ≠ 0%nat → cancels (local tid (trace c)) = []).
Proof.
  intros Hc Hcep. destruct (reachable_inv _ _ _ Hc) as [Hg Hr].
  destruct (main_replay _ _ _ Hg) as (p0 & Ht0 & Hrep0).
  destruct (main_cancel _ _ _ _ Hrep0) as (Hrun & Hret & _).
  pose proof (ri_cancelled _ Hr) as Hcan.
  rewrite (exited_return _ _ _ Ht0).
  split; [|split].
  - intros Hex. specialize (Hrun Hex). rewrite Hrun in Hcan |- *.
    by rewrite bool_decide_eq_false_2 in Hcan by (by intros []).
  - intros Hex. destruct (Hret Hex Hcep) as [Hcs Hlast].
    rewrite Hcs in Hcan. rewrite bool_decide_eq_true_2 in Hcan by done.
    unfold ctx_done. by rewrite Hcan.
  - intros tid Hne.
    by destruct (worker_events_quiet _ (worker_trace_quiet _ _ _ _ Hc Hne))
      as (_&_&_&_&_&_&?).
Qed.

Lemma deferred_cancel_runs_on_every_return_witness :
  reachable TimedVariant sample_args cfg_failure ∧
  is_Some (cep_of sample_args) ∧
  ((exited cfg_failure = false →
      ctx_cancelled cfg_failure = false ∧
      cancels (local 0 (trace cfg_failure)) = []) ∧
   (exited cfg_failure = true →
      ctx_cancelled cfg_failure = true ∧ ctx_done cfg_failure = true ∧
      cancels (local 0 (trace cfg_failure)) = [()] ∧
      last (local 0 (trace cfg_failure)) = Some ECancel) ∧
   (∀ tid, tid ≠ 0%nat → cancels (local tid (trace cfg_failure)) = [])).
Proof.
  assert (H1 : reachable TimedVariant sample_args cfg_failure)
    by (exists sched_failure; vm_compute; reflexivity).
  assert (H2 : is_Some (cep_of sample_args)) by (eexists; reflexivity).
  split; [exact H1|]. split; [exact H2|].
  exact (deferred_cancel_runs_on_every_return TimedVariant sample_args
           cfg_failure H1 H2).
Defined.

(** The goroutines of a run: [main] first, then the BrasilAPI task and the
    ViaCEP task, both for the postal code [os.Args[1]], then, in the timing
    variant only and at most once, the comparison goroutine; nothing else
    is ever started, and the pool never shrinks below what was started. *)
Theorem goroutines_started_in_order v args c :
  reachable v args c →
  ∃ started,
    (fst <$> threads c) = GMain args :: started ∧
    started = gos (local 0 (trace c)) ∧
    match cep_of args with
    | None => started = []
    | Some cep =>
        started `prefix_of`
          [GFetchBrasilAPI cep; GFetchViaCEP cep; GTimingReport] ∧
        (v = PlainVariant → (length started ≤ 2)%nat)
    end ∧
    (started ≠ [] →
       chan_cap c = 2%nat ∧ (∃ t, ctx_deadline c = Some t) ∧
       (v = TimedVariant → wg_adds (local 0 (trace c)) = [2])).
Proof.
  intros Hc. destruct (reachable_inv _ _ _ Hc) as [Hg Hr].
  destruct (main_replay _ _ _ Hg) as (p0 & Ht0 & Hrep0).
  destruct (main_spawns _ _ _ _ Hrep0) as (Hgos & _ & Hmk & _ & _ & Hadd).
  destruct (main_context _ _ _ _ Hrep0) as (Hdl & _ & Hgd & _).
  exists (gos (local 0 (trace c))). split; [|split; [done|split]].
  - by rewrite (gi_pool _ _ _ Hg), (ri_gos _ Hr).
  - destruct (cep_of args) as [cep|]; [|done].
    destruct Hgos as [->|[->|[->|[-> ->]]]].
    + split; [by eexists|simpl; lia].
    + split; [by eexists|simpl; lia].
    + split; [by eexists|simpl; lia].
    + split; [by eexists|done].
  - intros Hne. split; [|split].
    + rewrite (ri_cap _ Hr), (Hmk Hne). done.
    + rewrite (ri_deadline _ Hr).
      destruct Hdl as [Hd|[t Hd]]; [by destruct (Hgd Hne)|].
      rewrite Hd. by eexists.
    + intros ->. by apply Hadd.
Qed.

Lemma goroutines_started_in_order_witness :
  reachable TimedVariant sample_args cfg_both_ok ∧
  ∃ started,
    (fst <$> threads cfg_both_ok) = GMain sample_args :: started ∧
    started = gos (local 0 (trace cfg_both_ok)) ∧
    match cep_of sample_args with
    | None => started = []
    | Some cep =>
        started `prefix_of`
          [GFetchBrasilAPI cep; GFetchViaCEP cep; GTimingReport] ∧
        (TimedVariant = PlainVariant → (length started ≤ 2)%nat)
    end ∧
    (started ≠ [] →
       chan_cap cfg_both_ok = 2%nat ∧ (∃ t, ctx_deadline cfg_both_ok = Some t) ∧
       (TimedVariant = TimedVariant →
          wg_adds (local 0 (trace cfg_both_ok)) = [2])).
Proof.
  assert (H1 : reachable TimedVariant sample_args cfg_both_ok)
    by (exists sched_both_ok; vm_compute; reflexivity).
  split; [exact H1|].
  exact (goroutines_started_in_order TimedVariant sample_args cfg_both_ok H1).
Defined.

(** ** The external calls of a Lookup Task *)

(** [defer resp.Body.Close()]: the body is closed at most once, only the
    body of the response [client.Do] returned, only after the task has
    sent, and always before the task returns or signals the wait group. *)
Lemma fetch_close v g evs p :
  is_fetch g = true → replay (code v g) evs = Some p →
  (length (responses evs) ≤ 1)%nat ∧
  (closes evs = [] ∨ closes evs = Body <$> responses evs) ∧
  (closes evs ≠ [] → length (sends evs) = 1%nat) ∧
  (is_return p = true ∨ wg_dones evs ≠ [] ∨ is_wg_done p = true →
     closes evs = Body <$> responses evs) ∧
  (∀ b k, p = BodyClose b k →
     length (sends evs) = 1%nat ∧ closes evs = [] ∧
     ∃ resp, responses evs = [resp] ∧ b = Body resp).
Proof.
  intros Hg H. explore_fetch H v g.
  all: split; [simpl; lia|].
  all: split; [first [by left|by right]|].
  all: split; [done|].
  all: split; [intros [?|[?|?]]; done|].
  all: intros b k ?; simplify_eq; eauto.
Qed.

(** The request of a Lookup Task: built once, a GET of the backend's URL
    for the task's postal code, and the only request handed to
    [client.Do]. *)
Lemma fetch_request v g evs p :
  is_fetch g = true → replay (code v g) evs = Some p →
  (new_requests evs = [] ∨ new_requests evs = [(MethodGet, url_of g)]) ∧
  (∀ m u k, p = NewRequestWithContext m u k →
     m = MethodGet ∧ u = url_of g ∧ new_requests evs = []) ∧
  (∀ req r, EClientDo req r ∈ evs →
     ENewRequestWithContext MethodGet (url_of g) (inr req) ∈ evs) ∧
  (∀ req k, p = ClientDo req k →
     ENewRequestWithContext MethodGet (url_of g) (inr req) ∈ evs ∧
     requests evs = []).
Proof.
  intros Hg H. explore_fetch H v g.
  all: split; [first [by left|by right]|].
  all: split; [intros ???; intros; simplify_eq; done|].
  all: split; [intros ?? Hin; elem_of_cases; by repeat constructor|].
  all: intros ?? ?; simplify_eq; (split; [by repeat constructor|done]).
Qed.

(** From the response to the payload: the body read is the body of the
    response received, read only when its status is 200; what is decoded is
    what was read; the data sent is what was decoded, of the backend's own
    type; and a response is sent without error exactly when the decoding
    succeeded. *)
Lemma fetch_payload v g evs p :
  is_fetch g = true → replay (code v g) evs = Some p →
  Forall (fun r => Data r = head (decoded evs) ∧
                   (Error r = None ↔ decoded evs ≠ [])) (sends evs) ∧
  Forall (fun data => payload_of g data = true) (decoded evs) ∧
  (length (decoded evs) ≤ 1)%nat ∧
  (∀ req resp h x, EClientDo req (inr resp) ∈ evs → EReadAll h x ∈ evs →
     h = Body resp ∧ StatusCode resp = StatusOK) ∧
  (∀ h body b, EReadAll h (inr body) ∈ evs →
     (∃ x, EUnmarshalBrasilAPICEP b x ∈ evs) ∨
     (∃ x, EUnmarshalViaCEP b x ∈ evs) → b = body) ∧
  (∀ h err b, EReadAll h (inl err) ∈ evs →
     (∃ x, EUnmarshalBrasilAPICEP b x ∈ evs) ∨
     (∃ x, EUnmarshalViaCEP b x ∈ evs) → False).
Proof.
  intros Hg H. explore_fetch H v g.
  all: split; [by repeat constructor|].
  all: split; [by repeat constructor|].
  all: split; [simpl; lia|].
  all: split; [intros ???? Hin1 Hin2; elem_of_cases; use_cases; try done;
               (split; [done|by apply dec_stable])|].
  all: split; [intros ??? Hin1 [[? Hin2]|[? Hin2]]; by elem_of_cases|].
  all: intros ??? Hin1 [[? Hin2]|[? Hin2]]; by elem_of_cases.
Qed.

Lemma string_length_app s t :
  String.length (s +:+ t) = (String.length s + String.length t)%nat.
Proof.
  induction s as [|a s IH]; [done|].
  change (String a s +:+ t) with (String a (s +:+ t)). simpl. by rewrite IH.
Qed.

Lemma string_app_inv_tail s1 s2 t : s1 +:+ t = s2 +:+ t → s1 = s2.
Proof.
  revert s2. induction s1 as [|a s1 IH]; intros [|b s2] H; [done| | |].
  - apply (f_equal String.length) in H.
    rewrite !string_length_app in H. simpl in H. lia.
  - apply (f_equal String.length) in H.
    rewrite !string_length_app in H. simpl in H. lia.
  - change (String a (s1 +:+ t) = String b (s2 +:+ t)) in H.
    injection H as -> H. f_equal. by apply IH.
Qed.

(** The URL of each backend determines the postal code, and no URL of one
    backend is a URL of the other. *)
Lemma url_inj cep cep' :
  (brasilapi_url cep = brasilapi_url cep' → cep = cep') ∧
  (viacep_url cep = viacep_url cep' → cep = cep') ∧
  brasilapi_url cep ≠ viacep_url cep'.
Proof.
  unfold brasilapi_url, viacep_url. split; [|split].
  - apply (inj (String.app _)).
  - intros H. apply (inj (String.app _)) in H. by apply string_app_inv_tail in H.
  - intros H. vm_compute in H. discriminate H.
Qed.

(** Every Lookup Task builds one request, a GET of its own backend's URL
    for the postal code [main] was given, before anything else than reading
    the clock; [client.Do] is called with that request only. Distinct
    postal codes are looked up at distinct URLs, and the two backends never
    share a URL. *)
Theorem request_is_a_get_of_the_backend_url v args c tid g p :
  reachable v args c →
  threads c !! tid = Some (g, p) → is_fetch g = true →
  let evs := local tid (trace c) in
  (∃ cep, cep_of args = Some cep ∧
     url_of g = if decide (tid = 1%nat) then brasilapi_url cep else viacep_url cep) ∧
  (new_requests evs = [] ∨ new_requests evs = [(MethodGet, url_of g)]) ∧
  (∀ m u k, p = NewRequestWithContext m u k →
     m = MethodGet ∧ u = url_of g ∧ new_requests evs = []) ∧
  (∀ req r, EClientDo req r ∈ evs →
     ENewRequestWithContext MethodGet (url_of g) (inr req) ∈ evs) ∧
  (∀ req k, p = ClientDo req k →
     ENewRequestWithContext MethodGet (url_of g) (inr req) ∈ evs ∧
     requests evs = []) ∧
  (∀ cep cep',
     (brasilapi_url cep = brasilapi_url cep' → cep = cep') ∧
     (viacep_url cep = viacep_url cep' → cep = cep') ∧
     brasilapi_url cep ≠ viacep_url cep').
Proof.
  intros Hc Ht Hf evs. destruct (reachable_inv _ _ _ Hc) as [Hg Hr].
  pose proof (gi_replay _ _ _ Hg _ _ _ Ht) as Hrep.
  split; [|split; [|split; [|split; [|split]]]];
    try apply (fetch_request _ _ _ _ Hf Hrep); [|apply url_inj].
  destruct tid as [|tid].
  { pose proof (thread_identity _ _ _ _ _ _ Hg Hr Ht) as ->. done. }
  pose proof (thread_identity _ _ _ _ _ _ Hg Hr Ht) as (cep & Hcep & Hid).
  exists cep. split; [done|].
  destruct tid as [|[|[|tid]]]; [by subst|by subst| |done].
  destruct Hid as [_ ->]. done.
Qed.

(** [defer resp.Body.Close()] in a Lookup Task: the task receives at most
    one HTTP response; it closes the body of that response and no other, at
    most once, only after it has sent its result, and it has done so when
    it signals the wait group or returns. A task that got no response
    closes nothing. *)
Theorem response_body_closed_after_send v args c tid g p :
  reachable v args c →
  threads c !! tid = Some (g, p) → is_fetch g = true →
  let evs := local tid (trace c) in
  (length (responses evs) ≤ 1)%nat ∧
  (closes evs = [] ∨ closes evs = Body <$> responses evs) ∧
  (closes evs ≠ [] → length (sends evs) = 1%nat) ∧
  (is_return p = true ∨ wg_dones evs ≠ [] ∨ is_wg_done p = true →
     closes evs = Body <$> responses evs) ∧
  (∀ b k, p = BodyClose b k →
     length (sends evs) = 1%nat ∧ closes evs = [] ∧
     ∃ resp, responses evs = [resp] ∧ b = Body resp).
Proof.
  intros Hc Ht Hf evs. destruct (reachable_inv _ _ _ Hc) as [Hg Hr].
  apply (fetch_close v g _ p Hf). by apply (gi_replay _ _ _ Hg).
Qed.

(** From the HTTP response to the data a Lookup Task sends: the body is
    read only from a response with status 200 and is the body of the
    response received; what is decoded is what was read, never after a
    failed read; the data sent is the decoded value, of the backend's own
    type; and the response sent has no error exactly when the decoding
    succeeded. *)
Theorem sent_data_is_the_decoded_body v args c tid g p :
  reachable v args c →
  threads c !! tid = Some (g, p) → is_fetch g = true →
  let evs := local tid (trace c) in
  Forall (fun r => Data r = head (decoded evs) ∧
                   (Error r = None ↔ decoded evs ≠ [])) (sends evs) ∧
  Forall (fun data => payload_of g data = true) (decoded evs) ∧
  (length (decoded evs) ≤ 1)%nat ∧
  (∀ req resp h x, EClientDo req (inr resp) ∈ evs → EReadAll h x ∈ evs →
     h = Body resp ∧ StatusCode resp = StatusOK) ∧
  (∀ h body b, EReadAll h (inr body) ∈ evs →
     (∃ x, EUnmarshalBrasilAPICEP b x ∈ evs) ∨
     (∃ x, EUnmarshalViaCEP b x ∈ evs) → b = body) ∧
  (∀ h err b, EReadAll h (inl err) ∈ evs →
     (∃ x, EUnmarshalBrasilAPICEP b x ∈ evs) ∨
     (∃ x, EUnmarshalViaCEP b x ∈ evs) → False).
Proof.
  intros Hc Ht Hf evs. destruct (reachable_inv _ _ _ Hc) as [Hg Hr].
  apply (fetch_payload v g _ p Hf). by apply (gi_replay _ _ _ Hg).
Qed.
Lemma request_is_a_get_of_the_backend_url_witness :
  (reachable PlainVariant sample_args cfg_plain) ∧
  (threads cfg_plain !! 2%nat = Some ((GFetchViaCEP "01153000"), (prog_of cfg_plain 2))) ∧
  (is_fetch (GFetchViaCEP "01153000") = true) ∧
  (let evs := local 2%nat (trace cfg_plain) in
  (∃ cep, cep_of sample_args = Some cep ∧
     url_of (GFetchViaCEP "01153000") = if decide (2%nat = 1%nat) then brasilapi_url cep else viacep_url cep) ∧
  (new_requests evs = [] ∨ new_requests evs = [(MethodGet, url_of (GFetchViaCEP "01153000"))]) ∧
  (∀ m u k, (prog_of cfg_plain 2) = NewRequestWithContext m u k →
     m = MethodGet ∧ u = url_of (GFetchViaCEP "01153000") ∧ new_requests evs = []) ∧
  (∀ req r, EClientDo req r ∈ evs →
     ENewRequestWithContext MethodGet (url_of (GFetchViaCEP "01153000")) (inr req) ∈ evs) ∧
  (∀ req k, (prog_of cfg_plain 2) = ClientDo req k →
     ENewRequestWithContext MethodGet (url_of (GFetchViaCEP "01153000")) (inr req) ∈ evs ∧
     requests evs = []) ∧
  (∀ cep cep',
     (brasilapi_url cep = brasilapi_url cep' → cep = cep') ∧
     (viacep_url cep = viacep_url cep' → cep = cep') ∧
     brasilapi_url cep ≠ viacep_url cep')).
Proof.
  assert (H1 : reachable PlainVariant sample_args cfg_plain)
    by (exists sched_plain; vm_compute; reflexivity).
  assert (H2 : threads cfg_plain !! 2%nat = Some ((GFetchViaCEP "01153000"), (prog_of cfg_plain 2)))
    by (vm_compute; reflexivity).
  assert (H3 : is_fetch (GFetchViaCEP "01153000") = true)
    by (vm_compute; reflexivity).
  split; [exact H1|].
  split; [exact H2|].
  split; [exact H3|].
  exact (request_is_a_get_of_the_backend_url PlainVariant sample_args cfg_plain 2%nat (GFetchViaCEP "01153000") (prog_of cfg_plain 2) H1 H2 H3).
Defined.

Lemma response_body_closed_after_send_witness :
  (reachable TimedVariant sample_args cfg_both_ok) ∧
  (threads cfg_both_ok !! 1%nat = Some ((GFetchBrasilAPI "01153000"), (prog_of cfg_both_ok 1))) ∧
  (is_fetch (GFetchBrasilAPI "01153000") = true) ∧
  (let evs := local 1%nat (trace cfg_both_ok) in
  (length (responses evs) ≤ 1)%nat ∧
  (closes evs = [] ∨ closes evs = Body <$> responses evs) ∧
  (closes evs ≠ [] → length (sends evs) = 1%nat) ∧
  (is_return (prog_of cfg_both_ok 1) = true ∨ wg_dones evs ≠ [] ∨ is_wg_done (prog_of cfg_both_ok 1) = true →
     closes evs = Body <$> responses evs) ∧
  (∀ b k, (prog_of cfg_both_ok 1) = BodyClose b k →
     length (sends evs) = 1%nat ∧ closes evs = [] ∧
     ∃ resp, responses evs = [resp] ∧ b = Body resp)).
Proof.
  assert (H1 : reachable TimedVariant sample_args cfg_both_ok)
    by (exists sched_both_ok; vm_compute; reflexivity).
  assert (H2 : threads cfg_both_ok !! 1%nat = Some ((GFetchBrasilAPI "01153000"), (prog_of cfg_both_ok 1)))
    by (vm_compute; reflexivity).
  assert (H3 : is_fetch (GFetchBrasilAPI "01153000") = true)
    by (vm_compute; reflexivity).
  split; [exact H1|].
  split; [exact H2|].
  split; [exact H3|].
  exact (response_body_closed_after_send TimedVariant sample_args cfg_both_ok 1%nat (GFetchBrasilAPI "01153000") (prog_of cfg_both_ok 1) H1 H2 H3).
Defined.

Lemma sent_data_is_the_decoded_body_witness :
  (reachable TimedVariant sample_args cfg_both_ok) ∧
  (threads cfg_both_ok !! 2%nat = Some ((GFetchViaCEP "01153000"), (prog_of cfg_both_ok 2))) ∧
  (is_fetch (GFetchViaCEP "01153000") = true) ∧
  (let evs := local 2%nat (trace cfg_both_ok) in
  Forall (fun r => Data r = head (decoded evs) ∧
                   (Error r = None ↔ decoded evs ≠ [])) (sends evs) ∧
  Forall (fun data => payload_of (GFetchViaCEP "01153000") data = true) (decoded evs) ∧
  (length (decoded evs) ≤ 1)%nat ∧
  (∀ req resp h x, EClientDo req (inr resp) ∈ evs → EReadAll h x ∈ evs →
     h = Body resp ∧ StatusCode resp = StatusOK) ∧
  (∀ h body b, EReadAll h (inr body) ∈ evs →
     (∃ x, EUnmarshalBrasilAPICEP b x ∈ evs) ∨
     (∃ x, EUnmarshalViaCEP b x ∈ evs) → b = body) ∧
  (∀ h err b, EReadAll h (inl err) ∈ evs →
     (∃ x, EUnmarshalBrasilAPICEP b x ∈ evs) ∨
     (∃ x, EUnmarshalViaCEP b x ∈ evs) → False)).
Proof.
  assert (H1 : reachable TimedVariant sample_args cfg_both_ok)
    by (exists sched_both_ok; vm_compute; reflexivity).
  assert (H2 : threads cfg_both_ok !! 2%nat = Some ((GFetchViaCEP "01153000"), (prog_of cfg_both_ok 2)))
    by (vm_compute; reflexivity).
  assert (H3 : is_fetch (GFetchViaCEP "01153000") = true)
    by (vm_compute; reflexivity).
  split; [exact H1|].
  split; [exact H2|].
  split; [exact H3|].
  exact (sent_data_is_the_decoded_body TimedVariant sample_args cfg_both_ok 2%nat (GFetchViaCEP "01153000") (prog_of cfg_both_ok 2) H1 H2 H3).
Defined.


(** ** The comparison loop *)

Lemma compare_entry_extremes seen x api d :
  api ≠ "" → extremes_of seen x →
  extremes_of (seen ++ [(api, d)]) (Timed.compare_entry x (api, d)).
Proof.
  destruct x as [f s ft st].
  intros Hapi [(-> & Hf & Hs)|(Hf & Hs & Hfin & Hsin & Hall)];
    unfold Timed.compare_entry; simpl in *; right.
  - subst. simpl. repeat (case_bool_decide; simpl in *); try done.
    repeat split; try done; try apply list_elem_of_here.
    repeat constructor; simpl; lia.
  - assert (ft ≤ st).
    { rewrite Forall_forall in Hall. apply (Hall _ Hfin). }
    repeat (case_bool_decide; simpl in *); try done;
      (split; [done|split; [done|split; [|split]]]);
      rewrite ?elem_of_app, ?list_elem_of_singleton; auto;
      rewrite Forall_app, Forall_singleton; simpl;
      (split; [|lia]); (eapply Forall_impl; [exact Hall|]);
      simpl; intros; lia.
Qed.

Lemma compare_fold_extremes entries seen x :
  Forall (fun e => e.1 ≠ "") entries → extremes_of seen x →
  extremes_of (seen ++ entries) (fold_left Timed.compare_entry entries x).
Proof.
  revert seen x. induction entries as [|[api d] entries IH]; intros seen x Hne Hx.
  - by rewrite app_nil_r.
  - apply Forall_cons in Hne as [Hapi Hne]. simpl.
    rewrite (cons_middle _ seen entries), (assoc_L (++)).
    apply IH; [done|]. by apply compare_entry_extremes.
Qed.

(** The loop over the timing map, for any number of entries in any order:
    the entry reported as fastest is in the map and no entry has a smaller
    duration; the entry reported as slowest is in the map and no entry has
    a greater duration. API names are never empty, which is what lets the
    loop use the empty name for nothing found yet. *)
Theorem comparison_finds_least_and_greatest entries :
  entries ≠ [] → Forall (fun e => e.1 ≠ "") entries →
  let x := Timed.compare_all entries in
  (Timed.fastest x, Timed.fastestTime x) ∈ entries ∧
  (Timed.slowest x, Timed.slowestTime x) ∈ entries ∧
  Forall (fun e => Timed.fastestTime x ≤ e.2 ≤ Timed.slowestTime x) entries.
Proof.
  intros Hne Hnames.
  destruct (compare_fold_extremes entries [] (Timed.mkExtremes "" "" 0 0) Hnames)
    as [(Hnil & _)|(_ & _ & ? & ? & ?)]; [by left|done|done].
Qed.

Lemma comparison_finds_least_and_greatest_witness :
  [("ViaCEP", 50); ("BrasilAPI", 30)] ≠ [] ∧
  Forall (fun e : string * Z => e.1 ≠ "") [("ViaCEP", 50); ("BrasilAPI", 30)] ∧
  (let x := Timed.compare_all [("ViaCEP", 50); ("BrasilAPI", 30)] in
   (Timed.fastest x, Timed.fastestTime x) ∈ [("ViaCEP", 50); ("BrasilAPI", 30)] ∧
   (Timed.slowest x, Timed.slowestTime x) ∈ [("ViaCEP", 50); ("BrasilAPI", 30)] ∧
   Forall (fun e => Timed.fastestTime x ≤ e.2 ≤ Timed.slowestTime x)
     [("ViaCEP", 50); ("BrasilAPI", 30)]).
Proof.
  assert (H1 : [("ViaCEP", 50); ("BrasilAPI", 30)] ≠ []) by discriminate.
  assert (H2 : Forall (fun e : string * Z => e.1 ≠ "")
                 [("ViaCEP", 50); ("BrasilAPI", 30)])
    by (repeat constructor; discriminate).
  split; [exact H1|]. split; [exact H2|].
  exact (comparison_finds_least_and_greatest _ H1 H2).
Defined.

(** Equal durations: both comparisons of the loop are strict, so the entry
    visited first stays the fastest and the slowest at once. With two
    backends of equal duration the report therefore names one backend
    twice, and which one depends on the order in which [range] visits the
    map. *)
Theorem equal_durations_name_the_first_entry_twice api d entries :
  api ≠ "" → Forall (fun e => e.2 = d) entries →
  Timed.compare_all ((api, d) :: entries) = Timed.mkExtremes api api d d.
Proof.
  intros Hapi Hall. unfold Timed.compare_all.
  assert (H0 : Timed.compare_entry (Timed.mkExtremes "" "" 0 0) (api, d) =
               Timed.mkExtremes api api d d).
  { unfold Timed.compare_entry. simpl.
    by repeat (case_bool_decide; simpl in *). }
  change (fold_left Timed.compare_entry entries
            (Timed.compare_entry (Timed.mkExtremes "" "" 0 0) (api, d)) =
          Timed.mkExtremes api api d d).
  rewrite H0. clear H0.
  induction Hall as [|[api' d'] entries Hd _ IH]; [done|].
  simpl in Hd. subst d'.
  assert (Hs : Timed.compare_entry (Timed.mkExtremes api api d d) (api', d) =
               Timed.mkExtremes api api d d).
  { unfold Timed.compare_entry. simpl.
    repeat (case_bool_decide; simpl in * ); done || lia. }
  change (fold_left Timed.compare_entry entries
            (Timed.compare_entry (Timed.mkExtremes api api d d) (api', d)) =
          Timed.mkExtremes api api d d).
  by rewrite Hs.
Qed.

Lemma equal_durations_name_the_first_entry_twice_witness :
  "ViaCEP" ≠ "" ∧
  Forall (fun e : string * Z => e.2 = 40) [("BrasilAPI", 40)] ∧
  Timed.compare_all [("ViaCEP", 40); ("BrasilAPI", 40)] =
    Timed.mkExtremes "ViaCEP" "ViaCEP" 40 40.
Proof.
  assert (H1 : "ViaCEP" ≠ "") by discriminate.
  assert (H2 : Forall (fun e : string * Z => e.2 = 40) [("BrasilAPI", 40)])
    by (repeat constructor).
  split; [exact H1|]. split; [exact H2|].
  exact (equal_durations_name_the_first_entry_twice "ViaCEP" 40 _ H1 H2).
Defined.

(** ** The wait group and the comparison goroutine *)

Lemma elem_of_local tid e tr : e ∈ local tid tr → e ∈ (snd <$> tr).
Proof.
  unfold local. rewrite list_elem_of_omap, list_elem_of_fmap.
  intros ([tid' e'] & Hin & Hx). simpl in Hx. case_decide; simplify_eq.
  eexists. split; [|exact Hin]. done.
Qed.

(** [main] never waits on the wait group. *)
Lemma main_no_wait v args evs p :
  replay (code v (GMain args)) evs = Some p → ∀ k, p ≠ WgWait k.
Proof. intros H. explore_main H v. all: done. Qed.

(** [main] never prints the header of the comparison. *)
Lemma main_no_header v args evs p :
  replay (code v (GMain args)) evs = Some p →
  OutPrintln Timed.report_header ∉ outputs evs.
Proof.
  intros H. explore_main H v.
  all: intros Hin; elem_of_cases.
  all: try match goal with H : OutPrintln _ = OutPrintln _ |- _ =>
         vm_compute in H; discriminate H end.
  all: try (destruct data; simpl in *; elem_of_cases).
Qed.

(** A Lookup Task that has signalled the wait group has returned, having
    sent once; in the timing variant a returned task has left its timing
    entry, and nothing else, in what it stored. *)
Lemma fetch_done v g evs p :
  is_fetch g = true → replay (code v g) evs = Some p →
  (wg_dones evs ≠ [] → is_return p = true) ∧
  (is_return p = true →
     ∃ r, sends evs = [r] ∧ APIName r = backend_name g ∧
          (v = TimedVariant → stores evs = timing_entry r)).
Proof.
  intros Hg H. explore_fetch H v g.
  all: split; [done|].
  all: try done.
  all: intros _; eexists; split; [done|]; split; [done|]; done.
Qed.

(** The comparison goroutine starts by waiting. *)
Lemma report_first v evs p :
  replay (code v GTimingReport) evs = Some p →
  evs = [] ∨ (v = TimedVariant ∧ head evs = Some EWgWait).
Proof.
  destruct evs as [|e evs]; [by left|]. intros H. right.
  destruct v; simpl in H; [|done].
  unfold Timed.timing_report in H. simpl in H. by destruct e.
Qed.

(** Once some goroutine has passed [wg.Wait()], the counter had been set
    to 2 and both Lookup Tasks have signalled it. *)
Lemma wait_passed v args c :
  reachable v args c → EWgWait ∈ (snd <$> trace c) →
  v = TimedVariant ∧
  wg_adds (local 0 (trace c)) = [2] ∧
  wg_dones (local 1 (trace c)) = [()] ∧ wg_dones (local 2 (trace c)) = [()].
Proof.
  intros Hc. induction Hc as [|l c c' Hc IH Hstep] using reachable_ind'; [by intros ?%elem_of_nil|].
  pose proof (reachable_step _ _ _ _ _ Hc Hstep) as Hc'.
  destruct (reachable_inv _ _ _ Hc) as [Hg Hr].
  destruct (reachable_inv _ _ _ Hc') as [Hg' Hr'].
  destruct l as [dt|tid a].
  { apply step_Tick_inv in Hstep as (_ & _ & _ & ->). apply IH. }
  destruct (step_Run_shape _ _ _ _ _ Hstep)
    as (g & p & e & p' & c1 & _ & _ & Ht & Hperf & Hnext & _ & Htr & _).
  rewrite Htr, fmap_app, elem_of_app. simpl. rewrite list_elem_of_singleton.
  intros Hin.
  assert (Hold : v = TimedVariant ∧
    wg_adds (local 0 (trace c)) = [2] ∧
    wg_dones (local 1 (trace c)) = [()] ∧ wg_dones (local 2 (trace c)) = [()]).
  { destruct Hin as [Hin| <-]; [by apply IH|].
    destruct (perform_wg _ _ _ _ _ _ _ _ Hperf) as (_ & _ & Hzero).
    specialize (Hzero eq_refl).
    assert (Hp : p = WgWait p') by (destruct p; simpl in Hnext; by simplify_eq).
    destruct (main_replay _ _ _ Hg) as (p0 & Ht0 & Hrep0).
    destruct tid as [|tid].
    { rewrite Ht0 in Ht. simplify_eq. by destruct (main_no_wait _ _ _ _ Hrep0 p'). }
    pose proof (thread_identity _ _ _ _ _ _ Hg Hr Ht) as (cep & _ & Hid).
    pose proof (gi_replay _ _ _ Hg _ _ _ Ht) as Hrep. rewrite Hp in Hrep.
    assert (Hv : v = TimedVariant).
    { destruct tid as [|[|[|tid]]]; [| |by destruct Hid|done]; subst g.
      - by pose proof (fetch_heads v (GFetchBrasilAPI cep) _ _ eq_refl Hrep).
      - by pose proof (fetch_heads v (GFetchViaCEP cep) _ _ eq_refl Hrep). }
    split; [done|].
    destruct (main_spawns _ _ _ _ Hrep0) as (_ & _ & _ & _ & _ & Hgo).
    assert (Hgos : gos (local 0 (trace c)) ≠ []) by by eapply worker_exists.
    specialize (Hgo Hgos Hv).
    pose proof (fetch_thread_dones _ _ _ 1 Hg Hr (or_introl eq_refl)) as Hd1.
    pose proof (fetch_thread_dones _ _ _ 2 Hg Hr (or_intror eq_refl)) as Hd2.
    pose proof (ri_wg _ Hr) as Hwg. rewrite Hgo, Hzero in Hwg. simpl in Hwg.
    split; [done|].
    destruct (wg_dones (local 1 (trace c))) as [|[] [|? ?]],
             (wg_dones (local 2 (trace c))) as [|[] [|? ?]];
      simpl in *; try lia; done. }
  destruct Hold as (Hv & Hadds & H1 & H2). split; [done|].
  destruct (main_replay _ _ _ Hg') as (p0' & _ & Hrep0').
  destruct (main_spawns _ _ _ _ Hrep0') as (_ & _ & _ & _ & Hadds' & _).
  pose proof (fetch_thread_dones _ _ _ 1 Hg' Hr' (or_introl eq_refl)) as Hd1.
  pose proof (fetch_thread_dones _ _ _ 2 Hg' Hr' (or_intror eq_refl)) as Hd2.
  rewrite Htr, !local_snoc, ?wg_adds_app, ?wg_dones_app in *.
  rewrite Hadds in Hadds' |- *. rewrite H1 in Hd1 |- *. rewrite H2 in Hd2 |- *.
  split; [|split].
  - destruct Hadds' as [Hx|[Hx _]]; [done|].
    destruct (wg_adds _) in Hx |- *; [done|]. simpl in Hx. by simplify_eq.
  - destruct (wg_dones _) in Hd1 |- *; [done|]. simpl in Hd1. lia.
  - destruct (wg_dones _) in Hd2 |- *; [done|]. simpl in Hd2. lia.
Qed.

(** A goroutine that has returned takes no more steps. *)
Lemma returned_stays cd ls c c' k g :
  threads c !! k = Some (g, Return) → run cd ls c = Some c' →
  threads c' !! k = Some (g, Return) ∧ local k (trace c') = local k (trace c).
Proof.
  revert c. induction ls as [|l ls IH]; intros c Hk Hrun; simpl in Hrun.
  { by simplify_eq. }
  destruct (step cd l c) as [c1|] eqn:Hstep; [|done].
  destruct l as [dt|tid a].
  { apply step_Tick_inv in Hstep as (_ & _ & _ & ->).
    by destruct (IH (set_clock (clock c + dt) c) Hk Hrun). }
  destruct (step_Run_shape _ _ _ _ _ Hstep)
    as (g' & p & e & p' & c2 & _ & _ & Ht & Hperf & _ & Hth & Htr & _).
  destruct (decide (tid = k)) as [->|Hne].
  { rewrite Hk in Ht. by simplify_eq. }
  destruct (IH c1) as [Hk' Hloc]; [|done|].
  - rewrite Hth, list_lookup_insert_ne by done.
    rewrite lookup_app_l; [done|]. by eapply lookup_lt_Some.
  - split; [done|]. by rewrite Hloc, Htr, local_snoc_ne.
Qed.

(** [wg.Wait()] in the comparison goroutine: once the header of the
    comparison is printed, or just the wait is passed, both Lookup Tasks
    have returned, each having sent its one response, and the wait-group
    counter is 0. The timing map then holds exactly the entries of the
    tasks that succeeded, so that it has more than one entry exactly when
    both backends succeeded, and it never changes again: the comparison
    reads the final map. *)
Theorem comparison_reads_the_final_timing_map args c :
  reachable TimedVariant args c →
  OutPrintln Timed.report_header ∈ stdout c ∨ EWgWait ∈ local 3 (trace c) →
  ∃ g1 g2 r1 r2,
    threads c !! 1%nat = Some (g1, Return) ∧
    threads c !! 2%nat = Some (g2, Return) ∧
    sends (local 1 (trace c)) = [r1] ∧ sends (local 2 (trace c)) = [r2] ∧
    APIName r1 = "BrasilAPI" ∧ APIName r2 = "ViaCEP" ∧
    wg c = 0 ∧
    timingResults c = list_to_map (timing_entry r1 ++ timing_entry r2) ∧
    ((1 < size (timingResults c))%nat ↔ Error r1 = None ∧ Error r2 = None) ∧
    (∀ ls c', run (code TimedVariant) ls c = Some c' →
       timingResults c' = timingResults c).
Proof.
  intros Hc Hseen. destruct (reachable_inv _ _ _ Hc) as [Hg Hr].
  assert (Hwait : EWgWait ∈ (snd <$> trace c)).
  { apply (elem_of_local 3).
    destruct Hseen as [Hout|Hin]; [|done].
    rewrite (stdout_split _ _ _ Hc), elem_of_app in Hout.
    destruct (main_replay _ _ _ Hg) as (p0 & _ & Hrep0).
    destruct Hout as [Hout|Hout]; [by destruct (main_no_header _ _ _ _ Hrep0)|].
    destruct (threads c !! 3%nat) as [[g p]|] eqn:Ht.
    - pose proof (thread_identity _ _ _ _ _ _ Hg Hr Ht) as (cep & _ & _ & ->).
      pose proof (gi_replay _ _ _ Hg _ _ _ Ht) as Hrep.
      destruct (report_first _ _ _ Hrep) as [Hnil|[_ Hhead]].
      + rewrite Hnil in Hout. by apply elem_of_nil in Hout.
      + destruct (local 3 (trace c)) as [|e evs]; simplify_eq/=.
        apply list_elem_of_here.
    - rewrite (gi_bound _ _ _ Hg) in Hout by by apply lookup_ge_None.
      by apply elem_of_nil in Hout. }
  destruct (wait_passed _ _ _ Hc Hwait) as (_ & Hadds & Hd1 & Hd2).
  assert (Htask : ∀ k, k = 1%nat ∨ k = 2%nat →
    wg_dones (local k (trace c)) = [()] →
    ∃ g r, threads c !! k = Some (g, Return) ∧
           sends (local k (trace c)) = [r] ∧
           APIName r = (if decide (k = 1%nat) then "BrasilAPI" else "ViaCEP") ∧
           stores (local k (trace c)) = timing_entry r).
  { intros k Hk Hd. destruct (fetch_thread _ _ _ k Hg Hr Hk) as [Hnil|Hex].
    { by rewrite Hnil in Hd. }
    destruct Hex as (g & p & Ht & Hf & Hname & Hrep).
    destruct (fetch_done _ _ _ _ Hf Hrep) as [Hret Hsent].
    rewrite Hd in Hret. specialize (Hret ltac:(done)).
    destruct (Hsent Hret) as (r & Hs & Hn & Hst).
    exists g, r. destruct p; try done. rewrite <- Hname. auto. }
  destruct (Htask 1%nat (or_introl eq_refl) Hd1) as (g1 & r1 & Ht1 & Hs1 & Hn1 & Hst1).
  destruct (Htask 2%nat (or_intror eq_refl) Hd2) as (g2 & r2 & Ht2 & Hs2 & Hn2 & Hst2).
  rewrite decide_True in Hn1 by done. rewrite decide_False in Hn2 by done.
  assert (Hmap : timingResults c = list_to_map (timing_entry r1 ++ timing_entry r2)).
  { by rewrite (ri_results _ Hr), Hst1, Hst2. }
  exists g1, g2, r1, r2. do 6 (split; [done|]). split; [|split; [done|split]].
  - rewrite (ri_wg _ Hr), Hadds, Hd1, Hd2. done.
  - rewrite Hmap. unfold timing_entry. rewrite Hn1, Hn2.
    destruct (Error r1), (Error r2); simpl;
      rewrite ?map_size_insert_None, ?map_size_empty
        by (by rewrite ?lookup_insert_ne, ?lookup_empty by done);
      (split; [intros ?; by (lia || done)|intros [? ?]; by (lia || done)]).
  - intros ls c' Hrun.
    destruct (reachable_inv _ _ _ (reachable_run _ _ _ _ _ Hc Hrun)) as [_ Hr'].
    destruct (returned_stays _ _ _ _ _ _ Ht1 Hrun) as [_ Hl1].
    destruct (returned_stays _ _ _ _ _ _ Ht2 Hrun) as [_ Hl2].
    by rewrite (ri_results _ Hr'), Hl1, Hl2, (ri_results _ Hr).
Qed.

Lemma comparison_reads_the_final_timing_map_witness :
  reachable TimedVariant sample_args cfg_report ∧
  (OutPrintln Timed.report_header ∈ stdout cfg_report ∨
   EWgWait ∈ local 3 (trace cfg_report)) ∧
  ∃ g1 g2 r1 r2,
    threads cfg_report !! 1%nat = Some (g1, Return) ∧
    threads cfg_report !! 2%nat = Some (g2, Return) ∧
    sends (local 1 (trace cfg_report)) = [r1] ∧
    sends (local 2 (trace cfg_report)) = [r2] ∧
    APIName r1 = "BrasilAPI" ∧ APIName r2 = "ViaCEP" ∧
    wg cfg_report = 0 ∧
    timingResults cfg_report = list_to_map (timing_entry r1 ++ timing_entry r2) ∧
    ((1 < size (timingResults cfg_report))%nat ↔
       Error r1 = None ∧ Error r2 = None) ∧
    (∀ ls c', run (code TimedVariant) ls cfg_report = Some c' →
       timingResults c' = timingResults cfg_report).
Proof.
  assert (H1 : reachable TimedVariant sample_args cfg_report)
    by (exists sched_report; vm_compute; reflexivity).
  assert (H2 : OutPrintln Timed.report_header ∈ stdout cfg_report ∨
               EWgWait ∈ local 3 (trace cfg_report))
    by (right; vm_compute; apply list_elem_of_here).
  split; [exact H1|]. split; [exact H2|].
  exact (comparison_reads_the_final_timing_map sample_args cfg_report H1 H2).
Defined.

(** ** Standard output, the channel and the plain variant *)

(** The comparison goroutine prints its header before anything else. *)
Lemma report_outputs v evs p :
  replay (code v GTimingReport) evs = Some p →
  outputs evs = [] ∨ head (outputs evs) = Some (OutPrintln Timed.report_header).
Proof.
  intros H; destruct v; simpl in H; [|destruct evs as [|e ?]; [by left|by destruct e]]; revert H.
  unfold Timed.timing_report. simpl.
  destruct evs as [|e1 [|e2 evs]]; [by left| |].
  - destruct e1; try done. intros _. by left.
  - destruct e1; try done. simpl. destruct e2; try done. simpl.
    case_decide; [subst|done]. intros _. by right.
Qed.

(** What is on standard output: the lines of [main], then those of the
    comparison goroutine. The Lookup Tasks never print. The comparison
    goroutine prints only in the timing variant, its header first, and only
    after [main] has printed its whole report of a successful response. *)
Theorem standard_output_is_main_then_comparison v args c :
  reachable v args c →
  stdout c = outputs (local 0 (trace c)) ++ outputs (local 3 (trace c)) ∧
  outputs (local 1 (trace c)) = [] ∧ outputs (local 2 (trace c)) = [] ∧
  (outputs (local 3 (trace c)) ≠ [] →
     v = TimedVariant ∧
     head (outputs (local 3 (trace c))) = Some (OutPrintln Timed.report_header) ∧
     ∃ cep r, cep_of args = Some cep ∧ Error r = None ∧
       selected (local 0 (trace c)) = [Some r] ∧
       outputs (local 0 (trace c)) =
         OutPrintf searching_format [VString cep] :: outcome_report v (Some r)).
Proof.
  intros Hc. destruct (reachable_inv _ _ _ Hc) as [Hg Hr].
  split; [by eapply stdout_split|].
  assert (Hquiet : ∀ k, k = 1%nat ∨ k = 2%nat → outputs (local k (trace c)) = []).
  { intros k Hk. destruct (fetch_thread _ _ _ k Hg Hr Hk) as [->|Hex]; [done|].
    destruct Hex as (g & p & _ & Hf & _ & Hrep).
    destruct (all_events_replay _ _ _ _ (code_fetch_events v g Hf) Hrep) as [Hev _].
    by destruct (fetch_events_quiet _ Hev). }
  split; [auto|]. split; [auto|]. intros Hout.
  destruct (threads c !! 3%nat) as [[g p]|] eqn:Ht; cycle 1.
  { rewrite (gi_bound _ _ _ Hg) in Hout; [done|]. by apply lookup_ge_None. }
  pose proof (thread_identity _ _ _ _ _ _ Hg Hr Ht) as (cep & Hcep & -> & ->).
  pose proof (gi_replay _ _ _ Hg _ _ _ Ht) as Hrep.
  split; [done|]. split.
  { by destruct (report_outputs _ _ _ Hrep). }
  destruct (main_replay _ _ _ Hg) as (p0 & Ht0 & Hrep0).
  assert (Hin : GTimingReport ∈ gos (local 0 (trace c))).
  { destruct (decide (GTimingReport ∈ gos (local 0 (trace c)))) as [?|Hnin]; [done|].
    destruct (no_report_thread _ _ _ Hg Hr Hnin) as [Hnil _].
    by rewrite Hnil in Hout. }
  destruct (main_select _ _ _ _ Hrep0) as (Hlen & _ & Hnone & Hsome).
  destruct (selected (local 0 (trace c))) as [|o [|? ?]] eqn:Hsel;
    [by destruct (Hnone eq_refl)| |simpl in Hlen; lia].
  destruct (Hsome o eq_refl) as (_ & Hfail & _). specialize (Hfail Hin).
  destruct (main_report _ _ _ _ Hrep0) as (_ & _ & Hrpt).
  rewrite Hsel in Hrpt. destruct (Hrpt o eq_refl) as (_ & _ & Hall).
  destruct o as [r|]; [|done]. exists cep, r. split; [done|].
  split; [simpl in Hfail; by destruct (Error r)|]. split; [done|].
  apply Hall; auto.
Qed.

(** What [main] takes from the channel: one value in its first [select],
    at most one more in the second [select] of the timing variant. *)
Lemma main_receives v args evs p :
  replay (code v (GMain args)) evs = Some p →
  (length (receives evs) ≤ 2)%nat ∧
  (v = PlainVariant → (length (receives evs) ≤ 1)%nat) ∧
  (selected evs = [] → receives evs = []) ∧
  ((1 < length (receives evs))%nat → GTimingReport ∈ gos evs).
Proof.
  intros H. explore_main H v.
  all: repeat split; simpl; try done; try lia.
  all: repeat case_match; simpl; try lia.
  all: intros _; by repeat constructor.
Qed.

(** The channel: every response sent is either received by [main] or still
    in the buffer, in the order sent; the two Lookup Tasks are the only
    senders and each sends under its own name, so no response is delivered
    twice; [main] is the only receiver, and takes at most two values, one in
    the plain variant. *)
Theorem channel_delivers_each_response_once v args c :
  reachable v args c →
  all_sends (trace c) = receives (local 0 (trace c)) ++ resultChan c ∧
  NoDup (APIName <$> all_sends (trace c)) ∧
  (∀ r, r ∈ all_sends (trace c) → APIName r = "BrasilAPI" ∨ APIName r = "ViaCEP") ∧
  (length (resultChan c) ≤ 2)%nat ∧
  (length (receives (local 0 (trace c))) ≤ if v is PlainVariant then 1 else 2)%nat ∧
  (∀ tid, tid ≠ 0%nat → receives (local tid (trace c)) = []).
Proof.
  intros Hc. destruct (reachable_inv _ _ _ Hc) as [Hg Hr].
  destruct (main_replay _ _ _ Hg) as (p0 & _ & Hrep0).
  destruct (main_receives _ _ _ _ Hrep0) as (Hle & Hplain & _).
  assert (Hk : ∀ k, k = 1%nat ∨ k = 2%nat →
    sends (local k (trace c)) = [] ∨
    ∃ r, sends (local k (trace c)) = [r] ∧
         APIName r = if decide (k = 1%nat) then "BrasilAPI" else "ViaCEP").
  { intros k Hk. destruct (fetch_thread _ _ _ k Hg Hr Hk) as [->|Hex]; [by left|].
    destruct Hex as (g & p & _ & Hf & Hname & Hrep).
    destruct (fetch_channel _ _ _ _ Hf Hrep) as (Hlen & _).
    pose proof (fetch_failures _ _ _ _ Hf Hrep) as Hall.
    destruct (sends (local k (trace c))) as [|r [|? ?]]; [by left| |simpl in Hlen; lia].
    right. exists r. split; [done|]. apply Forall_singleton in Hall as [-> _]. done. }
  pose proof (ri_sends _ Hr) as Hperm.
  assert (Hnames : NoDup (APIName <$> all_sends (trace c)) ∧
    (∀ r, r ∈ all_sends (trace c) → APIName r = "BrasilAPI" ∨ APIName r = "ViaCEP") ∧
    (length (all_sends (trace c)) ≤ 2)%nat).
  { destruct (Hk 1%nat (or_introl eq_refl)) as [Hs1|(r1 & Hs1 & Hn1)],
             (Hk 2%nat (or_intror eq_refl)) as [Hs2|(r2 & Hs2 & Hn2)];
      rewrite Hs1, Hs2 in Hperm; simpl in *;
      (split; [|split]).
    all: try (rewrite Hperm; simpl; lia).
    all: try (intros r Hin; rewrite Hperm in Hin; elem_of_cases; by auto).
    all: rewrite Hperm; simpl; rewrite ?Hn1, ?Hn2;
      repeat (apply NoDup_cons_2; [intros Hin; elem_of_cases|]);
      apply NoDup_nil_2. }
  destruct Hnames as (Hnd & Hwho & Hlen).
  split; [apply Hr|]. split; [done|]. split; [done|]. split; [|split].
  - rewrite (ri_chan _ Hr), length_app in Hlen. lia.
  - destruct v; [done|by apply Hplain].
  - intros tid Hne.
    by destruct (worker_events_quiet _ (worker_trace_quiet _ _ _ _ Hc Hne))
      as (_&_&?&_).
Qed.

Lemma code_plain_events g : all_events plain_event (code PlainVariant g).
Proof.
  destruct g as [args|cep|cep|]; simpl;
    try (destruct args as [|a0 [|cep rest]]; simpl);
    unfold Plain.fetchBrasilAPI, Plain.fetchViaCEP, Plain.after_select,
      print_address, defer; simpl;
    repeat first
      [ done
      | progress intros
      | split
      | case_match
      | progress simpl ].
Qed.

Lemma plain_events_quiet evs :
  Forall plain_event evs →
  holds evs = false ∧ stores evs = [] ∧ wg_adds evs = [] ∧ wg_dones evs = [].
Proof.
  induction evs as [|e evs IH] using rev_ind; [done|].
  rewrite Forall_app, Forall_singleton. intros [Hevs He].
  destruct (IH Hevs) as (?&?&?&?).
  rewrite holds_snoc, stores_app, wg_adds_app, wg_dones_app.
  by destruct e; simplify_list_eq.
Qed.

(** The plain variant has none of the timing machinery: no goroutine ever
    touches the wait group, the mutex, the timing map, the clock or a timer,
    so these objects stay as they were made; and it has no comparison
    goroutine: at most [main] and the two Lookup Tasks. *)
Theorem plain_variant_has_no_timing_machinery args c :
  reachable PlainVariant args c →
  (∀ tid, Forall plain_event (local tid (trace c))) ∧
  timingMutex c = None ∧ timingResults c = ∅ ∧ wg c = 0 ∧
  (length (threads c) ≤ 3)%nat ∧
  stdout c = outputs (local 0 (trace c)).
Proof.
  intros Hc. destruct (reachable_inv _ _ _ Hc) as [Hg Hr].
  assert (Hev : ∀ tid, Forall plain_event (local tid (trace c))).
  { intros tid. destruct (threads c !! tid) as [[g p]|] eqn:Ht.
    - pose proof (gi_replay _ _ _ Hg _ _ _ Ht) as Hrep.
      by destruct (all_events_replay _ _ _ _ (code_plain_events g) Hrep).
    - rewrite (gi_bound _ _ _ Hg); [done|]. by apply lookup_ge_None. }
  assert (Hq := fun tid => plain_events_quiet _ (Hev tid)).
  destruct (main_replay _ _ _ Hg) as (p0 & _ & Hrep0).
  split; [done|]. split; [|split; [|split; [|split]]].
  - destruct (timingMutex c) as [tid|] eqn:Hm; [|done].
    pose proof (ri_mutex _ Hr tid) as Hh. destruct (Hq tid) as (Hf & _).
    rewrite Hf, Hm in Hh. by rewrite bool_decide_eq_true_2 in Hh.
  - rewrite (ri_results _ Hr).
    destruct (Hq 1%nat) as (_ & -> & _), (Hq 2%nat) as (_ & -> & _). done.
  - rewrite (ri_wg _ Hr).
    destruct (Hq 0%nat) as (_ & _ & -> & _), (Hq 1%nat) as (_ & _ & _ & ->),
      (Hq 2%nat) as (_ & _ & _ & ->). done.
  - destruct (main_spawns _ _ _ _ Hrep0) as (Hgos & _).
    pose proof (f_equal length (gi_pool _ _ _ Hg)) as Hlen.
    rewrite length_fmap, (ri_gos _ Hr) in Hlen. simpl in Hlen. rewrite Hlen.
    destruct (cep_of args); [|rewrite Hgos; simpl; lia].
    destruct Hgos as [->|[->|[->|[? _]]]]; simpl; done || lia.
  - apply (stdout_main _ _ _ Hc).
    destruct (main_spawns _ _ _ _ Hrep0) as (Hgos & _). intros Hin.
    destruct (cep_of args); [|rewrite Hgos in Hin; by elem_of_cases].
    destruct Hgos as [Hx|[Hx|[Hx|[? _]]]]; [| | |done];
      rewrite Hx in Hin; by elem_of_cases.
Qed.
Lemma standard_output_is_main_then_comparison_witness :
  (reachable TimedVariant sample_args cfg_both_ok) ∧
  (stdout cfg_both_ok = outputs (local 0 (trace cfg_both_ok)) ++ outputs (local 3 (trace cfg_both_ok)) ∧
  outputs (local 1 (trace cfg_both_ok)) = [] ∧ outputs (local 2 (trace cfg_both_ok)) = [] ∧
  (outputs (local 3 (trace cfg_both_ok)) ≠ [] →
     TimedVariant = TimedVariant ∧
     head (outputs (local 3 (trace cfg_both_ok))) = Some (OutPrintln Timed.report_header) ∧
     ∃ cep r, cep_of sample_args = Some cep ∧ Error r = None ∧
       selected (local 0 (trace cfg_both_ok)) = [Some r] ∧
       outputs (local 0 (trace cfg_both_ok)) =
         OutPrintf searching_format [VString cep] :: outcome_report TimedVariant (Some r))).
Proof.
  assert (H1 : reachable TimedVariant sample_args cfg_both_ok)
    by (exists sched_both_ok; vm_compute; reflexivity).
  split; [exact H1|].
  exact (standard_output_is_main_then_comparison TimedVariant sample_args cfg_both_ok H1).
Defined.

Lemma channel_delivers_each_response_once_witness :
  (reachable TimedVariant sample_args cfg_failure) ∧
  (all_sends (trace cfg_failure) = receives (local 0 (trace cfg_failure)) ++ resultChan cfg_failure ∧
  NoDup (APIName <$> all_sends (trace cfg_failure)) ∧
  (∀ r, r ∈ all_sends (trace cfg_failure) → APIName r = "BrasilAPI" ∨ APIName r = "ViaCEP") ∧
  (length (resultChan cfg_failure) ≤ 2)%nat ∧
  (length (receives (local 0 (trace cfg_failure))) ≤ if TimedVariant is PlainVariant then 1 else 2)%nat ∧
  (∀ tid, tid ≠ 0%nat → receives (local tid (trace cfg_failure)) = [])).
Proof.
  assert (H1 : reachable TimedVariant sample_args cfg_failure)
    by (exists sched_failure; vm_compute; reflexivity).
  split; [exact H1|].
  exact (channel_delivers_each_response_once TimedVariant sample_args cfg_failure H1).
Defined.

Lemma plain_variant_has_no_timing_machinery_witness :
  (reachable PlainVariant sample_args cfg_plain) ∧
  ((∀ tid, Forall plain_event (local tid (trace cfg_plain))) ∧
  timingMutex cfg_plain = None ∧ timingResults cfg_plain = ∅ ∧ wg cfg_plain = 0 ∧
  (length (threads cfg_plain) ≤ 3)%nat ∧
  stdout cfg_plain = outputs (local 0 (trace cfg_plain))).
Proof.
  assert (H1 : reachable PlainVariant sample_args cfg_plain)
    by (exists sched_plain; vm_compute; reflexivity).
  split; [exact H1|].
  exact (plain_variant_has_no_timing_machinery sample_args cfg_plain H1).
Defined.


(** ** The clock *)

(** [time.Now] and [time.Since] in a Lookup Task of the timing variant: the
    task starts by reading the clock, every [time.Since] measures from that
    reading, and the duration it sends or stores is such a measure. *)
Lemma fetch_clock v g evs p :
  is_fetch g = true → replay (code v g) evs = Some p →
  (∀ t k, p = Since t k → head evs = Some (ENow t)) ∧
  (∀ t d, ESince t d ∈ evs → head evs = Some (ENow t)) ∧
  Forall (fun r => v = TimedVariant →
            ∃ t, head evs = Some (ENow t) ∧ ESince t (Duration r) ∈ evs)
    (sends evs) ∧
  Forall (fun s => ∃ t, ESince t s.2 ∈ evs) (stores evs).
Proof.
  intros Hg H. explore_fetch H v g.
  all: split; [intros ???; by simplify_eq|].
  all: split; [intros ?? Hin; by elem_of_cases|].
  all: split; repeat constructor; try done.
  all: try (intros _).
  all: eexists; try (split; [done|]); by repeat constructor.
Qed.

Lemma main_no_since v args evs p :
  replay (code v (GMain args)) evs = Some p → ∀ t k, p ≠ Since t k.
Proof. intros H. explore_main H v. all: done. Qed.

(** Only the Lookup Tasks measure time. *)
Lemma since_is_fetch v args c tid g t k :
  reachable v args c → threads c !! tid = Some (g, Since t k) →
  is_fetch g = true.
Proof.
  intros Hc Ht. destruct (reachable_inv _ _ _ Hc) as [Hg Hr].
  pose proof (gi_replay _ _ _ Hg _ _ _ Ht) as Hrep.
  destruct tid as [|tid].
  { pose proof (thread_identity _ _ _ _ _ _ Hg Hr Ht) as ->.
    by destruct (main_no_since _ _ _ _ Hrep t k). }
  pose proof (thread_identity _ _ _ _ _ _ Hg Hr Ht) as (cep & _ & Hid).
  destruct tid as [|[|[|tid]]]; [by subst|by subst| |done].
  destruct Hid as [_ ->]. exfalso.
  assert (Hns : all_events (fun e => ∀ t d, e ≠ ESince t d) (code v GTimingReport)).
  { destruct v; simpl; [|done]. unfold Timed.timing_report, defer; simpl.
    repeat first
      [ done
      | progress intros
      | split
      | apply all_events_seq
      | apply print_entries_all_events
      | case_match
      | progress simpl ]. }
  destruct (all_events_replay _ _ _ _ Hns Hrep) as [_ Hp]. simpl in Hp.
  destruct (Hp 0) as [Hp' _]. by apply (Hp' t 0).
Qed.

Lemma next_since p t d p' : next p (ESince t d) = Some p' → ∃ k, p = Since t k.
Proof.
  destruct p; simpl; try done. case_decide; [|done]. subst. by eexists.
Qed.

(** The clock never runs backwards: every reading of [time.Now] lies
    between the start of the process and now, and every duration measured by
    [time.Since] is the time that passed since the reading it measures
    from, hence not negative. *)
Lemma clock_stamps v args c :
  reachable v args c →
  0 ≤ clock c ∧
  (∀ t, ENow t ∈ (snd <$> trace c) → 0 ≤ t ≤ clock c) ∧
  (∀ t d, ESince t d ∈ (snd <$> trace c) → 0 ≤ t ∧ 0 ≤ d ∧ t + d ≤ clock c).
Proof.
  intros Hc. induction Hc as [|l c c' Hc IH Hstep] using reachable_ind'.
  { simpl. split; [done|]. split; intros; by elem_of_cases. }
  destruct IH as (Hclk & Hnow & Hsince).
  destruct l as [dt|tid a].
  { apply step_Tick_inv in Hstep as (_ & _ & Hdt & ->). simpl.
    split; [lia|]. split.
    - intros t Hin. specialize (Hnow t Hin). lia.
    - intros t d Hin. specialize (Hsince t d Hin). lia. }
  destruct (step_Run_shape _ _ _ _ _ Hstep)
    as (g & p & e & p' & c1 & _ & _ & Ht & Hperf & Hnext & _ & Htr & _).
  assert (Hclk' : clock c' = clock c).
  { destruct (step_Run_inv _ _ _ _ _ Hstep)
      as (g0 & q & e0 & q' & c2 & _ & _ & Ht2 & Hperf2 & Hc').
    rewrite Hc'. simpl.
    by destruct (perform_ctx _ _ _ _ _ _ _ _ Hperf2) as (-> & _). }
  destruct (perform_ctx _ _ _ _ _ _ _ _ Hperf) as (_ & _ & _ & _ & _ & Hn & Hs).
  rewrite Hclk', Htr, fmap_app. simpl.
  split; [done|]. split.
  - intros t [Hin|Hin%list_elem_of_singleton]%elem_of_app; [by apply Hnow|].
    subst e. rewrite (Hn t eq_refl). lia.
  - intros t d [Hin|Hin%list_elem_of_singleton]%elem_of_app; [by apply Hsince|].
    subst e. rewrite (Hs t d eq_refl).
    destruct (next_since _ _ _ _ Hnext) as [k ->].
    pose proof (since_is_fetch _ _ _ _ _ _ _ Hc Ht) as Hf.
    destruct (reachable_inv _ _ _ Hc) as [Hg _].
    pose proof (gi_replay _ _ _ Hg _ _ _ Ht) as Hrep.
    destruct (fetch_clock _ _ _ _ Hf Hrep) as (Hhead & _).
    specialize (Hhead t k eq_refl).
    assert (Hin : ENow t ∈ (snd <$> trace c)).
    { apply (elem_of_local tid). destruct (local tid (trace c)); simplify_eq/=.
      apply list_elem_of_here. }
    specialize (Hnow t Hin). lia.
Qed.

(** In the timing variant the duration in every response a Lookup Task
    sends is the time between its first operation, [time.Now], and a later
    [time.Since]; it is never negative and never exceeds the age of the
    process. The same holds for every entry of the timing map. *)
Theorem durations_are_elapsed_time args c tid g p :
  reachable TimedVariant args c →
  threads c !! tid = Some (g, p) → is_fetch g = true →
  let evs := local tid (trace c) in
  Forall (fun r =>
    ∃ t, head evs = Some (ENow t) ∧ ESince t (Duration r) ∈ evs ∧
         0 ≤ t ∧ 0 ≤ Duration r ∧ t + Duration r ≤ clock c) (sends evs) ∧
  (∀ key d, timingResults c !! key = Some d → 0 ≤ d ≤ clock c).
Proof.
  intros Hc Ht Hf evs. destruct (reachable_inv _ _ _ Hc) as [Hg Hr].
  destruct (clock_stamps _ _ _ Hc) as (Hclk & _ & Hsince).
  pose proof (gi_replay _ _ _ Hg _ _ _ Ht) as Hrep.
  destruct (fetch_clock _ _ _ _ Hf Hrep) as (_ & _ & Hsent & _).
  split.
  - eapply Forall_impl; [exact Hsent|]. intros r Hr'.
    destruct (Hr' eq_refl) as (t & Hhead & Hin). exists t.
    split; [done|]. split; [done|].
    apply (Hsince t (Duration r)). by apply (elem_of_local tid).
  - intros key d Hkey. rewrite (ri_results _ Hr) in Hkey.
    apply elem_of_list_to_map_2 in Hkey. apply elem_of_app in Hkey.
    assert (Hk : ∀ k, k = 1%nat ∨ k = 2%nat →
      (key, d) ∈ stores (local k (trace c)) → 0 ≤ d ≤ clock c).
    { intros k Hk Hin.
      destruct (fetch_thread _ _ _ k Hg Hr Hk) as [Hnil|Hex].
      { rewrite Hnil in Hin. by apply elem_of_nil in Hin. }
      destruct Hex as (g' & p' & _ & Hf' & _ & Hrep').
      destruct (fetch_clock _ _ _ _ Hf' Hrep') as (_ & _ & _ & Hst).
      rewrite Forall_forall in Hst. destruct (Hst _ Hin) as [t Hin'].
      simpl in Hin'. apply (elem_of_local k) in Hin'.
      specialize (Hsince t d Hin'). lia. }
    destruct Hkey as [Hin|Hin]; eauto.
Qed.
Lemma durations_are_elapsed_time_witness :
  (reachable TimedVariant sample_args cfg_both_ok) ∧
  (threads cfg_both_ok !! 2%nat = Some ((GFetchViaCEP "01153000"), (prog_of cfg_both_ok 2))) ∧
  (is_fetch (GFetchViaCEP "01153000") = true) ∧
  (let evs := local 2%nat (trace cfg_both_ok) in
  Forall (fun r =>
    ∃ t, head evs = Some (ENow t) ∧ ESince t (Duration r) ∈ evs ∧
         0 ≤ t ∧ 0 ≤ Duration r ∧ t + Duration r ≤ clock cfg_both_ok) (sends evs) ∧
  (∀ key d, timingResults cfg_both_ok !! key = Some d → 0 ≤ d ≤ clock cfg_both_ok)).
Proof.
  assert (H1 : reachable TimedVariant sample_args cfg_both_ok)
    by (exists sched_both_ok; vm_compute; reflexivity).
  assert (H2 : threads cfg_both_ok !! 2%nat = Some ((GFetchViaCEP "01153000"), (prog_of cfg_both_ok 2)))
    by (vm_compute; reflexivity).
  assert (H3 : is_fetch (GFetchViaCEP "01153000") = true)
    by (vm_compute; reflexivity).
  split; [exact H1|].
  split; [exact H2|].
  split; [exact H3|].
  exact (durations_are_elapsed_time sample_args cfg_both_ok 2%nat (GFetchViaCEP "01153000") (prog_of cfg_both_ok 2) H1 H2 H3).
Defined.


(** ** [main] always comes to an end *)

Lemma main_bounded v args : bounded 15 (code v (GMain args)).
Proof.
  destruct v; simpl; destruct args as [|a0 [|cep rest]]; simpl;
    unfold Timed.after_select, Plain.after_select, print_address, Sleep, defer;
    simpl;
    repeat first [ done | progress intros | case_match | progress simpl ].
Qed.

Lemma main_heads v args evs p :
  replay (code v (GMain args)) evs = Some p → is_main_op p = true.
Proof. intros H. explore_main H v. all: done. Qed.

(** One operation of [main], once it is enabled. *)
Lemma step_main cd c g p a e p' c1 :
  exited c = false → panicked c = false →
  threads c !! 0%nat = Some (g, p) →
  perform cd 0 a p c = Some (e, p', c1) →
  ∃ c', step cd (Run 0 a) c = Some c' ∧ threads c' !! 0%nat = Some (g, p').
Proof.
  intros Hex Hpan Ht Hperf. eexists. split.
  { unfold step. by rewrite Hex, Hpan, Ht, Hperf. }
  simpl. rewrite (perform_threads _ _ _ _ _ _ _ _ Hperf).
  apply list_lookup_insert_eq. rewrite length_app.
  apply lookup_lt_Some in Ht. lia.
Qed.

(** Waiting for the clock and then taking one operation of [main]. *)
Lemma tick_then_step_main cd c g p a dt :
  exited c = false → panicked c = false →
  threads c !! 0%nat = Some (g, p) → 0 < dt →
  (∃ e p' c1, perform cd 0 a p (set_clock (clock c + dt) c) = Some (e, p', c1) ∧
     ∀ n, bounded (S n) p → bounded n p') →
  ∃ c' p', run cd [Tick dt; Run 0 a] c = Some c' ∧
           threads c' !! 0%nat = Some (g, p') ∧
           ∀ n, bounded (S n) p → bounded n p'.
Proof.
  intros Hex Hpan Ht Hdt (e & p' & c1 & Hperf & Hb).
  destruct (step_main cd (set_clock (clock c + dt) c) g p a e p' c1)
    as (c' & Hstep & Ht'); try done.
  exists c', p'. split; [|done]. simpl. unfold step at 1.
  rewrite Hex, Hpan. simpl. rewrite bool_decide_eq_true_2 by done.
  by rewrite Hstep.
Qed.

Section main_alone.
Context (v : Variant) (args : list string).

(** Whatever the other goroutines have done so far, [main] can take its
    next operation on its own, at the latest once the deadline or its
    timer has passed. *)
Lemma main_progress c p :
  reachable v args c →
  threads c !! 0%nat = Some (GMain args, p) → is_return p = false →
  ∃ c' p',
    run (code v) (main_labels c p) c = Some c' ∧
    threads c' !! 0%nat = Some (GMain args, p') ∧
    (∀ n, bounded (S n) p → bounded n p').
Proof.
  intros Hc Ht Hnr. destruct (reachable_inv _ _ _ Hc) as [Hg Hr].
  pose proof (gi_replay _ _ _ Hg _ _ _ Ht) as Hrep.
  pose proof (main_heads _ _ _ _ Hrep) as Hop.
  pose proof (ri_panicked _ Hr) as Hpan.
  assert (Hex : exited c = false) by by rewrite (exited_return _ _ _ Ht).
  assert (Hsimple : ∀ e p' c1,
    perform (code v) 0 ANone p c = Some (e, p', c1) →
    (∀ n, bounded (S n) p → bounded n p') →
    ∃ c' p', run (code v) [Run 0 ANone] c = Some c' ∧
             threads c' !! 0%nat = Some (GMain args, p') ∧
             (∀ n, bounded (S n) p → bounded n p')).
  { intros e p' c1 Hperf Hb.
    destruct (step_main _ _ _ _ _ _ _ _ Hex Hpan Ht Hperf) as (c' & Hstep & Ht').
    exists c', p'. simpl. by rewrite Hstep. }
  destruct p; try done; simpl main_labels.
  - eapply Hsimple; [reflexivity|]. by intros m Hb.
  - eapply Hsimple; [reflexivity|]. by intros m Hb.
  - eapply Hsimple; [reflexivity|]. by intros m Hb.
  - eapply Hsimple; [reflexivity|]. by intros m Hb.
  - eapply Hsimple; [reflexivity|]. by intros m Hb.
  - eapply Hsimple; [reflexivity|]. by intros m Hb.
  - eapply Hsimple; [reflexivity|]. by intros m Hb.
  - (* the first select: the deadline *)
    destruct (main_select _ _ _ _ Hrep) as (_ & Hsel & _).
    destruct (Hsel eq_refl) as (_ & cep & _ & Hgos & _).
    destruct (main_context _ _ _ _ Hrep) as (Hdl & _ & Hgd & _).
    assert (Hdead : ∃ t, ctx_deadline c = Some t).
    { rewrite (ri_deadline _ Hr). destruct Hdl as [Hd|[t Hd]].
      - destruct Hgd; [by rewrite Hgos|done].
      - rewrite Hd. by eexists. }
    destruct Hdead as [t Hdead].
    destruct (ctx_done c) eqn:Hdone.
    + assert (Hperf : perform (code v) 0 (APick false) (SelectResultOrDone k) c
                      = Some (ESelectResultOrDone None, k None, c)).
      { simpl. by rewrite Hdone. }
      destruct (step_main _ _ _ _ _ _ _ _ Hex Hpan Ht Hperf) as (c' & Hstep & Ht').
      exists c', (k None). simpl. rewrite Hstep. split; [done|]. split; [done|].
      intros m Hb. apply Hb.
    + rewrite Hdead. change (default 0 (Some t)) with t.
      unfold ctx_done in Hdone. rewrite Hdead in Hdone.
      apply orb_false_iff in Hdone as [_ Hlt]. apply bool_decide_eq_false in Hlt.
      apply (tick_then_step_main (code v) c (GMain args) (SelectResultOrDone k));
        try done; [lia|].
      exists (ESelectResultOrDone None), (k None), (set_clock (clock c + (t - clock c)) c).
      split; [|intros m Hb; apply Hb].
      simpl. unfold ctx_done. simpl. rewrite Hdead.
      rewrite (bool_decide_eq_true_2 (t ≤ _)) by lia. by rewrite orb_true_r.
  - eapply Hsimple; [reflexivity|]. intros m Hb. apply Hb.
  - (* the second select: the timer *)
    case_bool_decide as Hready.
    + assert (Hperf : perform (code v) 0 (APick false) (SelectResultOrTimer t p) c
                      = Some (ESelectResultOrTimer t None, p, c)).
      { simpl. by rewrite bool_decide_eq_true_2. }
      destruct (step_main _ _ _ _ _ _ _ _ Hex Hpan Ht Hperf) as (c' & Hstep & Ht').
      exists c', p. simpl. rewrite Hstep. split; [done|]. split; [done|].
      by intros m Hb.
    + apply (tick_then_step_main (code v) c (GMain args) (SelectResultOrTimer t p));
        try done; [lia|].
      exists (ESelectResultOrTimer t None), p, (set_clock (clock c + (t - clock c)) c).
      split; [|by intros m Hb].
      simpl. by rewrite bool_decide_eq_true_2 by lia.
  - (* the sleep *)
    case_bool_decide as Hready.
    + assert (Hperf : perform (code v) 0 ANone (WaitTimer t p) c
                      = Some (EWaitTimer t, p, c)).
      { simpl. by rewrite bool_decide_eq_true_2. }
      destruct (step_main _ _ _ _ _ _ _ _ Hex Hpan Ht Hperf) as (c' & Hstep & Ht').
      exists c', p. simpl. rewrite Hstep. split; [done|]. split; [done|].
      by intros m Hb.
    + apply (tick_then_step_main (code v) c (GMain args) (WaitTimer t p));
        try done; [lia|].
      exists (EWaitTimer t), p, (set_clock (clock c + (t - clock c)) c).
      split; [|by intros m Hb].
      simpl. by rewrite bool_decide_eq_true_2 by lia.
Qed.

Lemma main_finish n c p :
  reachable v args c →
  threads c !! 0%nat = Some (GMain args, p) → bounded n p →
  ∃ c', run_main_alone (code v) n c = Some c' ∧
        reachable v args c' ∧ exited c' = true.
Proof.
  revert c p. induction n as [|n IH]; intros c p Hc Ht Hb.
  - destruct p; try done. exists c. simpl. rewrite Ht.
    split; [done|]. split; [done|]. by rewrite (exited_return _ _ _ Ht).
  - destruct (decide (is_return p = true)) as [Hret|Hret].
    { destruct p; try done. exists c. simpl. rewrite Ht.
      split; [done|]. split; [done|]. by rewrite (exited_return _ _ _ Ht). }
    apply not_true_is_false in Hret.
    destruct (main_progress _ _ Hc Ht Hret) as (c' & p' & Hrun & Ht' & Hb').
    pose proof (reachable_run _ _ _ _ _ Hc Hrun) as Hc'.
    destruct (IH _ _ Hc' Ht' (Hb' _ Hb)) as (c'' & Hd & ?).
    exists c''. split; [|done]. simpl. rewrite Ht, Hrun.
    by destruct p.
Qed.

End main_alone.

(** [main] never depends on another goroutine to come to an end: from
    every configuration a run can reach, [main] alone, taking its own
    operations and waiting for the clock where it waits for the deadline or
    a timer, returns after at most 15 operations. The one-second deadline
    is what makes its first [select] passable when no response arrives. *)
Theorem main_alone_terminates v args c :
  reachable v args c →
  ∃ c', run_main_alone (code v) 15 c = Some c' ∧
        reachable v args c' ∧ exited c' = true.
Proof.
  intros Hc. destruct (reachable_inv _ _ _ Hc) as [Hg _].
  destruct (main_replay _ _ _ Hg) as (p & Ht & Hrep).
  eapply main_finish; [done..|].
  eapply bounded_replay; [apply main_bounded|done].
Qed.

Lemma main_alone_terminates_witness :
  reachable TimedVariant sample_args cfg_send ∧
  ∃ c', run_main_alone (code TimedVariant) 15 cfg_send = Some c' ∧
        reachable TimedVariant sample_args c' ∧ exited c' = true.
Proof.
  assert (H1 : reachable TimedVariant sample_args cfg_send)
    by (exists sched_send; vm_compute; reflexivity).
  split; [exact H1|].
  exact (main_alone_terminates TimedVariant sample_args cfg_send H1).
Defined.

(** When no backend ever answers, [main] left alone prints the search line
    and, exactly one second after the context was made, the timeout
    message, and returns. *)
Theorem unanswered_lookup_times_out_after_one_second v arg0 cep rest :
  ∃ c', run_main_alone (code v) 15 (init (code v) (arg0 :: cep :: rest)) = Some c' ∧
        exited c' = true ∧ clock c' = 1 * Second ∧
        stdout c' = [OutPrintf searching_format [VString cep];
                     OutPrintln timeout_message] ∧
        resultChan c' = [] ∧ ctx_cancelled c' = true.
Proof.
  destruct v; eexists; (split; [vm_compute; reflexivity|]); by vm_compute.
Qed.

(** ** The last sleep of [main] *)

(** In the timing variant the second [select] of [main] is followed by
    the sleep of 200ms and the deferred cancel, and nothing else. *)
Lemma main_tail v args evs p :
  replay (code v (GMain args)) evs = Some p →
  ∀ t k, p = SelectResultOrTimer t k →
    k = Sleep (200 * Millisecond) (Cancel Return).
Proof. intros H. explore_main H v. all: by intros; simplify_eq. Qed.

Lemma asleep_step cd d t0 l c c' :
  0 ≤ d → asleep d t0 c → step cd l c = Some c' → asleep d t0 c'.
Proof.
  intros Hd (g & p & Ht & Hp) Hstep. destruct l as [dt|tid a].
  { apply step_Tick_inv in Hstep as (_ & _ & Hdt & ->).
    exists g, p. split; [done|]. simpl.
    destruct Hp as [(t & -> & ?)|[(-> & ?)|[(t & -> & ?)|(? & ?)]]].
    - left. exists t. split; [done|lia].
    - right; left. split; [done|lia].
    - right; right; left. by exists t.
    - right; right; right. split; [done|lia]. }
  destruct (step_Run_inv _ _ _ _ _ Hstep)
    as (g' & q & e & q' & c1 & Hex & _ & Htid & Hperf & ->).
  pose proof (perform_threads _ _ _ _ _ _ _ _ Hperf) as Hths.
  destruct (perform_ctx _ _ _ _ _ _ _ _ Hperf) as (Hclk & _).
  assert (Hlt : (0 < length (threads c))%nat) by by eapply lookup_lt_Some.
  destruct (decide (tid = 0%nat)) as [->|Hne].
  - rewrite Ht in Htid. simplify_eq. exists g', q'. simpl. rewrite Hths.
    split; [apply list_lookup_insert_eq; rewrite length_app; lia|].
    rewrite Hclk.
    destruct Hp as [(t & -> & ?)|[(-> & ?)|[(t & -> & ?)|([-> | ->] & ?)]]];
      simpl in Hperf; repeat (case_match; simplify_eq); simplify_eq.
    all: try (right; left; split; [done|]; simpl in *; lia).
    all: try (right; right; left; eexists; split; [done|]; simpl in *; lia).
    all: try (right; right; right; split; [by left|];
              repeat case_bool_decide; simplify_eq; simpl in *; lia).
    all: try (right; right; right; split; [by right|]; simpl in *; lia).
  - exists g, p. simpl. rewrite Hths, Hclk.
    split; [|done].
    rewrite list_lookup_insert_ne by done. by rewrite lookup_app_l.
Qed.

Lemma asleep_run cd d t0 ls c c' :
  0 ≤ d → asleep d t0 c → run cd ls c = Some c' → asleep d t0 c'.
Proof.
  intros Hd. revert c. induction ls as [|l ls IH]; intros c Hc Hrun; simpl in Hrun.
  { by simplify_eq. }
  destruct (step cd l c) as [c1|] eqn:Hstep; [|done].
  eapply IH; [|done]. by eapply asleep_step.
Qed.

(** [time.Sleep(200 * time.Millisecond)] at the end of the timing variant:
    from the moment [main] is at its second [select], whatever the other
    goroutines do and however the run is scheduled, [main] does not return
    before 200ms have passed. The comparison goroutine has at least that
    long to print. *)
Theorem exit_waits_for_the_sleep args c t k ls c' :
  reachable TimedVariant args c →
  threads c !! 0%nat = Some (GMain args, SelectResultOrTimer t k) →
  run (code TimedVariant) ls c = Some c' → exited c' = true →
  clock c + 200 * Millisecond ≤ clock c'.
Proof.
  intros Hc Ht Hrun Hex. destruct (reachable_inv _ _ _ Hc) as [Hg _].
  pose proof (gi_replay _ _ _ Hg _ _ _ Ht) as Hrep.
  pose proof (main_tail _ _ _ _ Hrep t k eq_refl) as ->.
  assert (Hsleep : asleep (200 * Millisecond) (clock c) c).
  { exists (GMain args), (SelectResultOrTimer t (Sleep (200 * Millisecond) (Cancel Return))).
    split; [done|]. left. by exists t. }
  assert (Hd : 0 ≤ 200 * Millisecond) by done.
  destruct (asleep_run _ _ _ _ _ _ Hd Hsleep Hrun) as (g & p & Ht' & Hp).
  unfold exited in Hex. rewrite Ht' in Hex.
  destruct Hp as [(? & -> & ?)|[(-> & ?)|[(? & -> & ?)|([-> | ->] & ?)]]];
    done.
Qed.

Lemma exit_waits_for_the_sleep_witness :
  reachable TimedVariant sample_args cfg_second_select ∧
  threads cfg_second_select !! 0%nat =
    Some (GMain sample_args,
          SelectResultOrTimer 100000050
            (Sleep (200 * Millisecond) (Cancel Return))) ∧
  run (code TimedVariant) sched_tail cfg_second_select =
    Some (after TimedVariant sample_args (sched_second_select ++ sched_tail)) ∧
  exited (after TimedVariant sample_args (sched_second_select ++ sched_tail)) = true ∧
  clock cfg_second_select + 200 * Millisecond ≤
    clock (after TimedVariant sample_args (sched_second_select ++ sched_tail)).
Proof.
  assert (H1 : reachable TimedVariant sample_args cfg_second_select)
    by (exists sched_second_select; vm_compute; reflexivity).
  assert (H2 : threads cfg_second_select !! 0%nat =
    Some (GMain sample_args,
          SelectResultOrTimer 100000050
            (Sleep (200 * Millisecond) (Cancel Return))))
    by (vm_compute; reflexivity).
  assert (H3 : run (code TimedVariant) sched_tail cfg_second_select =
    Some (after TimedVariant sample_args (sched_second_select ++ sched_tail)))
    by (vm_compute; reflexivity).
  assert (H4 : exited (after TimedVariant sample_args
                         (sched_second_select ++ sched_tail)) = true)
    by (vm_compute; reflexivity).
  split; [exact H1|]. split; [exact H2|]. split; [exact H3|]. split; [exact H4|].
  exact (exit_waits_for_the_sleep sample_args cfg_second_select _ _ _ _ H1 H2 H3 H4).
Defined.

(** ** Formats and timers *)

(** A timer case is taken only once its time has come. *)
Lemma perform_timer cd tid a p c e p' c' :
  perform cd tid a p c = Some (e, p', c') →
  (∀ t, e = ESelectResultOrTimer t None ∨ e = EWaitTimer t → t ≤ clock c).
Proof.
  destruct p; intros H; simpl in H;
    repeat (case_match; simplify_eq); simplify_eq;
    intros t' [?|?]; simplify_eq;
    by repeat match goal with
       | H : bool_decide _ = true |- _ => apply bool_decide_eq_true in H
       end.
Qed.

Lemma timers_fired v args c :
  reachable v args c →
  ∀ t, ESelectResultOrTimer t None ∈ (snd <$> trace c) ∨
       EWaitTimer t ∈ (snd <$> trace c) → t ≤ clock c.
Proof.
  intros Hc. induction Hc as [|l c c' Hc IH Hstep] using reachable_ind'.
  { simpl. intros t [?|?]; by elem_of_cases. }
  destruct l as [dt|tid a].
  { apply step_Tick_inv in Hstep as (_ & _ & Hdt & ->). simpl.
    intros t Hin. specialize (IH t Hin). lia. }
  destruct (step_Run_inv _ _ _ _ _ Hstep)
    as (g & p & e & p' & c1 & _ & _ & Ht & Hperf & ->).
  simpl. rewrite (perform_trace _ _ _ _ _ _ _ _ Hperf).
  destruct (perform_ctx _ _ _ _ _ _ _ _ Hperf) as (-> & _).
  pose proof (perform_timer _ _ _ _ _ _ _ _ Hperf) as Htimer.
  intros t. rewrite fmap_app, !elem_of_app. simpl.
  rewrite !list_elem_of_singleton.
  intros [[Hin|Heq]|[Hin|Heq]]; [by apply IH; left|apply Htimer; by left|
    by apply IH; right|apply Htimer; by right].
Qed.

(** The second [select] of [main]: reached only after a response without
    error, with the timer of 100ms started just before. *)
Lemma main_second_select v args evs p :
  replay (code v (GMain args)) evs = Some p →
  ∀ t o, ESelectResultOrTimer t o ∈ evs →
    v = TimedVariant ∧
    EAfter (100 * Millisecond) t ∈ evs ∧
    ∃ r1, Error r1 = None ∧ selected evs = [Some r1] ∧
          receives evs = r1 :: match o with Some r2 => [r2] | None => [] end.
Proof.
  intros H. explore_main H v.
  all: intros t' o Hin; elem_of_cases.
  all: split; [done|]; split; [by repeat constructor|].
  all: eexists; (split; [eassumption|]); (split; [done|]).
  all: simpl; repeat case_match; simplify_eq; done.
Qed.

(** The second [select] of the timing variant, [<-resultChan] against
    [time.After(100 * time.Millisecond)]: when it received, [main] has
    taken both responses, the second one being the response of the other
    backend, and the channel is empty; when it did not, 100ms had passed
    since the timer was started, and the second response, if any, stays in
    the channel. *)
Theorem second_select_drains_or_times_out args c t o :
  reachable TimedVariant args c →
  ESelectResultOrTimer t o ∈ local 0 (trace c) →
  EAfter (100 * Millisecond) t ∈ local 0 (trace c) ∧
  ∃ r1, Error r1 = None ∧ selected (local 0 (trace c)) = [Some r1] ∧
    match o with
    | Some r2 =>
        receives (local 0 (trace c)) = [r1; r2] ∧
        all_sends (trace c) = [r1; r2] ∧ resultChan c = [] ∧
        APIName r1 ≠ APIName r2
    | None =>
        receives (local 0 (trace c)) = [r1] ∧ t ≤ clock c ∧
        all_sends (trace c) = r1 :: resultChan c
    end.
Proof.
  intros Hc Hin. destruct (reachable_inv _ _ _ Hc) as [Hg Hr].
  destruct (main_replay _ _ _ Hg) as (p0 & _ & Hrep0).
  destruct (main_second_select _ _ _ _ Hrep0 t o Hin) as (_ & Hafter & r1 & Herr & Hsel & Hrecv).
  split; [done|]. exists r1. split; [done|]. split; [done|].
  pose proof (ri_chan _ Hr) as Hchan. rewrite Hrecv in Hchan.
  destruct o as [r2|].
  - split; [done|].
    assert (Hlen : (length (all_sends (trace c)) ≤ 2)%nat).
    { rewrite (ri_sends _ Hr), length_app.
      pose proof (fetch_thread_sends _ _ _ 1 Hg Hr (or_introl eq_refl)).
      pose proof (fetch_thread_sends _ _ _ 2 Hg Hr (or_intror eq_refl)). lia. }
    assert (Hnil : resultChan c = []).
    { rewrite Hchan in Hlen. simpl in Hlen. destruct (resultChan c); [done|].
      simpl in Hlen. lia. }
    rewrite Hnil in Hchan. split; [done|]. split; [done|].
    assert (Hb : ∀ k, k = 1%nat ∨ k = 2%nat →
      Forall (fun r => APIName r = if decide (k = 1%nat) then "BrasilAPI" else "ViaCEP")
        (sends (local k (trace c)))).
    { intros k Hk. destruct (fetch_thread _ _ _ k Hg Hr Hk) as [->|Hex]; [done|].
      destruct Hex as (g & p & _ & Hf & Hname & Hrep).
      eapply Forall_impl; [apply (fetch_failures _ _ _ _ Hf Hrep)|].
      simpl. intros r (-> & _). done. }
    pose proof (ri_sends _ Hr) as Hperm. rewrite Hchan in Hperm.
    pose proof (fetch_thread_sends _ _ _ 1 Hg Hr (or_introl eq_refl)) as H1.
    pose proof (fetch_thread_sends _ _ _ 2 Hg Hr (or_intror eq_refl)) as H2.
    pose proof (Hb 1%nat (or_introl eq_refl)) as Hb1.
    pose proof (Hb 2%nat (or_intror eq_refl)) as Hb2.
    destruct (sends (local 1 (trace c))) as [|s1 [|? ?]],
             (sends (local 2 (trace c))) as [|s2 [|? ?]];
      simpl in *; try lia;
      try (apply Permutation_length in Hperm; simpl in Hperm; lia).
    rewrite Forall_singleton in Hb1, Hb2.
    rewrite ?decide_True in Hb1 by done. rewrite ?decide_False in Hb2 by done.
    apply Permutation_length_2_inv in Hperm as [?|?]; simplify_eq; congruence.
  - split; [done|]. split; [|done].
    apply (timers_fired _ _ _ Hc). left. by apply (elem_of_local 0).
Qed.

Lemma second_select_drains_or_times_out_witness :
  reachable TimedVariant sample_args cfg_both_ok ∧
  ESelectResultOrTimer 100000050
    (Some (mkResponse (Some (PViaCEP sample_viacep)) "ViaCEP" None 50))
    ∈ local 0 (trace cfg_both_ok) ∧
  (EAfter (100 * Millisecond) 100000050 ∈ local 0 (trace cfg_both_ok) ∧
   ∃ r1, Error r1 = None ∧ selected (local 0 (trace cfg_both_ok)) = [Some r1] ∧
     receives (local 0 (trace cfg_both_ok)) =
       [r1; mkResponse (Some (PViaCEP sample_viacep)) "ViaCEP" None 50] ∧
     all_sends (trace cfg_both_ok) =
       [r1; mkResponse (Some (PViaCEP sample_viacep)) "ViaCEP" None 50] ∧
     resultChan cfg_both_ok = [] ∧
     APIName r1 ≠
       APIName (mkResponse (Some (PViaCEP sample_viacep)) "ViaCEP" None 50)).
Proof.
  assert (H1 : reachable TimedVariant sample_args cfg_both_ok)
    by (exists sched_both_ok; vm_compute; reflexivity).
  assert (H2 : ESelectResultOrTimer 100000050
                 (Some (mkResponse (Some (PViaCEP sample_viacep)) "ViaCEP" None 50))
               ∈ local 0 (trace cfg_both_ok))
    by (vm_compute; repeat constructor).
  split; [exact H1|]. split; [exact H2|].
  exact (second_select_drains_or_times_out sample_args cfg_both_ok _ _ H1 H2).
Defined.

(** ** The comparison goroutine from start to end *)

(** One operation of the comparison goroutine, with what it does to the
    mutex and the wait group. *)
Lemma report_step cd tid a p out m c e p' c1 :
  at_report tid p out m c →
  perform cd tid a p c = Some (e, p', c1) →
  is_wg_done p = false →
  (is_unlock p = true → timingMutex c ≠ None) →
  match p with WgAdd _ _ | MapStore _ _ _ | Go _ _ => False | _ => True end →
  ∃ c', step cd (Run tid a) c = Some c' ∧
        at_report tid p' (out ++ outputs [e]) m c' ∧
        timingMutex c' =
          match e with ELock => Some tid | EUnlock => None | _ => timingMutex c end ∧
        wg c' = wg c.
Proof.
  intros (Htid & Hex & Hpan & Ht & Hout & Hm) Hp Hd Hu Hk.
  eexists. split.
  { unfold step. by rewrite Hex, Hpan, Ht, Hp. }
  assert (Hlt : (tid < length (threads c))%nat) by by eapply lookup_lt_Some.
  pose proof (perform_threads _ _ _ _ _ _ _ _ Hp) as Hths.
  pose proof (perform_stdout _ _ _ _ _ _ _ _ Hp) as Hso.
  destruct (perform_results _ _ _ _ _ _ _ _ Hp) as (Hres & _).
  destruct (perform_wg _ _ _ _ _ _ _ _ Hp) as (Hpan' & Hwg & _).
  destruct (perform_mutex _ _ _ _ _ _ _ _ Hp) as (Hmu & _).
  pose proof (perform_next _ _ _ _ _ _ _ _ Hp) as Hn.
  assert (He : match e with
               | EWgAdd _ | EWgDone | EMapStore _ _ | EGo _ => False
               | EUnlock => timingMutex c ≠ None
               | _ => True
               end).
  { destruct p; try done; destruct e; try done; simpl in Hn;
      repeat case_match; simplify_eq. by apply Hu. }
  split; [|split; [done|]].
  - repeat split; simpl.
    + done.
    + unfold exited in *. simpl. rewrite Hths.
      by rewrite list_lookup_insert_ne, lookup_app_l by lia.
    + rewrite Hpan', Hpan. destruct e; try done. simpl.
      by rewrite bool_decide_eq_false_2.
    + rewrite Hths. apply list_lookup_insert_eq. rewrite length_app. lia.
    + by rewrite Hso, Hout.
    + rewrite Hres, Hm. by destruct e.
  - simpl. destruct e; try done; rewrite Hwg; try done.
    simpl. by rewrite bool_decide_eq_false_2.
Qed.

Lemma run_cons cd l ls c c1 :
  step cd l c = Some c1 → run cd (l :: ls) c = run cd ls c1.
Proof. intros H. simpl. by rewrite H. Qed.

(** The second loop of the comparison goroutine: one line per entry. *)
Lemma print_entries_run cd tid entries k out m c :
  at_report tid (Timed.print_entries entries k) out m c →
  ∃ c', run cd (replicate (length entries) (Run tid ANone)) c = Some c' ∧
        at_report tid k
          (out ++ ((fun e => OutPrintf Timed.entry_format
                               [VString e.1; VFloat64 (Seconds e.2)]) <$> entries))
          m c' ∧
        timingMutex c' = timingMutex c.
Proof.
  revert out c. induction entries as [|[api d] entries IH]; intros out c Hat.
  { exists c. simpl. by rewrite app_nil_r. }
  simpl in Hat.
  edestruct (report_step cd tid ANone) as (c1 & Hs1 & Hat1 & Hmu1 & _);
    [exact Hat|reflexivity|done..|].
  destruct (IH _ _ Hat1) as (c' & Hrun & Hat' & Hmu').
  exists c'. simpl. rewrite Hs1, Hrun. split; [done|].
  rewrite <- (assoc_L (++)) in Hat'. split; [done|]. by rewrite Hmu', Hmu1.
Qed.

(** A Lookup Task of the timing variant that has returned has signalled
    the wait group. *)
Lemma fetch_returned v g evs p :
  is_fetch g = true → replay (code v g) evs = Some p →
  v = TimedVariant → is_return p = true → wg_dones evs = [()].
Proof.
  intros Hg H. explore_fetch H v g. all: done.
Qed.

(** The comparison goroutine, from its start to its end. Once both Lookup
    Tasks have returned, the goroutine [main] has started runs through
    without waiting for anyone: it passes [wg.Wait()], prints the header,
    takes the mutex, prints the comparison when the timing map has more
    than one entry and the unavailable message otherwise, releases the
    mutex and returns. It leaves the timing map as it found it. *)
Theorem comparison_goroutine_runs_to_its_end args c g1 g2 first second :
  reachable TimedVariant args c → exited c = false →
  threads c !! 3%nat = Some (GTimingReport, Timed.timing_report) →
  threads c !! 1%nat = Some (g1, Return) →
  threads c !! 2%nat = Some (g2, Return) →
  first ≡ₚ map_to_list (timingResults c) →
  second ≡ₚ map_to_list (timingResults c) →
  ∃ c',
    run (code TimedVariant) (report_schedule 3 first second) c = Some c' ∧
    threads c' !! 3%nat = Some (GTimingReport, Return) ∧
    timingMutex c' = None ∧
    stdout c' = stdout c ++ report_lines first second ∧
    timingResults c' = timingResults c ∧
    exited c' = false.
Proof.
  intros Hc Hex Ht3 Ht1 Ht2 Hfirst Hsecond.
  destruct (reachable_inv _ _ _ Hc) as [Hg Hr].
  (* the counter is 0 *)
  assert (Hwg : wg c = 0).
  { pose proof (thread_identity _ _ _ _ _ _ Hg Hr Ht1) as (cep & _ & ->).
    pose proof (thread_identity _ _ _ _ _ _ Hg Hr Ht2) as (cep' & _ & ->).
    pose proof (fetch_returned _ (GFetchBrasilAPI cep) _ _ eq_refl
                  (gi_replay _ _ _ Hg _ _ _ Ht1) eq_refl eq_refl) as Hd1.
    pose proof (fetch_returned _ (GFetchViaCEP cep') _ _ eq_refl
                  (gi_replay _ _ _ Hg _ _ _ Ht2) eq_refl eq_refl) as Hd2.
    destruct (main_replay _ _ _ Hg) as (p0 & _ & Hrep0).
    destruct (main_spawns _ _ _ _ Hrep0) as (_ & _ & _ & _ & _ & Hgo).
    assert (Hgos : gos (local 0 (trace c)) ≠ []) by by eapply worker_exists.
    rewrite (ri_wg _ Hr), (Hgo Hgos eq_refl), Hd1, Hd2. done. }
  (* nobody holds the mutex *)
  assert (Hmu : timingMutex c = None).
  { destruct (timingMutex c) as [tid|] eqn:Hm; [|done]. exfalso.
    pose proof (ri_mutex _ Hr tid) as Hh. rewrite Hm in Hh.
    rewrite bool_decide_eq_true_2 in Hh by done.
    destruct (threads c !! tid) as [[g p]|] eqn:Ht.
    - pose proof (locked_replay _ _ _ (code_locked TimedVariant g)
                    (gi_replay _ _ _ Hg _ _ _ Ht)) as Hl.
      rewrite Hh in Hl.
      destruct tid as [|[|[|[|tid]]]].
      + destruct (main_replay _ _ _ Hg) as (p0 & _ & Hrep0).
        destruct (main_quiet _ _ _ _ Hrep0) as (_ & _ & _ & Hf & _). congruence.
      + rewrite Ht1 in Ht. by simplify_eq.
      + rewrite Ht2 in Ht. by simplify_eq.
      + rewrite Ht3 in Ht. simplify_eq.
        unfold Timed.timing_report in Hl. simpl in Hl. by destruct Hl.
      + by pose proof (thread_identity _ _ _ _ _ _ Hg Hr Ht) as (? & _ & ?).
    - rewrite (gi_bound _ _ _ Hg) in Hh; [done|]. by apply lookup_ge_None. }
  assert (Hat : at_report 3 Timed.timing_report (stdout c) (timingResults c) c).
  { repeat split; try done. apply Hr. }
  remember (code TimedVariant) as cd eqn:Hcd. clear Hcd.
  unfold Timed.timing_report, defer, Timed.compare_timings in Hat. simpl in Hat.
  edestruct (report_step cd 3%nat ANone) as (c1 & Hs1 & Hat1 & Hmu1 & Hwg1);
    [exact Hat|simpl; by rewrite bool_decide_eq_true_2|done..|].
  edestruct (report_step cd 3%nat ANone) as (c2 & Hs2 & Hat2 & Hmu2 & _);
    [exact Hat1|reflexivity|done..|].
  edestruct (report_step cd 3%nat ANone) as (c3 & Hs3 & Hat3 & Hmu3 & _);
    [exact Hat2|simpl; by rewrite Hmu2, Hmu1, Hmu|done..|].
  edestruct (report_step cd 3%nat ANone) as (c4 & Hs4 & Hat4 & Hmu4 & _);
    [exact Hat3|reflexivity|done..|].
  assert (Hsize : size (timingResults c3) = length first).
  { destruct Hat3 as (_&_&_&_&_&->).
    by rewrite <- length_map_to_list, Hfirst. }
  rewrite Hsize in Hat4. simpl in Hmu2, Hmu3, Hmu4, Hat4.
  unfold report_schedule, report_lines.
  cbn [app].
  rewrite (run_cons _ _ _ _ _ Hs1), (run_cons _ _ _ _ _ Hs2),
    (run_cons _ _ _ _ _ Hs3), (run_cons _ _ _ _ _ Hs4).
  destruct (bool_decide (1 < length first)%nat) eqn:Hlen.
  - simpl in Hat4.
    edestruct (report_step cd 3%nat (AOrder first)) as (c5 & Hs5 & Hat5 & Hmu5 & _);
      [exact Hat4| |done..|].
    { simpl. destruct Hat4 as (_&_&_&_&_&->). by rewrite bool_decide_eq_true_2. }
    simpl in Hat5.
    edestruct (report_step cd 3%nat ANone) as (c6 & Hs6 & Hat6 & Hmu6 & _);
      [exact Hat5|reflexivity|done..|].
    edestruct (report_step cd 3%nat ANone) as (c7 & Hs7 & Hat7 & Hmu7 & _);
      [exact Hat6|reflexivity|done..|].
    edestruct (report_step cd 3%nat ANone) as (c8 & Hs8 & Hat8 & Hmu8 & _);
      [exact Hat7|reflexivity|done..|].
    edestruct (report_step cd 3%nat (AOrder second)) as (c9 & Hs9 & Hat9 & Hmu9 & _);
      [exact Hat8| |done..|].
    { simpl. destruct Hat8 as (_&_&_&_&_&->). by rewrite bool_decide_eq_true_2. }
    simpl in Hat9. rewrite seq_print_entries in Hat9. simpl in Hat9.
    destruct (print_entries_run cd _ _ _ _ _ _ Hat9) as (c10 & Hrun10 & Hat10 & Hmu10).
    edestruct (report_step cd 3%nat ANone) as (c11 & Hs11 & Hat11 & Hmu11 & _);
      [exact Hat10|simpl; by rewrite Hmu10, Hmu9, Hmu8, Hmu7, Hmu6, Hmu5, Hmu4, Hmu3|done| |done|].
    { intros _. simpl in *. rewrite Hmu10, Hmu9, Hmu8, Hmu7, Hmu6, Hmu5, Hmu4, Hmu3. done. }
    exists c11. cbn [app].
    rewrite (run_cons _ _ _ _ _ Hs5), (run_cons _ _ _ _ _ Hs6),
      (run_cons _ _ _ _ _ Hs7), (run_cons _ _ _ _ _ Hs8), (run_cons _ _ _ _ _ Hs9).
    rewrite run_app, Hrun10, (run_cons _ _ _ _ _ Hs11). split; [done|].
    destruct Hat11 as (_ & Hex11 & _ & Ht11 & Hout11 & Hm11).
    split; [done|]. split; [done|]. split; [|done].
    rewrite Hout11. simpl. rewrite <- !(assoc_L (++)). simpl. by rewrite app_nil_r.
  - simpl in Hat4.
    edestruct (report_step cd 3%nat ANone) as (c5 & Hs5 & Hat5 & Hmu5 & _);
      [exact Hat4|reflexivity|done..|].
    edestruct (report_step cd 3%nat ANone) as (c6 & Hs6 & Hat6 & Hmu6 & _);
      [exact Hat5|simpl; by rewrite Hmu5, Hmu4, Hmu3|done| |done|].
    { intros _. simpl in *. rewrite Hmu5, Hmu4, Hmu3. done. }
    exists c6. cbn [app].
    rewrite (run_cons _ _ _ _ _ Hs5), (run_cons _ _ _ _ _ Hs6). split; [done|].
    destruct Hat6 as (_ & Hex6 & _ & Ht6 & Hout6 & Hm6).
    split; [done|]. split; [done|]. split; [|done].
    rewrite Hout6. simpl. rewrite <- !(assoc_L (++)). done.
Qed.
Lemma comparison_goroutine_runs_to_its_end_witness :
  (reachable TimedVariant sample_args cfg_spawned) ∧
  (exited cfg_spawned = false) ∧
  (threads cfg_spawned !! 3%nat = Some (GTimingReport, Timed.timing_report)) ∧
  (threads cfg_spawned !! 1%nat = Some ((GFetchBrasilAPI "01153000"), Return)) ∧
  (threads cfg_spawned !! 2%nat = Some ((GFetchViaCEP "01153000"), Return)) ∧
  ([("ViaCEP", 50); ("BrasilAPI", 30)] ≡ₚ map_to_list (timingResults cfg_spawned)) ∧
  ([("BrasilAPI", 30); ("ViaCEP", 50)] ≡ₚ map_to_list (timingResults cfg_spawned)) ∧
  (∃ c',
    run (code TimedVariant) (report_schedule 3 [("ViaCEP", 50); ("BrasilAPI", 30)] [("BrasilAPI", 30); ("ViaCEP", 50)]) cfg_spawned = Some c' ∧
    threads c' !! 3%nat = Some (GTimingReport, Return) ∧
    timingMutex c' = None ∧
    stdout c' = stdout cfg_spawned ++ report_lines [("ViaCEP", 50); ("BrasilAPI", 30)] [("BrasilAPI", 30); ("ViaCEP", 50)] ∧
    timingResults c' = timingResults cfg_spawned ∧
    exited c' = false).
Proof.
  assert (H1 : reachable TimedVariant sample_args cfg_spawned)
    by (exists sched_spawned; vm_compute; reflexivity).
  assert (H2 : exited cfg_spawned = false)
    by (vm_compute; reflexivity).
  assert (H3 : threads cfg_spawned !! 3%nat = Some (GTimingReport, Timed.timing_report))
    by (vm_compute; reflexivity).
  assert (H4 : threads cfg_spawned !! 1%nat = Some ((GFetchBrasilAPI "01153000"), Return))
    by (vm_compute; reflexivity).
  assert (H5 : threads cfg_spawned !! 2%nat = Some ((GFetchViaCEP "01153000"), Return))
    by (vm_compute; reflexivity).
  assert (H6 : [("ViaCEP", 50); ("BrasilAPI", 30)] ≡ₚ map_to_list (timingResults cfg_spawned))
    by (refine (bool_decide_unpack _ _); vm_compute; exact I).
  assert (H7 : [("BrasilAPI", 30); ("ViaCEP", 50)] ≡ₚ map_to_list (timingResults cfg_spawned))
    by (refine (bool_decide_unpack _ _); vm_compute; exact I).
  split; [exact H1|].
  split; [exact H2|].
  split; [exact H3|].
  split; [exact H4|].
  split; [exact H5|].
  split; [exact H6|].
  split; [exact H7|].
  exact (comparison_goroutine_runs_to_its_end sample_args cfg_spawned (GFetchBrasilAPI "01153000") (GFetchViaCEP "01153000") ([("ViaCEP", 50); ("BrasilAPI", 30)]) ([("BrasilAPI", 30); ("ViaCEP", 50)]) H1 H2 H3 H4 H5 H6 H7).
Defined.


(** ** The first [select], whatever it takes *)

(** [main] at its first [select] with a value in the channel: the value at
    the head of the channel is the first value sent; the receive case can
    be taken and takes that value; and whatever case the [select] takes, it
    is that value or, only if the deadline has passed or the context is
    cancelled, the deadline. *)
Lemma select_takes_first_sent v args c g k r rest :
  reachable v args c →
  threads c !! 0%nat = Some (g, SelectResultOrDone k) →
  resultChan c = r :: rest →
  head (all_sends (trace c)) = Some r ∧
  (∃ c', step (code v) (Run 0 (APick true)) c = Some c' ∧
         selected (local 0 (trace c')) = [Some r]) ∧
  (∀ a c', step (code v) (Run 0 a) c = Some c' →
     selected (local 0 (trace c')) = [Some r] ∨
     (selected (local 0 (trace c')) = [None] ∧ ctx_done c = true)) ∧
  (ctx_done c = true → is_Some (step (code v) (Run 0 (APick false)) c)).
Proof.
  intros Hc Ht Hch. destruct (reachable_inv _ _ _ Hc) as [Hg Hr].
  pose proof (thread_identity _ _ _ _ _ _ Hg Hr Ht) as Hid. simpl in Hid. subst g.
  pose proof (gi_replay _ _ _ Hg _ _ _ Ht) as Hrep.
  destruct (main_select _ _ _ _ Hrep) as (_ & Hsel & Hnone & _).
  destruct (Hsel eq_refl) as [Hsel0 _]. destruct (Hnone Hsel0) as [Hrecv _].
  assert (Hex : exited c = false) by by rewrite (exited_return _ _ _ Ht).
  assert (Hany : ∀ a c', step (code v) (Run 0 a) c = Some c' →
    (a = APick true ∧ selected (local 0 (trace c')) = [Some r]) ∨
    (a = APick false ∧ selected (local 0 (trace c')) = [None] ∧ ctx_done c = true)).
  { intros a c' Hstep.
    destruct (step_Run_shape _ _ _ _ _ Hstep)
      as (g' & p & e & p' & c1 & _ & _ & Ht' & Hperf & _ & _ & Htr & _).
    rewrite Ht in Ht'. injection Ht' as <- <-.
    rewrite Htr, local_snoc_eq, selected_app, Hsel0.
    simpl in Hperf. rewrite Hch in Hperf.
    destruct a as [|[|]| | | | | |]; try done.
    - left. by simplify_eq.
    - right. destruct (ctx_done c); by simplify_eq. }
  split; [by rewrite (ri_chan _ Hr), Hrecv, Hch|]. split; [|split].
  - destruct (step_enabled v args c 0%nat (GMain args) (SelectResultOrDone k)
                (APick true) Hc Hex Ht) as [c' Hstep].
    { simpl. by rewrite Hch. }
    exists c'. split; [done|].
    by destruct (Hany _ _ Hstep) as [[_ ?]|[? _]].
  - intros a c' Hstep.
    destruct (Hany _ _ Hstep) as [[_ ?]|(_ & ? & ?)]; auto.
  - intros Hdone. apply (step_enabled v args c 0%nat (GMain args)
                           (SelectResultOrDone k) (APick false) Hc Hex Ht).
    simpl. by rewrite Hdone.
Qed.

(** C1, as amended: for an invocation with a postal-code argument, when
    [main] is at its first [select] and a value has arrived, that value is
    the first one sent, the [select] can take it, and it is what the
    [select] takes unless the deadline has passed as well, in which case
    the [select] may take the deadline instead. When the [select] takes a
    value, [main] reports it at once: a success is printed with its backend
    identifier and address fields, with no wait in between; a failure is
    printed with its backend identifier and error, and [main] then only
    cancels the context and returns, never receiving the other backend's
    value. *)
Theorem C1_first_arrival_is_reported v args c :
  reachable v args c →
  (∀ g k r rest,
     threads c !! 0%nat = Some (g, SelectResultOrDone k) →
     resultChan c = r :: rest →
     head (all_sends (trace c)) = Some r ∧
     (∃ c', step (code v) (Run 0 (APick true)) c = Some c' ∧
            selected (local 0 (trace c')) = [Some r]) ∧
     (∀ a c', step (code v) (Run 0 a) c = Some c' →
        selected (local 0 (trace c')) = [Some r] ∨
        (selected (local 0 (trace c')) = [None] ∧ ctx_done c = true)) ∧
     (ctx_done c = false → ∀ a c', step (code v) (Run 0 a) c = Some c' →
        selected (local 0 (trace c')) = [Some r])) ∧
  (∀ r, selected (local 0 (trace c)) = [Some r] →
    let m := local 0 (trace c) in
    head (all_sends (trace c)) = Some r ∧
    (since_select m `prefix_of` (print_event <$> outcome_report v (Some r)) ∨
     (print_event <$> outcome_report v (Some r)) `prefix_of` since_select m) ∧
    (Error r = None →
       outcome_report v (Some r) =
         winner_line v r ::
         match Data r with Some data => [address_line data] | None => [] end) ∧
    (∀ err, Error r = Some err →
       since_select m `prefix_of`
         [EPrintf api_error_format [VString (APIName r); VError err]; ECancel] ∧
       receives m = [r] ∧
       (GTimingReport ∉ fst <$> threads c) ∧
       (∀ p, threads c !! 0%nat = Some (GMain args, p) → is_blocking p = false)) ∧
    (exited c = true →
       ∃ cep, cep_of args = Some cep ∧
         (OutPrintf searching_format [VString cep] :: outcome_report v (Some r))
           `prefix_of` stdout c) ∧
    (∀ p a, threads c !! 0%nat = Some (GMain args, p) → is_print p = true →
       is_Some (step (code v) (Run 0 a) c))).
Proof.
  intros Hc. split.
  - intros g k r rest Ht Hch.
    destruct (select_takes_first_sent _ _ _ _ _ _ _ Hc Ht Hch) as (H1 & H2 & H3 & _).
    split; [done|]. split; [done|]. split; [done|].
    intros Hnot a c' Hstep.
    destruct (H3 _ _ Hstep) as [?|[_ ?]]; [done|congruence].
  - intros r Hsel. exact (received_value_is_reported v args c r Hc Hsel).
Qed.

(** C2, as amended: the shared cancellation deadline is exactly one
    second. When [main] is at its first [select] after the deadline has
    fired and the channel is empty, the only case it can take is the
    deadline; it then prints the timeout line, cancels the context and
    returns, in both variants, and is never again at an operation that can
    wait. When a value has arrived by the time [main] takes its [select],
    although the deadline fired first, both cases are ready and the
    [select] may take either. *)
Theorem C2_deadline_one_second_then_timeout v args c :
  reachable v args c →
  let m := local 0 (trace c) in
  (∀ g k r rest,
     threads c !! 0%nat = Some (g, SelectResultOrDone k) →
     resultChan c = r :: rest → ctx_done c = true →
     is_Some (step (code v) (Run 0 (APick false)) c) ∧
     is_Some (step (code v) (Run 0 (APick true)) c) ∧
     (∀ a c', step (code v) (Run 0 a) c = Some c' →
        selected (local 0 (trace c')) = [None] ∨
        selected (local 0 (trace c')) = [Some r])) ∧
  (deadlines m = [] ∨ ∃ t, deadlines m = [(1000000000, t)]) ∧
  ctx_deadline c = snd <$> last (deadlines m) ∧
  (∀ g d k a c',
     threads c !! 0%nat = Some (g, WithTimeout d k) →
     step (code v) (Run 0 a) c = Some c' →
     d = 1000000000 ∧ ctx_deadline c' = Some (clock c + 1000000000)) ∧
  (∀ g k a c',
     threads c !! 0%nat = Some (g, SelectResultOrDone k) →
     resultChan c = [] →
     step (code v) (Run 0 a) c = Some c' →
     selected (local 0 (trace c')) = [None] ∧
     ∃ t, ctx_deadline c = Some t ∧ t ≤ clock c) ∧
  (∀ g k t,
     threads c !! 0%nat = Some (g, SelectResultOrDone k) →
     ctx_deadline c = Some t → t ≤ clock c →
     is_Some (step (code v) (Run 0 (APick false)) c)) ∧
  (selected m = [None] →
     since_select m `prefix_of` [EPrintln timeout_message; ECancel] ∧
     receives m = [] ∧
     (∀ p, threads c !! 0%nat = Some (GMain args, p) → is_blocking p = false) ∧
     (exited c = true →
        ∃ cep, cep_of args = Some cep ∧
          stdout c = [OutPrintf searching_format [VString cep];
                      OutPrintln timeout_message])).
Proof.
  intros Hc m. split; [|exact (deadline_then_timeout v args c Hc)].
  intros g k r rest Ht Hch Hdone.
  destruct (select_takes_first_sent _ _ _ _ _ _ _ Hc Ht Hch)
    as (_ & (c' & Hstep & _) & H3 & H4).
  split; [by apply H4|]. split; [by rewrite Hstep|].
  intros a c'' Hs. destruct (H3 _ _ Hs) as [?|[? _]]; auto.
Qed.

(** What [main] has set up when it is at its first [select] or past it:
    the channel of capacity 2 and the two Lookup Tasks. *)
Lemma main_setup v args evs p cep :
  replay (code v (GMain args)) evs = Some p → cep_of args = Some cep →
  is_return p = true ∨ selected evs ≠ [] ∨ is_select p = true →
  makechans evs = [2%nat] ∧
  lookup_tasks (gos evs) = [GFetchBrasilAPI cep; GFetchViaCEP cep].
Proof.
  intros H. explore_main H v.
  all: intros Hcep [?|[?|?]]; simplify_eq/=; done.
Qed.

(** C7: in both variants [main], given a postal code, makes the
    completion channel with capacity 2 and launches the two Lookup Tasks:
    its first operations lead to its [select] with exactly that set up,
    and from its [select] on the channel has capacity 2 and the Lookup
    Tasks are the two it launched. A Lookup Task at its send always finds
    a free slot, so its single send never has to wait for a receive,
    whatever the Coordinator is doing. *)
Theorem C7_channel_capacity_covers_every_send v args c :
  reachable v args c →
  (∀ arg0 cep rest, args = arg0 :: cep :: rest →
     ∃ c0,
       run (code v)
         (replicate (if v is TimedVariant then 6 else 5)%nat (Run 0 ANone))
         (init (code v) args) = Some c0 ∧
       (∃ k, threads c0 !! 0%nat = Some (GMain args, SelectResultOrDone k)) ∧
       makechans (local 0 (trace c0)) = [2%nat] ∧
       chan_cap c0 = 2%nat ∧ resultChan c0 = [] ∧
       lookup_tasks (fst <$> threads c0) =
         [GFetchBrasilAPI cep; GFetchViaCEP cep]) ∧
  (∀ cep, cep_of args = Some cep →
     exited c = true ∨ selected (local 0 (trace c)) ≠ [] ∨
     (∃ g k, threads c !! 0%nat = Some (g, SelectResultOrDone k)) →
     makechans (local 0 (trace c)) = [2%nat] ∧ chan_cap c = 2%nat ∧
     lookup_tasks (fst <$> threads c) =
       [GFetchBrasilAPI cep; GFetchViaCEP cep]) ∧
  (makechans (local 0 (trace c)) = [] ∨
   makechans (local 0 (trace c)) = [2%nat]) ∧
  (length (lookup_tasks (fst <$> threads c)) ≤ 2)%nat ∧
  (lookup_tasks (fst <$> threads c) ≠ [] → chan_cap c = 2%nat) ∧
  (selected (local 0 (trace c)) ≠ [] →
     length (lookup_tasks (fst <$> threads c)) = chan_cap c) ∧
  (∀ tid g r k, threads c !! tid = Some (g, ChanSend r k) →
     (length (resultChan c) < chan_cap c)%nat ∧
     (exited c = false → ∀ a, is_Some (step (code v) (Run tid a) c))).
Proof.
  intros Hc. split; [|split; [|exact (capacity_covers_sends v args c Hc)]].
  - intros arg0 cep rest ->.
    destruct v; eexists; (split; [vm_compute; reflexivity|]);
      vm_compute; repeat split; by eexists.
  - intros cep Hcep Hat. destruct (reachable_inv _ _ _ Hc) as [Hg Hr].
    destruct (main_replay _ _ _ Hg) as (p0 & Ht0 & Hrep0).
    assert (Hat' : is_return p0 = true ∨ selected (local 0 (trace c)) ≠ [] ∨
                   is_select p0 = true).
    { destruct Hat as [Hex|[?|(g & k & Ht)]]; [left|by right; left|right; right].
      - by rewrite <- (exited_return _ _ _ Ht0).
      - rewrite Ht0 in Ht. by simplify_eq. }
    destruct (main_setup _ _ _ _ _ Hrep0 Hcep Hat') as [Hmk Htasks].
    split; [done|]. split.
    + by rewrite (ri_cap _ Hr), Hmk.
    + by rewrite (gi_pool _ _ _ Hg), (ri_gos _ Hr).
Qed.

(** ** A Lookup Task in a given world *)

Lemma perform_answered cd w tid p c e p' c1 :
  perform cd tid (answer_for w p) p c = Some (e, p', c1) → answered_by w [e].
Proof.
  destruct p; simpl; intros H; repeat (case_match; simplify_eq); simplify_eq;
    by repeat constructor.
Qed.

(** Driven in world [w], a Lookup Task only gets the answers of [w]. *)
Lemma drive_answered cd w tid n c c' :
  drive cd w tid n c = Some c' →
  answered_by w (local tid (trace c)) → answered_by w (local tid (trace c')).
Proof.
  revert c. induction n as [|n IH]; intros c Hd Hw; simpl in Hd;
    destruct (threads c !! tid) as [[g p]|] eqn:Ht; try done.
  - destruct p; by simplify_eq.
  - destruct (decide (is_return p = true)) as [Hret|Hret].
    { destruct p; try done. by simplify_eq. }
    assert (Hd' : match step cd (Run tid (answer_for w p)) c with
                  | Some c1 => drive cd w tid n c1
                  | None => None
                  end = Some c') by (by destruct p).
    destruct (step cd (Run tid (answer_for w p)) c) as [c1|] eqn:Hstep; [|done].
    destruct (step_Run_shape _ _ _ _ _ Hstep)
      as (g' & q & e & q' & c2 & _ & _ & Ht' & Hperf & _ & _ & Htr & _).
    rewrite Ht in Ht'. injection Ht' as <- <-.
    apply (IH _ Hd'). rewrite Htr, local_snoc_eq. apply Forall_app.
    split; [done|]. by eapply perform_answered.
Qed.

(** A Lookup Task that has returned in world [w] has sent one response,
    under its backend's name: the error of the first call that fails in
    [w], with no data, or the decoded data when no call fails. *)
Lemma fetch_world v g w evs p :
  is_fetch g = true → replay (code v g) evs = Some p →
  is_return p = true → answered_by w evs →
  ∃ r, sends evs = [r] ∧ APIName r = backend_name g ∧
       Error r = expected_error g w ∧
       match expected_error g w with
       | Some _ => Data r = None
       | None => is_Some (Data r)
       end.
Proof.
  intros Hg H. destruct w as [nr cdo ra ub uv]. explore_fetch H v g.
  all: intros Hret Hw; try done.
  all: unfold answered_by in Hw; repeat (apply Forall_cons in Hw as [? Hw]).
  all: simplify_eq/=; eexists; (split; [done|]); (split; [done|]).
  all: unfold expected_error, decode_error; simpl;
    repeat match goal with
           | H : bool_decide _ = _ |- _ => rewrite H
           end; simpl.
  all: try (split; [done|]; try by eexists).
Qed.

(** The first failing call of a world, spelled out. *)
Lemma expected_error_kinds g w :
  (∀ err, new_request w = inl err → expected_error g w = Some err) ∧
  (∀ req err, new_request w = inr req → client_do w = inl err →
     expected_error g w = Some err) ∧
  (∀ req resp, new_request w = inr req → client_do w = inr resp →
     StatusCode resp ≠ StatusOK →
     expected_error g w = Some (status_error (StatusCode resp))) ∧
  (∀ req resp err, new_request w = inr req → client_do w = inr resp →
     StatusCode resp = StatusOK → read_all w = inl err →
     expected_error g w = Some err) ∧
  (∀ req resp body err, new_request w = inr req → client_do w = inr resp →
     StatusCode resp = StatusOK → read_all w = inr body →
     match g with
     | GFetchBrasilAPI _ => unmarshal_brasilapi w = inl err
     | GFetchViaCEP _ => unmarshal_viacep w = inl err
     | _ => False
     end →
     expected_error g w = Some err) ∧
  (∀ req resp body, new_request w = inr req → client_do w = inr resp →
     StatusCode resp = StatusOK → read_all w = inr body →
     match g with
     | GFetchBrasilAPI _ => ∃ d, unmarshal_brasilapi w = inr d
     | GFetchViaCEP _ => ∃ d, unmarshal_viacep w = inr d
     | _ => True
     end →
     expected_error g w = None).
Proof.
  unfold expected_error, decode_error.
  repeat split; intros; repeat match goal with
                        | H : _ w = _ |- _ => rewrite H
                        end;
    rewrite ?bool_decide_eq_true_2, ?bool_decide_eq_false_2 by (done || by intros []);
    try done.
  - destruct g; try done; by match goal with H : _ w = _ |- _ => rewrite H end.
  - destruct g; try done;
      by match goal with H : ∃ _, _ |- _ => destruct H as [? ->] end.
Qed.

(** C5: each of the five kinds of failure of a Lookup Task (request
    construction, transport, non-success HTTP status, body read, JSON
    decode) produces a Response: in whatever world the task runs, it
    returns having sent exactly one response, under the backend's name,
    whose error is the error of the first call that failed, with no data;
    the non-success status is carried by its numeric code, which the error
    message determines. The failure is final: the task hands at most one
    request to the client and is never at a network call once it has
    sent. *)
Theorem C5_failures_are_reported_as_data v args c tid g p :
  reachable v args c →
  threads c !! tid = Some (g, p) → is_fetch g = true →
  let evs := local tid (trace c) in
  (is_return p = true → ∃ r, sends evs = [r]) ∧
  (∀ w, exited c = false →
     timingMutex c = None ∨ timingMutex c = Some tid →
     answered_by w evs →
     ∃ c' r,
       drive (code v) w tid 12 c = Some c' ∧
       threads c' !! tid = Some (g, Return) ∧
       sends (local tid (trace c')) = [r] ∧
       APIName r = backend_name g ∧
       (∀ err, new_request w = inl err → Error r = Some err ∧ Data r = None) ∧
       (∀ req err, new_request w = inr req → client_do w = inl err →
          Error r = Some err ∧ Data r = None) ∧
       (∀ req resp, new_request w = inr req → client_do w = inr resp →
          StatusCode resp ≠ StatusOK →
          Error r = Some (status_error (StatusCode resp)) ∧ Data r = None) ∧
       (∀ req resp err, new_request w = inr req → client_do w = inr resp →
          StatusCode resp = StatusOK → read_all w = inl err →
          Error r = Some err ∧ Data r = None) ∧
       (∀ req resp body err, new_request w = inr req → client_do w = inr resp →
          StatusCode resp = StatusOK → read_all w = inr body →
          match g with
          | GFetchBrasilAPI _ => unmarshal_brasilapi w = inl err
          | GFetchViaCEP _ => unmarshal_viacep w = inl err
          | _ => False
          end →
          Error r = Some err ∧ Data r = None)) ∧
  Forall (fun r =>
    APIName r = backend_name g ∧
    (∀ m u err, ENewRequestWithContext m u (inl err) ∈ evs →
       Error r = Some err ∧ Data r = None) ∧
    (∀ req err, EClientDo req (inl err) ∈ evs →
       Error r = Some err ∧ Data r = None) ∧
    (∀ req resp, EClientDo req (inr resp) ∈ evs → StatusCode resp ≠ StatusOK →
       Error r = Some (status_error (StatusCode resp)) ∧ Data r = None) ∧
    (∀ b err, EReadAll b (inl err) ∈ evs → Error r = Some err ∧ Data r = None) ∧
    (∀ b err, EUnmarshalBrasilAPICEP b (inl err) ∈ evs →
       Error r = Some err ∧ Data r = None) ∧
    (∀ b err, EUnmarshalViaCEP b (inl err) ∈ evs →
       Error r = Some err ∧ Data r = None) ∧
    (Error r = None → is_Some (Data r))) (sends evs) ∧
  (backend_name g = "BrasilAPI" ∨ backend_name g = "ViaCEP") ∧
  (∀ code code', status_error code = status_error code' → code = code') ∧
  (length (requests evs) ≤ 1)%nat ∧
  (is_network p = true → sends evs = []) ∧
  requests evs = requests (before_send evs).
Proof.
  intros Hc Ht Hf evs. destruct (reachable_inv _ _ _ Hc) as [Hg Hr].
  pose proof (gi_replay _ _ _ Hg _ _ _ Ht) as Hrep.
  split; [|split; [|exact (failures_carried_as_data v args c tid g p Hc Ht Hf)]].
  - intros Hret. destruct (fetch_channel _ _ _ _ Hf Hrep) as (_ & _ & Hone).
    specialize (Hone Hret). fold evs in Hone.
    destruct (sends evs) as [|r [|? ?]]; try done. by exists r.
  - intros w Hex Hmu Hw.
    assert (Hb : bounded 12 p).
    { eapply bounded_replay; [by apply fetch_bounded|done]. }
    destruct (drive_total _ _ w _ _ _ _ _ Hc Hex Ht Hf Hb Hmu)
      as (c' & Hd & Hc' & _ & Ht').
    destruct (reachable_inv _ _ _ Hc') as [Hg' _].
    pose proof (gi_replay _ _ _ Hg' _ _ _ Ht') as Hrep'.
    pose proof (drive_answered _ _ _ _ _ _ Hd Hw) as Hw'.
    destruct (fetch_world _ _ w _ _ Hf Hrep' eq_refl Hw')
      as (r & Hs & Hn & He & Hdata).
    destruct (expected_error_kinds g w) as (K1 & K2 & K3 & K4 & K5 & _).
    exists c', r. do 4 (split; [done|]).
    split; [|split; [|split; [|split]]].
    + intros err H1. rewrite (K1 _ H1) in He, Hdata. done.
    + intros req err H1 H2. rewrite (K2 _ _ H1 H2) in He, Hdata. done.
    + intros req resp H1 H2 H3. rewrite (K3 _ _ H1 H2 H3) in He, Hdata. done.
    + intros req resp err H1 H2 H3 H4.
      rewrite (K4 _ _ _ H1 H2 H3 H4) in He, Hdata. done.
    + intros req resp body err H1 H2 H3 H4 H5.
      rewrite (K5 _ _ _ _ H1 H2 H3 H4 H5) in He, Hdata. done.
Qed.

(** C4, as amended: in the timing variant, when the comparison goroutine
    reads a timing map holding two entries with different durations, it
    prints as the fastest the entry with the smaller duration, as the
    slowest the entry with the larger one, and as the difference the
    [float64] value of [slowestTime.Seconds() - fastestTime.Seconds()],
    that is the rounded difference of the two rounded numbers of seconds,
    which need not be the number of seconds of the exact difference;
    whatever the order in which the map is visited, one line per entry
    follows; when the map holds fewer than two entries it prints the
    comparison-unavailable message and nothing else. *)
Theorem C4_timing_comparison c tid :
  at_report tid (defer (Unlock ;; Return)%prog Timed.compare_timings)
    (stdout c) (timingResults c) c →
  (∀ d1 d2,
     F64_value (F64Sub (Seconds d2) (Seconds d1)) =
     PrimFloat.sub
       (PrimFloat.add (Float64.of_int64 (Z.quot d2 Second))
          (PrimFloat.div (Float64.of_int64 (Z.rem d2 Second))
             (Float64.of_int64 1000000000)))
       (PrimFloat.add (Float64.of_int64 (Z.quot d1 Second))
          (PrimFloat.div (Float64.of_int64 (Z.rem d1 Second))
             (Float64.of_int64 1000000000)))) ∧
  (∀ n1 n2 d1 d2 o1 o2,
     timingResults c = <[n1 := d1]> (<[n2 := d2]> ∅) →
     n1 ≠ n2 → n1 ≠ "" → n2 ≠ "" → d1 < d2 →
     o1 ≡ₚ map_to_list (timingResults c) →
     o2 ≡ₚ map_to_list (timingResults c) →
     ∃ c',
       run (code TimedVariant)
         [Run tid ANone; Run tid (AOrder o1); Run tid ANone; Run tid ANone;
          Run tid ANone; Run tid (AOrder o2); Run tid ANone; Run tid ANone] c
       = Some c' ∧
       at_report tid (Unlock Return)
         (stdout c ++
          [OutPrintf Timed.fastest_format [VString n1; VFloat64 (Seconds d1)];
           OutPrintf Timed.slowest_format [VString n2; VFloat64 (Seconds d2)];
           OutPrintf Timed.difference_format
             [VFloat64 (F64Sub (Seconds d2) (Seconds d1))]] ++
          ((fun e => OutPrintf Timed.entry_format
                       [VString e.1; VFloat64 (Seconds e.2)]) <$> o2))
         (timingResults c) c') ∧
  ((size (timingResults c) < 2)%nat →
     ∃ c',
       run (code TimedVariant) [Run tid ANone; Run tid ANone] c = Some c' ∧
       at_report tid (Unlock Return)
         (stdout c ++ [OutPrintln Timed.unavailable_message])
         (timingResults c) c').
Proof.
  intros Hat. split; [done|]. exact (comparison_printed c tid Hat).
Qed.

(** ** The amended statements on the sample runs *)

Lemma C1_first_arrival_is_reported_witness :
 ((reachable TimedVariant sample_args cfg_both_ok) ∧
   ((∀ g k r rest,
      threads cfg_both_ok !! 0%nat = Some (g, SelectResultOrDone k) →
      resultChan cfg_both_ok = r :: rest →
      head (all_sends (trace cfg_both_ok)) = Some r ∧
      (∃ c', step (code TimedVariant) (Run 0 (APick true)) cfg_both_ok = Some c' ∧
             selected (local 0 (trace c')) = [Some r]) ∧
      (∀ a c', step (code TimedVariant) (Run 0 a) cfg_both_ok = Some c' →
         selected (local 0 (trace c')) = [Some r] ∨
         (selected (local 0 (trace c')) = [None] ∧ ctx_done cfg_both_ok = true)) ∧
      (ctx_done cfg_both_ok = false → ∀ a c', step (code TimedVariant) (Run 0 a) cfg_both_ok = Some c' →
         selected (local 0 (trace c')) = [Some r])) ∧
   (∀ r, selected (local 0 (trace cfg_both_ok)) = [Some r] →
     let m := local 0 (trace cfg_both_ok) in
     head (all_sends (trace cfg_both_ok)) = Some r ∧
     (since_select m `prefix_of` (print_event <$> outcome_report TimedVariant (Some r)) ∨
      (print_event <$> outcome_report TimedVariant (Some r)) `prefix_of` since_select m) ∧
     (Error r = None →
        outcome_report TimedVariant (Some r) =
          winner_line TimedVariant r ::
          match Data r with Some data => [address_line data] | None => [] end) ∧
     (∀ err, Error r = Some err →
        since_select m `prefix_of`
          [EPrintf api_error_format [VString (APIName r); VError err]; ECancel] ∧
        receives m = [r] ∧
        (GTimingReport ∉ fst <$> threads cfg_both_ok) ∧
        (∀ p, threads cfg_both_ok !! 0%nat = Some (GMain sample_args, p) → is_blocking p = false)) ∧
     (exited cfg_both_ok = true →
        ∃ cep, cep_of sample_args = Some cep ∧
          (OutPrintf searching_format [VString cep] :: outcome_report TimedVariant (Some r))
            `prefix_of` stdout cfg_both_ok) ∧
     (∀ p a, threads cfg_both_ok !! 0%nat = Some (GMain sample_args, p) → is_print p = true →
        is_Some (step (code TimedVariant) (Run 0 a) cfg_both_ok))))) ∧
 ((reachable PlainVariant sample_args cfg_plain_send) ∧
   ((∀ g k r rest,
      threads cfg_plain_send !! 0%nat = Some (g, SelectResultOrDone k) →
      resultChan cfg_plain_send = r :: rest →
      head (all_sends (trace cfg_plain_send)) = Some r ∧
      (∃ c', step (code PlainVariant) (Run 0 (APick true)) cfg_plain_send = Some c' ∧
             selected (local 0 (trace c')) = [Some r]) ∧
      (∀ a c', step (code PlainVariant) (Run 0 a) cfg_plain_send = Some c' →
         selected (local 0 (trace c')) = [Some r] ∨
         (selected (local 0 (trace c')) = [None] ∧ ctx_done cfg_plain_send = true)) ∧
      (ctx_done cfg_plain_send = false → ∀ a c', step (code PlainVariant) (Run 0 a) cfg_plain_send = Some c' →
         selected (local 0 (trace c')) = [Some r])) ∧
   (∀ r, selected (local 0 (trace cfg_plain_send)) = [Some r] →
     let m := local 0 (trace cfg_plain_send) in
     head (all_sends (trace cfg_plain_send)) = Some r ∧
     (since_select m `prefix_of` (print_event <$> outcome_report PlainVariant (Some r)) ∨
      (print_event <$> outcome_report PlainVariant (Some r)) `prefix_of` since_select m) ∧
     (Error r = None →
        outcome_report PlainVariant (Some r) =
          winner_line PlainVariant r ::
          match Data r with Some data => [address_line data] | None => [] end) ∧
     (∀ err, Error r = Some err →
        since_select m `prefix_of`
          [EPrintf api_error_format [VString (APIName r); VError err]; ECancel] ∧
        receives m = [r] ∧
        (GTimingReport ∉ fst <$> threads cfg_plain_send) ∧
        (∀ p, threads cfg_plain_send !! 0%nat = Some (GMain sample_args, p) → is_blocking p = false)) ∧
     (exited cfg_plain_send = true →
        ∃ cep, cep_of sample_args = Some cep ∧
          (OutPrintf searching_format [VString cep] :: outcome_report PlainVariant (Some r))
            `prefix_of` stdout cfg_plain_send) ∧
     (∀ p a, threads cfg_plain_send !! 0%nat = Some (GMain sample_args, p) → is_print p = true →
        is_Some (step (code PlainVariant) (Run 0 a) cfg_plain_send))))).
Proof.
  split.
  {
  assert (H1 : reachable TimedVariant sample_args cfg_both_ok)
    by (exists sched_both_ok; vm_compute; reflexivity).
  split; [exact H1|].
  exact (C1_first_arrival_is_reported TimedVariant sample_args cfg_both_ok H1).
  }
  {
  assert (H1 : reachable PlainVariant sample_args cfg_plain_send)
    by (exists sched_plain_send; vm_compute; reflexivity).
  split; [exact H1|].
  exact (C1_first_arrival_is_reported PlainVariant sample_args cfg_plain_send H1).
  }
Defined.

Lemma C2_deadline_one_second_then_timeout_witness :
 ((reachable TimedVariant sample_args cfg_timeout) ∧
   (let m := local 0 (trace cfg_timeout) in
   (∀ g k r rest,
      threads cfg_timeout !! 0%nat = Some (g, SelectResultOrDone k) →
      resultChan cfg_timeout = r :: rest → ctx_done cfg_timeout = true →
      is_Some (step (code TimedVariant) (Run 0 (APick false)) cfg_timeout) ∧
      is_Some (step (code TimedVariant) (Run 0 (APick true)) cfg_timeout) ∧
      (∀ a c', step (code TimedVariant) (Run 0 a) cfg_timeout = Some c' →
         selected (local 0 (trace c')) = [None] ∨
         selected (local 0 (trace c')) = [Some r])) ∧
   (deadlines m = [] ∨ ∃ t, deadlines m = [(1000000000, t)]) ∧
   ctx_deadline cfg_timeout = snd <$> last (deadlines m) ∧
   (∀ g d k a c',
      threads cfg_timeout !! 0%nat = Some (g, WithTimeout d k) →
      step (code TimedVariant) (Run 0 a) cfg_timeout = Some c' →
      d = 1000000000 ∧ ctx_deadline c' = Some (clock cfg_timeout + 1000000000)) ∧
   (∀ g k a c',
      threads cfg_timeout !! 0%nat = Some (g, SelectResultOrDone k) →
      resultChan cfg_timeout = [] →
      step (code TimedVariant) (Run 0 a) cfg_timeout = Some c' →
      selected (local 0 (trace c')) = [None] ∧
      ∃ t, ctx_deadline cfg_timeout = Some t ∧ t ≤ clock cfg_timeout) ∧
   (∀ g k t,
      threads cfg_timeout !! 0%nat = Some (g, SelectResultOrDone k) →
      ctx_deadline cfg_timeout = Some t → t ≤ clock cfg_timeout →
      is_Some (step (code TimedVariant) (Run 0 (APick false)) cfg_timeout)) ∧
   (selected m = [None] →
      since_select m `prefix_of` [EPrintln timeout_message; ECancel] ∧
      receives m = [] ∧
      (∀ p, threads cfg_timeout !! 0%nat = Some (GMain sample_args, p) → is_blocking p = false) ∧
      (exited cfg_timeout = true →
         ∃ cep, cep_of sample_args = Some cep ∧
           stdout cfg_timeout = [OutPrintf searching_format [VString cep];
                       OutPrintln timeout_message])))) ∧
 ((reachable PlainVariant sample_args cfg_plain_timeout) ∧
   (let m := local 0 (trace cfg_plain_timeout) in
   (∀ g k r rest,
      threads cfg_plain_timeout !! 0%nat = Some (g, SelectResultOrDone k) →
      resultChan cfg_plain_timeout = r :: rest → ctx_done cfg_plain_timeout = true →
      is_Some (step (code PlainVariant) (Run 0 (APick false)) cfg_plain_timeout) ∧
      is_Some (step (code PlainVariant) (Run 0 (APick true)) cfg_plain_timeout) ∧
      (∀ a c', step (code PlainVariant) (Run 0 a) cfg_plain_timeout = Some c' →
         selected (local 0 (trace c')) = [None] ∨
         selected (local 0 (trace c')) = [Some r])) ∧
   (deadlines m = [] ∨ ∃ t, deadlines m = [(1000000000, t)]) ∧
   ctx_deadline cfg_plain_timeout = snd <$> last (deadlines m) ∧
   (∀ g d k a c',
      threads cfg_plain_timeout !! 0%nat = Some (g, WithTimeout d k) →
      step (code PlainVariant) (Run 0 a) cfg_plain_timeout = Some c' →
      d = 1000000000 ∧ ctx_deadline c' = Some (clock cfg_plain_timeout + 1000000000)) ∧
   (∀ g k a c',
      threads cfg_plain_timeout !! 0%nat = Some (g, SelectResultOrDone k) →
      resultChan cfg_plain_timeout = [] →
      step (code PlainVariant) (Run 0 a) cfg_plain_timeout = Some c' →
      selected (local 0 (trace c')) = [None] ∧
      ∃ t, ctx_deadline cfg_plain_timeout = Some t ∧ t ≤ clock cfg_plain_timeout) ∧
   (∀ g k t,
      threads cfg_plain_timeout !! 0%nat = Some (g, SelectResultOrDone k) →
      ctx_deadline cfg_plain_timeout = Some t → t ≤ clock cfg_plain_timeout →
      is_Some (step (code PlainVariant) (Run 0 (APick false)) cfg_plain_timeout)) ∧
   (selected m = [None] →
      since_select m `prefix_of` [EPrintln timeout_message; ECancel] ∧
      receives m = [] ∧
      (∀ p, threads cfg_plain_timeout !! 0%nat = Some (GMain sample_args, p) → is_blocking p = false) ∧
      (exited cfg_plain_timeout = true →
         ∃ cep, cep_of sample_args = Some cep ∧
           stdout cfg_plain_timeout = [OutPrintf searching_format [VString cep];
                       OutPrintln timeout_message])))).
Proof.
  split.
  {
  assert (H1 : reachable TimedVariant sample_args cfg_timeout)
    by (exists sched_timeout; vm_compute; reflexivity).
  split; [exact H1|].
  exact (C2_deadline_one_second_then_timeout TimedVariant sample_args cfg_timeout H1).
  }
  {
  assert (H1 : reachable PlainVariant sample_args cfg_plain_timeout)
    by (exists sched_plain_timeout; vm_compute; reflexivity).
  split; [exact H1|].
  exact (C2_deadline_one_second_then_timeout PlainVariant sample_args cfg_plain_timeout H1).
  }
Defined.

Lemma C4_timing_comparison_witness :
  (at_report 3%nat (defer (Unlock ;; Return)%prog Timed.compare_timings)
    (stdout cfg_report) (timingResults cfg_report) cfg_report) ∧
  ((∀ d1 d2,
     F64_value (F64Sub (Seconds d2) (Seconds d1)) =
     PrimFloat.sub
       (PrimFloat.add (Float64.of_int64 (Z.quot d2 Second))
          (PrimFloat.div (Float64.of_int64 (Z.rem d2 Second))
             (Float64.of_int64 1000000000)))
       (PrimFloat.add (Float64.of_int64 (Z.quot d1 Second))
          (PrimFloat.div (Float64.of_int64 (Z.rem d1 Second))
             (Float64.of_int64 1000000000)))) ∧
  (∀ n1 n2 d1 d2 o1 o2,
     timingResults cfg_report = <[n1 := d1]> (<[n2 := d2]> ∅) →
     n1 ≠ n2 → n1 ≠ "" → n2 ≠ "" → d1 < d2 →
     o1 ≡ₚ map_to_list (timingResults cfg_report) →
     o2 ≡ₚ map_to_list (timingResults cfg_report) →
     ∃ c',
       run (code TimedVariant)
         [Run 3%nat ANone; Run 3%nat (AOrder o1); Run 3%nat ANone; Run 3%nat ANone;
          Run 3%nat ANone; Run 3%nat (AOrder o2); Run 3%nat ANone; Run 3%nat ANone] cfg_report
       = Some c' ∧
       at_report 3%nat (Unlock Return)
         (stdout cfg_report ++
          [OutPrintf Timed.fastest_format [VString n1; VFloat64 (Seconds d1)];
           OutPrintf Timed.slowest_format [VString n2; VFloat64 (Seconds d2)];
           OutPrintf Timed.difference_format
             [VFloat64 (F64Sub (Seconds d2) (Seconds d1))]] ++
          ((fun e => OutPrintf Timed.entry_format
                       [VString e.1; VFloat64 (Seconds e.2)]) <$> o2))
         (timingResults cfg_report) c') ∧
  ((size (timingResults cfg_report) < 2)%nat →
     ∃ c',
       run (code TimedVariant) [Run 3%nat ANone; Run 3%nat ANone] cfg_report = Some c' ∧
       at_report 3%nat (Unlock Return)
         (stdout cfg_report ++ [OutPrintln Timed.unavailable_message])
         (timingResults cfg_report) c')).
Proof.
  assert (H1 : at_report 3%nat (defer (Unlock ;; Return)%prog Timed.compare_timings) (stdout cfg_report) (timingResults cfg_report) cfg_report)
    by (repeat split; try (vm_compute; reflexivity); discriminate).
  split; [exact H1|].
  exact (C4_timing_comparison cfg_report 3%nat H1).
Defined.

Lemma C5_failures_are_reported_as_data_witness :
 ((reachable TimedVariant sample_args cfg_failure) ∧
   (threads cfg_failure !! 1%nat = Some ((GFetchBrasilAPI "01153000"), (prog_of cfg_failure 1))) ∧
   (is_fetch (GFetchBrasilAPI "01153000") = true) ∧
   (let evs := local 1%nat (trace cfg_failure) in
   (is_return (prog_of cfg_failure 1) = true → ∃ r, sends evs = [r]) ∧
   (∀ w, exited cfg_failure = false →
      timingMutex cfg_failure = None ∨ timingMutex cfg_failure = Some 1%nat →
      answered_by w evs →
      ∃ c' r,
        drive (code TimedVariant) w 1%nat 12 cfg_failure = Some c' ∧
        threads c' !! 1%nat = Some ((GFetchBrasilAPI "01153000"), Return) ∧
        sends (local 1%nat (trace c')) = [r] ∧
        APIName r = backend_name (GFetchBrasilAPI "01153000") ∧
        (∀ err, new_request w = inl err → Error r = Some err ∧ Data r = None) ∧
        (∀ req err, new_request w = inr req → client_do w = inl err →
           Error r = Some err ∧ Data r = None) ∧
        (∀ req resp, new_request w = inr req → client_do w = inr resp →
           StatusCode resp ≠ StatusOK →
           Error r = Some (status_error (StatusCode resp)) ∧ Data r = None) ∧
        (∀ req resp err, new_request w = inr req → client_do w = inr resp →
           StatusCode resp = StatusOK → read_all w = inl err →
           Error r = Some err ∧ Data r = None) ∧
        (∀ req resp body err, new_request w = inr req → client_do w = inr resp →
           StatusCode resp = StatusOK → read_all w = inr body →
           match (GFetchBrasilAPI "01153000") with
           | GFetchBrasilAPI _ => unmarshal_brasilapi w = inl err
           | GFetchViaCEP _ => unmarshal_viacep w = inl err
           | _ => False
           end →
           Error r = Some err ∧ Data r = None)) ∧
   Forall (fun r =>
     APIName r = backend_name (GFetchBrasilAPI "01153000") ∧
     (∀ m u err, ENewRequestWithContext m u (inl err) ∈ evs →
        Error r = Some err ∧ Data r = None) ∧
     (∀ req err, EClientDo req (inl err) ∈ evs →
        Error r = Some err ∧ Data r = None) ∧
     (∀ req resp, EClientDo req (inr resp) ∈ evs → StatusCode resp ≠ StatusOK →
        Error r = Some (status_error (StatusCode resp)) ∧ Data r = None) ∧
     (∀ b err, EReadAll b (inl err) ∈ evs → Error r = Some err ∧ Data r = None) ∧
     (∀ b err, EUnmarshalBrasilAPICEP b (inl err) ∈ evs →
        Error r = Some err ∧ Data r = None) ∧
     (∀ b err, EUnmarshalViaCEP b (inl err) ∈ evs →
        Error r = Some err ∧ Data r = None) ∧
     (Error r = None → is_Some (Data r))) (sends evs) ∧
   (backend_name (GFetchBrasilAPI "01153000") = "BrasilAPI" ∨ backend_name (GFetchBrasilAPI "01153000") = "ViaCEP") ∧
   (∀ code code', status_error code = status_error code' → code = code') ∧
   (length (requests evs) ≤ 1)%nat ∧
   (is_network (prog_of cfg_failure 1) = true → sends evs = []) ∧
   requests evs = requests (before_send evs))) ∧
 ((reachable PlainVariant sample_args cfg_plain_failure) ∧
   (threads cfg_plain_failure !! 1%nat = Some ((GFetchBrasilAPI "01153000"), (prog_of cfg_plain_failure 1))) ∧
   (is_fetch (GFetchBrasilAPI "01153000") = true) ∧
   (let evs := local 1%nat (trace cfg_plain_failure) in
   (is_return (prog_of cfg_plain_failure 1) = true → ∃ r, sends evs = [r]) ∧
   (∀ w, exited cfg_plain_failure = false →
      timingMutex cfg_plain_failure = None ∨ timingMutex cfg_plain_failure = Some 1%nat →
      answered_by w evs →
      ∃ c' r,
        drive (code PlainVariant) w 1%nat 12 cfg_plain_failure = Some c' ∧
        threads c' !! 1%nat = Some ((GFetchBrasilAPI "01153000"), Return) ∧
        sends (local 1%nat (trace c')) = [r] ∧
        APIName r = backend_name (GFetchBrasilAPI "01153000") ∧
        (∀ err, new_request w = inl err → Error r = Some err ∧ Data r = None) ∧
        (∀ req err, new_request w = inr req → client_do w = inl err →
           Error r = Some err ∧ Data r = None) ∧
        (∀ req resp, new_request w = inr req → client_do w = inr resp →
           StatusCode resp ≠ StatusOK →
           Error r = Some (status_error (StatusCode resp)) ∧ Data r = None) ∧
        (∀ req resp err, new_request w = inr req → client_do w = inr resp →
           StatusCode resp = StatusOK → read_all w = inl err →
           Error r = Some err ∧ Data r = None) ∧
        (∀ req resp body err, new_request w = inr req → client_do w = inr resp →
           StatusCode resp = StatusOK → read_all w = inr body →
           match (GFetchBrasilAPI "01153000") with
           | GFetchBrasilAPI _ => unmarshal_brasilapi w = inl err
           | GFetchViaCEP _ => unmarshal_viacep w = inl err
           | _ => False
           end →
           Error r = Some err ∧ Data r = None)) ∧
   Forall (fun r =>
     APIName r = backend_name (GFetchBrasilAPI "01153000") ∧
     (∀ m u err, ENewRequestWithContext m u (inl err) ∈ evs →
        Error r = Some err ∧ Data r = None) ∧
     (∀ req err, EClientDo req (inl err) ∈ evs →
        Error r = Some err ∧ Data r = None) ∧
     (∀ req resp, EClientDo req (inr resp) ∈ evs → StatusCode resp ≠ StatusOK →
        Error r = Some (status_error (StatusCode resp)) ∧ Data r = None) ∧
     (∀ b err, EReadAll b (inl err) ∈ evs → Error r = Some err ∧ Data r = None) ∧
     (∀ b err, EUnmarshalBrasilAPICEP b (inl err) ∈ evs →
        Error r = Some err ∧ Data r = None) ∧
     (∀ b err, EUnmarshalViaCEP b (inl err) ∈ evs →
        Error r = Some err ∧ Data r = None) ∧
     (Error r = None → is_Some (Data r))) (sends evs) ∧
   (backend_name (GFetchBrasilAPI "01153000") = "BrasilAPI" ∨ backend_name (GFetchBrasilAPI "01153000") = "ViaCEP") ∧
   (∀ code code', status_error code = status_error code' → code = code') ∧
   (length (requests evs) ≤ 1)%nat ∧
   (is_network (prog_of cfg_plain_failure 1) = true → sends evs = []) ∧
   requests evs = requests (before_send evs))).
Proof.
  split.
  {
  assert (H1 : reachable TimedVariant sample_args cfg_failure)
    by (exists sched_failure; vm_compute; reflexivity).
  assert (H2 : threads cfg_failure !! 1%nat = Some ((GFetchBrasilAPI "01153000"), (prog_of cfg_failure 1)))
    by (vm_compute; reflexivity).
  assert (H3 : is_fetch (GFetchBrasilAPI "01153000") = true)
    by (vm_compute; reflexivity).
  split; [exact H1|].
  split; [exact H2|].
  split; [exact H3|].
  exact (C5_failures_are_reported_as_data TimedVariant sample_args cfg_failure 1%nat (GFetchBrasilAPI "01153000") (prog_of cfg_failure 1) H1 H2 H3).
  }
  {
  assert (H1 : reachable PlainVariant sample_args cfg_plain_failure)
    by (exists sched_plain_failure; vm_compute; reflexivity).
  assert (H2 : threads cfg_plain_failure !! 1%nat = Some ((GFetchBrasilAPI "01153000"), (prog_of cfg_plain_failure 1)))
    by (vm_compute; reflexivity).
  assert (H3 : is_fetch (GFetchBrasilAPI "01153000") = true)
    by (vm_compute; reflexivity).
  split; [exact H1|].
  split; [exact H2|].
  split; [exact H3|].
  exact (C5_failures_are_reported_as_data PlainVariant sample_args cfg_plain_failure 1%nat (GFetchBrasilAPI "01153000") (prog_of cfg_plain_failure 1) H1 H2 H3).
  }
Defined.

Lemma C7_channel_capacity_covers_every_send_witness :
 ((reachable TimedVariant sample_args cfg_send) ∧
   ((∀ arg0 cep rest, sample_args = arg0 :: cep :: rest →
      ∃ c0,
        run (code TimedVariant)
          (replicate (if TimedVariant is TimedVariant then 6 else 5)%nat (Run 0 ANone))
          (init (code TimedVariant) sample_args) = Some c0 ∧
        (∃ k, threads c0 !! 0%nat = Some (GMain sample_args, SelectResultOrDone k)) ∧
        makechans (local 0 (trace c0)) = [2%nat] ∧
        chan_cap c0 = 2%nat ∧ resultChan c0 = [] ∧
        lookup_tasks (fst <$> threads c0) =
          [GFetchBrasilAPI cep; GFetchViaCEP cep]) ∧
   (∀ cep, cep_of sample_args = Some cep →
      exited cfg_send = true ∨ selected (local 0 (trace cfg_send)) ≠ [] ∨
      (∃ g k, threads cfg_send !! 0%nat = Some (g, SelectResultOrDone k)) →
      makechans (local 0 (trace cfg_send)) = [2%nat] ∧ chan_cap cfg_send = 2%nat ∧
      lookup_tasks (fst <$> threads cfg_send) =
        [GFetchBrasilAPI cep; GFetchViaCEP cep]) ∧
   (makechans (local 0 (trace cfg_send)) = [] ∨
    makechans (local 0 (trace cfg_send)) = [2%nat]) ∧
   (length (lookup_tasks (fst <$> threads cfg_send)) ≤ 2)%nat ∧
   (lookup_tasks (fst <$> threads cfg_send) ≠ [] → chan_cap cfg_send = 2%nat) ∧
   (selected (local 0 (trace cfg_send)) ≠ [] →
      length (lookup_tasks (fst <$> threads cfg_send)) = chan_cap cfg_send) ∧
   (∀ tid g r k, threads cfg_send !! tid = Some (g, ChanSend r k) →
      (length (resultChan cfg_send) < chan_cap cfg_send)%nat ∧
      (exited cfg_send = false → ∀ a, is_Some (step (code TimedVariant) (Run tid a) cfg_send))))) ∧
 ((reachable PlainVariant sample_args cfg_plain_send) ∧
   ((∀ arg0 cep rest, sample_args = arg0 :: cep :: rest →
      ∃ c0,
        run (code PlainVariant)
          (replicate (if PlainVariant is TimedVariant then 6 else 5)%nat (Run 0 ANone))
          (init (code PlainVariant) sample_args) = Some c0 ∧
        (∃ k, threads c0 !! 0%nat = Some (GMain sample_args, SelectResultOrDone k)) ∧
        makechans (local 0 (trace c0)) = [2%nat] ∧
        chan_cap c0 = 2%nat ∧ resultChan c0 = [] ∧
        lookup_tasks (fst <$> threads c0) =
          [GFetchBrasilAPI cep; GFetchViaCEP cep]) ∧
   (∀ cep, cep_of sample_args = Some cep →
      exited cfg_plain_send = true ∨ selected (local 0 (trace cfg_plain_send)) ≠ [] ∨
      (∃ g k, threads cfg_plain_send !! 0%nat = Some (g, SelectResultOrDone k)) →
      makechans (local 0 (trace cfg_plain_send)) = [2%nat] ∧ chan_cap cfg_plain_send = 2%nat ∧
      lookup_tasks (fst <$> threads cfg_plain_send) =
        [GFetchBrasilAPI cep; GFetchViaCEP cep]) ∧
   (makechans (local 0 (trace cfg_plain_send)) = [] ∨
    makechans (local 0 (trace cfg_plain_send)) = [2%nat]) ∧
   (length (lookup_tasks (fst <$> threads cfg_plain_send)) ≤ 2)%nat ∧
   (lookup_tasks (fst <$> threads cfg_plain_send) ≠ [] → chan_cap cfg_plain_send = 2%nat) ∧
   (selected (local 0 (trace cfg_plain_send)) ≠ [] →
      length (lookup_tasks (fst <$> threads cfg_plain_send)) = chan_cap cfg_plain_send) ∧
   (∀ tid g r k, threads cfg_plain_send !! tid = Some (g, ChanSend r k) →
      (length (resultChan cfg_plain_send) < chan_cap cfg_plain_send)%nat ∧
      (exited cfg_plain_send = false → ∀ a, is_Some (step (code PlainVariant) (Run tid a) cfg_plain_send))))).
Proof.
  split.
  {
  assert (H1 : reachable TimedVariant sample_args cfg_send)
    by (exists sched_send; vm_compute; reflexivity).
  split; [exact H1|].
  exact (C7_channel_capacity_covers_every_send TimedVariant sample_args cfg_send H1).
  }
  {
  assert (H1 : reachable PlainVariant sample_args cfg_plain_send)
    by (exists sched_plain_send; vm_compute; reflexivity).
  split; [exact H1|].
  exact (C7_channel_capacity_covers_every_send PlainVariant sample_args cfg_plain_send H1).
  }
Defined.

(** ** Where the claims as stated fail *)

(** C1, the claim as stated fails on this run of the timing variant:
    BrasilAPI's success arrives on the channel 30ns after the start, when
    [main] has not yet reached its [select]; [main] reaches it only after
    the deadline has passed, finds both cases ready and takes the deadline.
    The program ends having reported the timeout and nothing else: the
    first value that arrived, a success, is never received and stays in
    the channel. *)
Lemma C1_first_arrival_not_reported_counterexample :
  reachable TimedVariant sample_args cfg_late_timeout ∧
  cep_of sample_args = Some "01153000" ∧
  head (all_sends (trace cfg_late_timeout)) = Some sample_response ∧
  Error sample_response = None ∧
  Duration sample_response = 30 ∧
  ctx_deadline cfg_late_timeout = Some 1000000000 ∧
  exited cfg_late_timeout = true ∧
  selected (local 0 (trace cfg_late_timeout)) = [None] ∧
  selected (local 0 (trace cfg_late_timeout)) ≠ [Some sample_response] ∧
  receives (local 0 (trace cfg_late_timeout)) = [] ∧
  resultChan cfg_late_timeout = [sample_response] ∧
  stdout cfg_late_timeout =
    [OutPrintf searching_format [VString "01153000"];
     OutPrintln timeout_message].
Proof.
  split; [by exists sched_late_timeout; vm_compute|].
  repeat split; try (vm_compute; reflexivity).
  vm_compute. discriminate.
Qed.

(** C2, the claim as stated fails on this run of the timing variant: the
    deadline fires, one second after it was set, when nothing has been
    sent on the channel and [main] has not yet reached its [select]; then
    BrasilAPI sends its response and [main] reaches its [select], finds
    both cases ready and takes the value. No timeout is reported: [main]
    prints the winner and its address, and goes on to its second [select],
    an operation that can wait. *)
Lemma C2_deadline_fired_no_timeout_counterexample :
  reachable TimedVariant sample_args cfg_fired ∧
  ctx_deadline cfg_fired = Some 1000000000 ∧
  clock cfg_fired = 1000000030 ∧
  ctx_done cfg_fired = true ∧
  all_sends (trace cfg_fired) = [] ∧
  resultChan cfg_fired = [] ∧
  run (code TimedVariant) sched_after_deadline cfg_fired = Some cfg_late_value ∧
  reachable TimedVariant sample_args cfg_late_value ∧
  selected (local 0 (trace cfg_late_value)) = [Some sample_response] ∧
  stdout cfg_late_value =
    [OutPrintf searching_format [VString "01153000"];
     OutPrintf Timed.fastest_response_format [VString "BrasilAPI"; VFloat64 (Seconds 30)];
     OutPrintf address_format
       [VString "01153-000"; VString "SP"; VString "Sao Paulo";
        VString "Barra Funda"; VString "Rua Vitorino Carmilo"]] ∧
  exited cfg_late_value = false ∧
  is_blocking (prog_of cfg_late_value 0) = true.
Proof.
  split; [by exists sched_fired; vm_compute|].
  do 6 (split; [vm_compute; reflexivity|]).
  split; [by exists (sched_fired ++ sched_after_deadline); vm_compute|].
  repeat split; vm_compute; reflexivity.
Qed.

(** C4, the claim as stated fails on this run: BrasilAPI took 100ms and
    ViaCEP 102.5ms, and the difference the comparison goroutine prints is
    the [float64] value of [slowestTime.Seconds() - fastestTime.Seconds()],
    which is strictly less than the number of seconds of the exact
    difference, 2.5ms. *)
Lemma C4_difference_is_not_exact_counterexample :
  at_report 3%nat (defer (Unlock ;; Return)%prog Timed.compare_timings)
    (stdout cfg_report_100ms) (timingResults cfg_report_100ms)
    cfg_report_100ms ∧
  timingResults cfg_report_100ms =
    <["BrasilAPI" := 100000000]> (<["ViaCEP" := 102500000]> ∅) ∧
  stdout <$> run (code TimedVariant) sched_compare_100ms cfg_report_100ms =
    Some (stdout cfg_report_100ms ++
      [OutPrintf Timed.fastest_format
         [VString "BrasilAPI"; VFloat64 (Seconds 100000000)];
       OutPrintf Timed.slowest_format
         [VString "ViaCEP"; VFloat64 (Seconds 102500000)];
       OutPrintf Timed.difference_format
         [VFloat64 (F64Sub (Seconds 102500000) (Seconds 100000000))];
       OutPrintf Timed.entry_format
         [VString "BrasilAPI"; VFloat64 (Seconds 100000000)];
       OutPrintf Timed.entry_format
         [VString "ViaCEP"; VFloat64 (Seconds 102500000)]]) ∧
  PrimFloat.ltb
    (F64_value (F64Sub (Seconds 102500000) (Seconds 100000000)))
    (Duration_Seconds (102500000 - 100000000)) = true ∧
  F64_value (F64Sub (Seconds 102500000) (Seconds 100000000)) ≠
    Duration_Seconds (102500000 - 100000000).
Proof.
  split; [repeat split; try (vm_compute; reflexivity); discriminate|].
  split; [vm_compute; reflexivity|].
  split; [vm_compute; reflexivity|].
  split; [vm_compute; reflexivity|].
  intros Heq.
  assert (Hlt : PrimFloat.ltb
    (F64_value (F64Sub (Seconds 102500000) (Seconds 100000000)))
    (Duration_Seconds (102500000 - 100000000)) = true)
    by (vm_compute; reflexivity).
  rewrite Heq in Hlt. vm_compute in Hlt. discriminate.
Qed.
